(** * String searching algorithms: a shallow embedding and its verification

    Embedding of [string_searching_algorithms.py]
    (Knuth-Morris-Pratt, the Z algorithm, the rolling hash, the Aho-Corasick
    automaton with its consumers, [addBoldTag] and Manacher's algorithm),
    followed by the properties established about it.

    Conventions of the embedding:
    - a Python sequence is a [list A] over a type with decidable equality,
      a Python string is a [list ascii];
    - a Python [int] is a [Z] (bitsets included: [Z.lor], [Z.land],
      [Z.shiftl], [Z.shiftr]); an index that the code keeps non-negative by
      construction is a [nat];
    - a Python [list] used as an array is a [list] read with [!!] and
      written with [<[i:=x]>];
    - a Python [dict] is an association list in insertion order;
    - a generator is the list of the values it yields;
    - an uncaught exception or a loop that runs out of fuel is [None]. *)

From Stdlib Require Import ZArith Lia Ascii String.
From stdpp Require Import base tactics option list numbers strings sorting sets.

#[local] Set Warnings "-clear-no-such-hyp".

Local Open Scope Z_scope.
Local Open Scope nat_scope.

(** * Part I: the embedding *)

(** ** Python sequences *)

Section PySeq.
Context {X : Type}.

(** [s[a:b]] for integers [a] and [b]: a negative bound counts from the
    end, and both bounds are clamped to [0 .. len(s)]. *)
Definition py_bound (n : nat) (a : Z) : nat :=
  if (a <? 0)%Z then Z.to_nat (Z.max 0 (Z.of_nat n + a)) else min (Z.to_nat a) n.

Definition py_slice (s : list X) (a b : Z) : list X :=
  let lo := py_bound (length s) a in
  let hi := py_bound (length s) b in
  take (hi - lo) (drop lo s).

(** [s[i]] for an integer [i]: a negative index counts from the end,
    anything out of range raises [IndexError]. *)
Definition py_get (s : list X) (i : Z) : option X :=
  if (i <? 0)%Z then
    if (i <? - Z.of_nat (length s))%Z then None
    else s !! Z.to_nat (Z.of_nat (length s) + i)
  else s !! Z.to_nat i.
End PySeq.

(** ** Knuth-Morris-Pratt *)

Section KnuthMorrisPratt.
Context {A : Type} `{EqDecision A}.

(** The loop shared by [constructLPS] and [matchStartGenerator]:
<<
    while l != p[j]:
        if not j: break
        j = lps[j - 1]
    else: ...
>>
    The result is [(true, j)] when the loop ends because [l == p[j]] (the
    [else] clause runs) and [(false, j)] when it ends by [break]. *)
Fixpoint kmp_while (fuel : nat) (p : list A) (lps : list nat) (l : A) (j : nat)
    : option (bool * nat) :=
  match fuel with
  | 0 => None
  | S fuel' =>
      c ← p !! j;
      if decide (l ≠ c) then
        if decide (j = 0) then Some (false, j)
        else j' ← lps !! (j - 1); kmp_while fuel' p lps l j'
      else Some (true, j)
  end.

(** The [for l in p_iter] loop of [constructLPS]; [rest] is what is left
    of the iterator. *)
Fixpoint lps_loop (p rest : list A) (lps : list nat) (j : nat) : option (list nat) :=
  match rest with
  | [] => Some lps
  | l :: rest' =>
      '(fell, j1) ← kmp_while (S j) p lps l j;
      let j2 := if fell : bool then S j1 else j1 in
      lps_loop p rest' (lps ++ [j2]) j2
  end.

(** [next(p_iter)] raises [StopIteration] on an empty pattern. *)
Definition constructLPS (p : list A) : option (list nat) :=
  match p with
  | [] => None
  | _ :: rest => lps_loop p rest [0] 0
  end.

(** The [for i, l in enumerate(s)] loop of [matchStartGenerator]. *)
Fixpoint kmp_scan (p : list A) (lps : list nat) (s : list A) (i j : nat)
    : option (list Z) :=
  match s with
  | [] => Some []
  | l :: s' =>
      '(fell, j1) ← kmp_while (S j) p lps l j;
      if fell : bool then
        let j2 := S j1 in
        if decide (j2 ≠ length p) then kmp_scan p lps s' (S i) j2
        else
          j3 ← list.last lps;
          ys ← kmp_scan p lps s' (S i) j3;
          Some ((Z.of_nat i - Z.of_nat (length p) + 1)%Z :: ys)
      else kmp_scan p lps s' (S i) j1
  end.

Definition matchStartGenerator (p s : list A) : option (list Z) :=
  let m := length p in
  if decide (m = 0) then Some (Z.of_nat <$> seq 0 (length s))
  else if decide (length s < m) then Some []
  else lps ← constructLPS p; kmp_scan p lps s 0 0.

(** Brute-force substring scanning: every index [i] of the text with
    [text[i : i + len(pattern)] == pattern], in increasing order. *)
Definition occurs_at (p s : list A) (i : nat) : Prop :=
  take (length p) (drop i s) = p.

#[global] Instance occurs_at_dec p s i : Decision (occurs_at p s i).
Proof. unfold occurs_at. apply _. Defined.

Definition brute_force (p s : list A) : list nat :=
  filter (occurs_at p s) (seq 0 (length s)).

(** Vocabulary of the correctness argument. [pre_suf p k x]: the prefix of
    length [k] of [p] is a suffix of [x]. [max_ps p b x j]: [j] is the
    largest such [k] below [b]. [lps_ok p lps]: entry [i] of [lps] is the
    length of the longest proper prefix of [p[:i + 1]] that is also a suffix
    of it. *)
Definition pre_suf (p : list A) (k : nat) (x : list A) : Prop :=
  k ≤ length p ∧ take k p `suffix_of` x.

Definition max_ps (p : list A) (b : nat) (x : list A) (j : nat) : Prop :=
  j < b ∧ pre_suf p j x ∧ ∀ k, k < b → pre_suf p k x → k ≤ j.

Definition lps_ok (p : list A) (lps : list nat) : Prop :=
  ∀ i, i < length lps →
    ∃ k, lps !! i = Some k ∧ max_ps p (S i) (take (S i) p) k.
End KnuthMorrisPratt.

(** ** The Z algorithm *)

Section ZAlgorithm.
Context {A : Type} `{EqDecision A}.

(** [for rgt in range(max(rgt, i), n): if s[rgt] != s[rgt - lft]: break]
    followed by [else: rgt = n]. [k] counts the values of the range that
    are left; the result is the value of [rgt] after the statement. *)
Fixpoint z_extend (s : list A) (lft : nat) (k : nat) (rgt : nat) : option nat :=
  match k with
  | 0 => Some (length s)
  | S k' =>
      a ← s !! rgt;
      b ← py_get s (Z.of_nat rgt - Z.of_nat lft);
      if decide (a ≠ b) then Some rgt else z_extend s lft k' (S rgt)
  end.

(** The [for i in range(1, n)] loop of [constructZArray]: [k] counts the
    iterations that are left. *)
Fixpoint z_loop (s : list A) (k : nat) (i : nat) (res : list nat) (lft rgt : nat)
    : option (list nat) :=
  match k with
  | 0 => Some res
  | S k' =>
      z ← py_get res (Z.of_nat i - Z.of_nat lft);
      if decide (Z.of_nat z < Z.of_nat rgt - Z.of_nat i)%Z then
        z_loop s k' (S i) (<[i:=z]> res) lft rgt
      else
        let lft := i in
        let start := max rgt i in
        rgt ← z_extend s lft (length s - start) start;
        z_loop s k' (S i) (<[i:=rgt - lft]> res) lft rgt
  end.

(** [res[0] = n] raises [IndexError] on an empty list. *)
Definition constructZArray (s : list A) : option (list nat) :=
  let n := length s in
  res ← z_loop s (n - 1) 1 (replicate n 0) 0 1;
  if decide (n = 0) then None else Some (<[0:=n]> res).

(** The final loop of [matchStartGenerator]:
    [for i in ...: if z_arr[i] == m: yield i - m - 1]. *)
Fixpoint z_yield (z_arr : list nat) (m : nat) (range : list nat) : option (list Z) :=
  match range with
  | [] => Some []
  | i :: range' =>
      z ← z_arr !! i;
      ys ← z_yield z_arr m range';
      Some (if decide (z = m) then (Z.of_nat i - Z.of_nat m - 1)%Z :: ys else ys)
  end.

(** [ZAlgorithm(p).matchStartGenerator(s, wild)]: the final loop runs
    over [range(m + 1, n)] with [n = n2 - m - 1]. *)
Definition z_matchStartGenerator (p s : list A) (wild : A) : option (list Z) :=
  let s2 := p ++ wild :: s in
  let m := length p in
  let n2 := length s2 in
  let n := n2 - m - 1 in
  z_arr ← constructZArray s2;
  z_yield z_arr m (seq (m + 1) (n - (m + 1))).
End ZAlgorithm.

(** ** Python dicts

    A [dict] is the list of its items in insertion order; keys are
    distinct. *)

Section Dict.
Context {K V : Type} `{EqDecision K}.

(** [d.get(k)] *)
Fixpoint dict_get (d : list (K * V)) (k : K) : option V :=
  match d with
  | [] => None
  | (k', v) :: d' => if decide (k = k') then Some v else dict_get d' k
  end.

(** [d[k] = v]: an existing key keeps its place, a new one goes last. *)
Fixpoint dict_set (d : list (K * V)) (k : K) (v : V) : list (K * V) :=
  match d with
  | [] => [(k, v)]
  | (k', v') :: d' =>
      if decide (k = k') then (k', v) :: d' else (k', v') :: dict_set d' k v
  end.
End Dict.

(** ** The Aho-Corasick automaton *)

(** The four parallel arrays of an [AhoCorasick] object; [self.words] is
    passed along separately. *)
Record automaton (A : Type) := Automaton {
  goto : list (list (A * nat));
  failure : list Z;
  out : list Z;
  out_lens : list Z
}.
Arguments Automaton {A} _ _ _ _.
Arguments goto {A} _.
Arguments failure {A} _.
Arguments out {A} _.
Arguments out_lens {A} _.

Section AhoCorasick.
Context {A : Type} `{EqDecision A}.

(** The state set up by [__init__] before [buildAutomaton] runs. *)
Definition ac_init : automaton A :=
  Automaton [[]] [(-1)%Z] [0%Z] [0%Z].

(** The body of [if l not in self.goto[j].keys()]: a new node is appended
    to the four arrays and linked from [j]. *)
Definition add_node (ac : automaton A) (j : nat) (l : A) : option (automaton A) :=
  g ← goto ac !! j;
  Some (Automaton (<[j := dict_set g l (length (goto ac))]> (goto ac) ++ [[]])
                  (failure ac ++ [0%Z])
                  (out ac ++ [0%Z])
                  (out_lens ac ++ [0%Z])).

(** [for l in w: ...]: inserts what is left of the word below node [j] and
    returns the node reached. *)
Fixpoint trie_insert (ac : automaton A) (w : list A) (j : nat)
    : option (automaton A * nat) :=
  match w with
  | [] => Some (ac, j)
  | l :: w' =>
      g ← goto ac !! j;
      ac1 ← (if decide (dict_get g l = None) then add_node ac j l else Some ac);
      g1 ← goto ac1 !! j;
      j1 ← dict_get g1 l;
      trie_insert ac1 w' j1
  end.

(** One iteration of [for i, w in enumerate(self.words)]. *)
Definition add_word (ac : automaton A) (i : nat) (w : list A) : option (automaton A) :=
  '(ac1, j) ← trie_insert ac w 0;
  o ← out ac1 !! j;
  let ac2 := Automaton (goto ac1) (failure ac1)
               (<[j := Z.lor o (Z.shiftl 1 (Z.of_nat i))]> (out ac1)) (out_lens ac1) in
  ol ← out_lens ac2 !! j;
  Some (Automaton (goto ac2) (failure ac2) (out ac2)
          (<[j := Z.lor ol (Z.shiftl 1 (Z.of_nat (length w)))]> (out_lens ac2))).

Fixpoint add_words (ac : automaton A) (i : nat) (words : list (list A))
    : option (automaton A) :=
  match words with
  | [] => Some ac
  | w :: words' => ac1 ← add_word ac i w; add_words ac1 (S i) words'
  end.

(** The loop
<<
      while j and l not in self.goto[j].keys():
          j = self.failure[j]
>>
    which [_findNext] and the body of the breadth-first pass both run. The
    index is an integer: [self.failure[0]] is [-1]. *)
Fixpoint fail_chase (fuel : nat) (ac : automaton A) (l : A) (j : Z) : option Z :=
  match fuel with
  | 0 => None
  | S fuel' =>
      if decide (j = 0%Z) then Some j
      else
        g ← py_get (goto ac) j;
        if decide (dict_get g l = None) then
          j' ← py_get (failure ac) j; fail_chase fuel' ac l j'
        else Some j
  end.

(** [_findNext(j, l)]: the loop above, then [self.goto[j].get(l, 0)]. *)
Definition _findNext (ac : automaton A) (j : Z) (l : A) : option nat :=
  j' ← fail_chase (length (goto ac)) ac l j;
  g ← py_get (goto ac) j';
  Some (default 0 (dict_get g l)).

(** [for l, j2 in self.goto[j].items(): ...] in the breadth-first pass. *)
Fixpoint bfs_children (ac : automaton A) (j : nat) (items : list (A * nat))
    (queue : list nat) : option (automaton A * list nat) :=
  match items with
  | [] => Some (ac, queue)
  | (l, j2) :: items' =>
      j_f0 ← failure ac !! j;
      j_f ← _findNext ac j_f0 l;
      _ ← failure ac !! j2;
      let fl := <[j2 := Z.of_nat j_f]> (failure ac) in
      o2 ← out ac !! j2;
      o_f ← out ac !! j_f;
      let ou := <[j2 := Z.lor o2 o_f]> (out ac) in
      ol2 ← out_lens ac !! j2;
      ol_f ← out_lens ac !! j_f;
      let ol := <[j2 := Z.lor ol2 ol_f]> (out_lens ac) in
      bfs_children (Automaton (goto ac) fl ou ol) j items' (queue ++ [j2])
  end.

(** [while queue: j = queue.popleft(); ...] *)
Fixpoint bfs (fuel : nat) (ac : automaton A) (queue : list nat) : option (automaton A) :=
  match queue with
  | [] => Some ac
  | j :: queue' =>
      match fuel with
      | 0 => None
      | S fuel' =>
          g ← goto ac !! j;
          '(ac1, queue1) ← bfs_children ac j g queue';
          bfs fuel' ac1 queue1
      end
  end.

Definition buildAutomaton (ac : automaton A) (words : list (list A))
    : option (automaton A) :=
  ac1 ← add_words ac 0 words;
  g0 ← goto ac1 !! 0;
  bfs (length (goto ac1)) ac1 (g0.*2).

(** [AhoCorasick(words)] *)
Definition AhoCorasick (words : list (list A)) : option (automaton A) :=
  buildAutomaton ac_init words.

(** [res.setdefault(w, []); res[w].append(x)] *)
Definition dict_append (res : list (list A * list Z)) (w : list A) (x : Z)
    : list (list A * list Z) :=
  dict_set res w (default [] (dict_get res w) ++ [x]).

(** [for idx, w in enumerate(self.words): ...] in [search], at text
    position [i]. *)
Fixpoint search_bits (words : list (list A)) (bm : Z) (i : nat)
    (res : list (list A * list Z)) : list (list A * list Z) :=
  match words with
  | [] => res
  | w :: words' =>
      if decide (bm = 0%Z) then res
      else
        let res1 :=
          if decide (Z.land bm 1 ≠ 0%Z)
          then dict_append res w (Z.of_nat i - Z.of_nat (length w) + 1)%Z
          else res in
        search_bits words' (Z.shiftr bm 1) i res1
  end.

Fixpoint search_loop (ac : automaton A) (words : list (list A)) (s : list A)
    (i j : nat) (res : list (list A * list Z)) : option (list (list A * list Z)) :=
  match s with
  | [] => Some res
  | l :: s' =>
      j1 ← _findNext ac (Z.of_nat j) l;
      bm ← out ac !! j1;
      search_loop ac words s' (S i) j1 (search_bits words bm i res)
  end.

(** [AhoCorasick.search] *)
Definition search (ac : automaton A) (words : list (list A)) (s : list A)
    : option (list (list A * list Z)) :=
  search_loop ac words s 0 0 [].

(** [while bm: if bm & 1: res.append(idx); idx += 1; bm >>= 1] *)
Fixpoint bits_loop (fuel : nat) (bm : Z) (idx : nat) : option (list nat) :=
  if decide (bm = 0%Z) then Some []
  else
    match fuel with
    | 0 => None
    | S fuel' =>
        rest ← bits_loop fuel' (Z.shiftr bm 1) (S idx);
        Some (if decide (Z.land bm 1 ≠ 0%Z) then idx :: rest else rest)
    end.

(** The loop ends once every bit of a non-negative [bm] is shifted out;
    it does not end on a negative one. *)
Definition set_bits (bm : Z) : option (list nat) :=
  bits_loop (S (Z.to_nat (Z.log2 bm))) bm 0.

Fixpoint searchEndIndices_loop (ac : automaton A) (s : list A) (i j : nat)
    : option (list (nat * list nat)) :=
  match s with
  | [] => Some []
  | l :: s' =>
      j1 ← _findNext ac (Z.of_nat j) l;
      bm ← out ac !! j1;
      res ← set_bits bm;
      ys ← searchEndIndices_loop ac s' (S i) j1;
      Some ((i, res) :: ys)
  end.

(** [AhoCorasick.searchEndIndices] *)
Definition searchEndIndices (ac : automaton A) (s : list A)
    : option (list (nat * list nat)) :=
  searchEndIndices_loop ac s 0 0.

Fixpoint searchLengths_loop (ac : automaton A) (s : list A) (j : nat)
    : option (list (list nat)) :=
  match s with
  | [] => Some []
  | l :: s' =>
      j1 ← _findNext ac (Z.of_nat j) l;
      bm ← out_lens ac !! j1;
      res ← set_bits bm;
      ys ← searchLengths_loop ac s' j1;
      Some (res :: ys)
  end.

(** [AhoCorasick.searchLengths] *)
Definition searchLengths (ac : automaton A) (s : list A) : option (list (list nat)) :=
  searchLengths_loop ac s 0.
End AhoCorasick.

(** ** Vocabulary of the Aho-Corasick correctness argument *)

Section AhoCorasickSpec.
Context {A : Type} `{EqDecision A}.

(** Following the transitions of the trie from node [j] along [w]. *)
Fixpoint walk (gt : list (list (A * nat))) (j : nat) (w : list A) : option nat :=
  match w with
  | [] => Some j
  | l :: w' => g ← gt !! j; c ← dict_get g l; walk gt c w'
  end.

(** [paths !! j] is the word spelled from the root to node [j]: the
    transitions are exactly the one-letter extensions among the paths. *)
Record trie_inv (gt : list (list (A * nat))) (paths : list (list A)) : Prop := {
  ti_len : length gt = length paths;
  ti_root : paths !! 0 = Some [];
  ti_nodup : NoDup paths;
  ti_keys : ∀ j g, gt !! j = Some g → NoDup g.*1;
  ti_edge : ∀ j g l c, gt !! j = Some g → dict_get g l = Some c →
      ∃ p, paths !! j = Some p ∧ paths !! c = Some (p ++ [l]);
  ti_edge_inv : ∀ j c p l, paths !! j = Some p → paths !! c = Some (p ++ [l]) →
      ∃ g, gt !! j = Some g ∧ dict_get g l = Some c;
  ti_prefix : ∀ c p l, paths !! c = Some (p ++ [l]) → ∃ j, paths !! j = Some p
}.

(** Node [j] spells the longest suffix of [x] that is a path of the trie. *)
Definition lsuf (paths : list (list A)) (x : list A) (j : nat) : Prop :=
  ∃ q, paths !! j = Some q ∧ q `suffix_of` x ∧
       ∀ j' q', paths !! j' = Some q' → q' `suffix_of` x → q' `suffix_of` q.

(** The state between [add_words] and the breadth-first pass, for the
    words [done] inserted so far: bit [i] of [out[j]] is set exactly when
    word [i] is the path of [j], bit [k] of [out_lens[j]] exactly when a
    word of length [k] is. *)
Record ins_inv (done : list (list A)) (ac : automaton A) (paths : list (list A))
    : Prop := {
  ii_trie : trie_inv (goto ac) paths;
  ii_failure : failure ac = (-1)%Z :: replicate (length paths - 1) 0%Z;
  ii_out_len : length (out ac) = length paths;
  ii_lens_len : length (out_lens ac) = length paths;
  ii_words : ∀ w, w ∈ done → w ∈ paths;
  ii_out : ∀ j o z, out ac !! j = Some o →
      (Z.testbit o z = true ↔
       ∃ i w, z = Z.of_nat i ∧ done !! i = Some w ∧ paths !! j = Some w);
  ii_lens : ∀ j o z, out_lens ac !! j = Some o →
      (Z.testbit o z = true ↔
       ∃ w, z = Z.of_nat (length w) ∧ w ∈ done ∧ paths !! j = Some w)
}.

(** The failure link of node [c] with path [q] is the node of the longest
    proper suffix of [q] in the trie. *)
Definition fail_ok (paths : list (list A)) (fl : list Z) (c : nat) (q : list A)
    : Prop :=
  ∃ f, fl !! c = Some (Z.of_nat f) ∧ lsuf paths (tail q) f.

(** What the failure chase keeps: [q] is a suffix of [x], at least as long
    as every suffix of [x] that [l] extends to a path. *)
Definition chase_cand (paths : list (list A)) (x : list A) (l : A) (q : list A)
    : Prop :=
  q `suffix_of` x ∧ ∀ y, y `suffix_of` x → y ++ [l] ∈ paths → y `suffix_of` q.

Definition depth (paths : list (list A)) (c : nat) : nat :=
  from_option length 0 (paths !! c).

(** How the breadth-first pass leaves a bitset of a node [c] with path
    [p ++ [l]] and failure link [f]: a child of the root keeps the bits set
    by [add_words], a deeper node has those of [f] or-ed in. *)
Definition closed (p : list A) (arr1 arr : list Z) (c f : nat) : Prop :=
  if decide (p = []) then arr !! c = arr1 !! c
  else ∃ o1 o_f, arr1 !! c = Some o1 ∧ arr !! f = Some o_f ∧
                 arr !! c = Some (Z.lor o1 o_f).

(** The invariant of the breadth-first pass. [popped] are the nodes taken
    from the queue so far, the last of them being processed with the items
    [todo] left, [q] is the queue; [ac1] is the automaton before the pass. *)
Record bfs_inv (paths : list (list A)) (ac1 ac : automaton A)
    (popped : list nat) (todo : list (A * nat)) (q : list nat) : Prop := {
  bi_goto : goto ac = goto ac1;
  bi_flen : length (failure ac) = length paths;
  bi_olen : length (out ac) = length paths;
  bi_ollen : length (out_lens ac) = length paths;
  bi_nodup : NoDup (popped ++ q);
  bi_nonroot : ∀ c, c ∈ popped ++ q → ∃ p l, paths !! c = Some (p ++ [l]);
  bi_sorted : StronglySorted (λ a b, depth paths a ≤ depth paths b) (popped ++ q);
  bi_member : ∀ j c p l, paths !! j = Some p → paths !! c = Some (p ++ [l]) →
      (c ∈ popped ++ q ↔ (j = 0 ∨ j ∈ popped) ∧ c ∉ todo.*2);
  bi_todo : ∀ l c, (l, c) ∈ todo →
      ∃ j p, list.last popped = Some j ∧ paths !! j = Some p ∧
             paths !! c = Some (p ++ [l]);
  bi_todo_nodup : NoDup todo.*2;
  bi_root : failure ac !! 0 = Some (-1)%Z ∧ out ac !! 0 = out ac1 !! 0 ∧
            out_lens ac !! 0 = out_lens ac1 !! 0;
  bi_fresh : ∀ c, 0 < c < length paths → c ∉ popped ++ q →
      failure ac !! c = Some 0%Z ∧ out ac !! c = out ac1 !! c ∧
      out_lens ac !! c = out_lens ac1 !! c;
  bi_done : ∀ c p l, c ∈ popped ++ q → paths !! c = Some (p ++ [l]) →
      ∃ f, failure ac !! c = Some (Z.of_nat f) ∧ lsuf paths (tail (p ++ [l])) f ∧
           (f = 0 ∨ f ∈ popped ++ q) ∧
           closed p (out ac1) (out ac) c f ∧
           closed p (out_lens ac1) (out_lens ac) c f
}.

(** What [search] records at text position [i] for the bitset [bm], in
    order: a pattern and a start index for every set bit. *)
Fixpoint events_at (words : list (list A)) (bm : Z) (i : nat) : list (list A * Z) :=
  match words with
  | [] => []
  | w :: words' =>
      (if Z.testbit bm 0 then [(w, (Z.of_nat i - Z.of_nat (length w) + 1)%Z)] else [])
      ++ events_at words' (Z.shiftr bm 1) i
  end.

(** The events of a scan from text position [i] on, given the bitsets
    read at the successive positions. *)
Fixpoint events_from (words : list (list A)) (bms : list Z) (i : nat)
    : list (list A * Z) :=
  match bms with
  | [] => []
  | bm :: bms' => events_at words bm i ++ events_from words bms' (S i)
  end.

(** [bms] are the bitsets of the states of the automaton along the text
    [t] from position [i] on: the state after [t[: k + 1]] is the node of
    the longest suffix of [t[: k + 1]] in the trie. *)
Definition scan_ok (paths : list (list A)) (arr : list Z) (t : list A) (i : nat)
    (bms : list Z) : Prop :=
  ∀ k bm, bms !! k = Some bm →
    ∃ c, lsuf paths (take (S (i + k)) t) c ∧ arr !! c = Some bm.

Definition record_event (res : list (list A * list Z)) (e : list A * Z)
    : list (list A * list Z) :=
  dict_append res e.1 e.2.

(** The text position at which an event was recorded. *)
Definition ev_end (e : list A * Z) : Z :=
  (e.2 + Z.of_nat (length e.1) - 1)%Z.

(** The bits [add_words] sets at node [j]: bit [idx + i] for every pattern
    [i] of [words] whose letters lead from the root to [j]. *)
Fixpoint direct_out (gt : list (list (A * nat))) (words : list (list A))
    (j idx : nat) : Z :=
  match words with
  | [] => 0%Z
  | w :: words' =>
      Z.lor (if decide (walk gt 0 w = Some j) then Z.shiftl 1 (Z.of_nat idx) else 0%Z)
            (direct_out gt words' j (S idx))
  end.

(** Likewise for the lengths: bit [len(w)] for every such pattern [w]. *)
Fixpoint direct_lens (gt : list (list (A * nat))) (words : list (list A))
    (j : nat) : Z :=
  match words with
  | [] => 0%Z
  | w :: words' =>
      Z.lor (if decide (walk gt 0 w = Some j)
             then Z.shiftl 1 (Z.of_nat (length w)) else 0%Z)
            (direct_lens gt words' j)
  end.

(** The closure equations at node [j]: both bitsets are the direct bits
    or-ed with the bitsets of [failure[j]]. *)
Definition closure_at (words : list (list A)) (ac : automaton A) (j : nat) : Prop :=
  ∃ f o_f l_f,
    failure ac !! j = Some (Z.of_nat f) ∧
    out ac !! f = Some o_f ∧ out_lens ac !! f = Some l_f ∧
    out ac !! j = Some (Z.lor (direct_out (goto ac) words j 0) o_f) ∧
    out_lens ac !! j = Some (Z.lor (direct_lens (goto ac) words j) l_f).

(** The automaton [ac] built for [words], [ac1] being its state before the
    breadth-first pass. *)
Definition built (words : list (list A)) (ac1 ac : automaton A)
    (paths : list (list A)) : Prop :=
  ins_inv words ac1 paths ∧ ∃ popped, bfs_inv paths ac1 ac popped [] [].
End AhoCorasickSpec.

(** ** addBoldTag *)

(** The elements of the list [res] that [addBoldTag] joins at the end: a
    slice of the text, or one of the markers ["<b>"] and ["</b>"] it
    inserts. *)
Inductive piece (A : Type) : Type :=
  | Lit (t : list A)
  | Open
  | Close.
Arguments Lit {A} t.
Arguments Open {A}.
Arguments Close {A}.

(** An element [[i1, -i2, j, idx]] of the heap; Python compares such lists
    lexicographically. *)
Definition entry : Type := Z * Z * Z * Z.

Definition entry_ltb (e1 e2 : entry) : bool :=
  let '(a1, b1, c1, d1) := e1 in
  let '(a2, b2, c2, d2) := e2 in
  if (a1 =? a2)%Z then
    if (b1 =? b2)%Z then
      if (c1 =? c2)%Z then (d1 <? d2)%Z else (c1 <? c2)%Z
    else (b1 <? b2)%Z
  else (a1 <? a2)%Z.

(** The least element of a heap. *)
Fixpoint heap_min (h : list entry) : option entry :=
  match h with
  | [] => None
  | e :: h' =>
      match heap_min h' with
      | None => Some e
      | Some m => Some (if entry_ltb m e then m else e)
      end
  end.

Fixpoint heap_remove (m : entry) (h : list entry) : list entry :=
  match h with
  | [] => []
  | e :: h' => if decide (e = m) then h' else e :: heap_remove m h'
  end.

(** [heapq.heappop(heap)]: the least element and the heap without it;
    [IndexError] on an empty heap. *)
Definition heappop (h : list entry) : option (entry * list entry) :=
  m ← heap_min h; Some (m, heap_remove m h).

(** [heapq.heappush(heap, e)] *)
Definition heappush (h : list entry) (e : entry) : list entry := e :: h.

(** The body of [for j in start_dict[w]], on the list [rngs[i]]. *)
Definition add_start (len : Z) (rs : list (Z * Z)) (j : Z) : list (Z * Z) :=
  match list.last rs with
  | Some (a, b) =>
      if decide (j > b)%Z then rs ++ [(j, (j + len)%Z)]
      else <[length rs - 1 := (a, (j + len)%Z)]> rs
  | None => rs ++ [(j, (j + len)%Z)]
  end.

(** [[rng_lst[0][0], -rng_lst[0][1], 0, idx] for idx, rng_lst in
    enumerate(rngs)] *)
Fixpoint init_heap (rngs : list (list (Z * Z))) (idx : nat) : option (list entry) :=
  match rngs with
  | [] => Some []
  | r :: rngs' =>
      '(a, b) ← r !! 0;
      h ← init_heap rngs' (S idx);
      Some ((a, (- b)%Z, 0%Z, Z.of_nat idx) :: h)
  end.

(** [if j + 1 < len(rngs[idx]): heapq.heappush(heap, [rngs[idx][j + 1][0],
    -rngs[idx][j + 1][1], j + 1, idx])] *)
Definition push_next (rngs : list (list (Z * Z))) (heap : list entry) (j idx : Z)
    : option (list entry) :=
  r ← py_get rngs idx;
  if decide (j + 1 < Z.of_nat (length r))%Z then
    '(a, b) ← py_get r (j + 1);
    Some (heappush heap (a, (- b)%Z, (j + 1)%Z, idx))
  else Some heap.

Section AddBoldTag.
Context {A : Type} `{EqDecision A}.

(** [rngs], from [start_dict]: the values [start_dict[w]] for its keys [w],
    in order. *)
Definition word_ranges (start_dict : list (list A * list Z)) : list (list (Z * Z)) :=
  (λ kv, foldl (add_start (Z.of_nat (length kv.1))) [] kv.2) <$> start_dict.

(** The [while heap] loop; the result is [res], [bs_i] and [be_i] when it
    is left. *)
Fixpoint bold_loop (fuel : nat) (s : list A) (rngs : list (list (Z * Z)))
    (heap : list entry) (res : list (piece A)) (bs_i be_i : Z)
    : option (list (piece A) * Z * Z) :=
  match heap with
  | [] => Some (res, bs_i, be_i)
  | _ :: _ =>
      match fuel with
      | 0 => None
      | S fuel' =>
          '((i1, neg_i2, j, idx), heap) ← heappop heap;
          let i2 := (- neg_i2)%Z in
          if decide (i1 ≤ be_i)%Z then
            let be_i := Z.max be_i i2 in
            if decide (be_i = Z.of_nat (length s)) then Some (res, bs_i, be_i)
            else
              heap ← push_next rngs heap j idx;
              bold_loop fuel' s rngs heap res bs_i be_i
          else
            let res := res ++ [Lit (py_slice s bs_i be_i); Close;
                               Lit (py_slice s be_i i1); Open] in
            let bs_i := i1 in
            let be_i := i2 in
            if decide (be_i = Z.of_nat (length s)) then Some (res, bs_i, be_i)
            else
              heap ← push_next rngs heap j idx;
              bold_loop fuel' s rngs heap res bs_i be_i
      end
  end.

(** [addBoldTag], up to the final [join]: the list [res], or the text
    alone where the function returns it unchanged. The loop takes an
    element off the heap for every range at most. *)
Definition addBoldTag_pieces (s : list A) (words : list (list A))
    : option (list (piece A)) :=
  let n := Z.of_nat (length s) in
  if decide (n = 0%Z) then Some [Lit s]
  else
    ac ← AhoCorasick words;
    start_dict ← search ac words s;
    match start_dict with
    | [] => Some [Lit s]
    | _ :: _ =>
        let rngs := word_ranges start_dict in
        heap ← init_heap rngs 0;
        '((i1, neg_i2, j, idx), heap) ← heappop heap;
        let res := (if decide (i1 ≠ 0%Z) then [Lit (py_slice s 0 i1)] else [])
                   ++ [Open] in
        let bs_i := i1 in
        let be_i := (- neg_i2)%Z in
        heap ← push_next rngs heap j idx;
        '(res, bs_i, be_i) ← bold_loop (length (concat rngs)) s rngs heap res bs_i be_i;
        let res := res ++ [Lit (py_slice s bs_i be_i); Close] in
        Some (res ++ if decide (be_i < n)%Z then [Lit (py_slice s be_i n)] else [])
    end.

(** What is left of the output once the markers are deleted. *)
Definition strip (ps : list (piece A)) : list A :=
  concat ((λ p, match p with Lit t => t | _ => [] end) <$> ps).

(** Reading the output from left to right: the number of characters of
    text read, the position of the marker that is open, the spans closed
    so far, and whether the markers alternate. *)
Record tag_state : Type := TagState {
  ts_pos : nat;
  ts_open : option nat;
  ts_spans : list (nat * nat);
  ts_ok : bool
}.

Definition read_piece (st : tag_state) (p : piece A) : tag_state :=
  match p with
  | Lit t => TagState (ts_pos st + length t) (ts_open st) (ts_spans st) (ts_ok st)
  | Open =>
      TagState (ts_pos st) (Some (ts_pos st)) (ts_spans st)
               (ts_ok st && bool_decide (ts_open st = None))
  | Close =>
      match ts_open st with
      | Some a => TagState (ts_pos st) None (ts_spans st ++ [(a, ts_pos st)]) (ts_ok st)
      | None => TagState (ts_pos st) None (ts_spans st) false
      end
  end.

Definition read_pieces (ps : list (piece A)) : tag_state :=
  foldl read_piece (TagState 0 None [] true) ps.

(** The tagged spans of an output, as pairs of positions in the stripped
    text, if its markers are well formed. *)
Definition spans_of (ps : list (piece A)) : option (list (nat * nat)) :=
  let st := read_pieces ps in
  if ts_ok st && bool_decide (ts_open st = None) then Some (ts_spans st) else None.

(** Spans in a text of length [n] that neither overlap nor touch. *)
Definition spans_separated (n : nat) (sp : list (nat * nat)) : Prop :=
  StronglySorted (λ u v, u.2 < v.1) sp ∧ Forall (λ u, u.1 ≤ u.2 ≤ n) sp.
End AddBoldTag.

(** ** Vocabulary of the addBoldTag argument *)

(** A range within a text of length [n]. *)
Definition range_ok (n : nat) (r : Z * Z) : Prop :=
  (0 ≤ r.1 ≤ r.2)%Z ∧ (r.2 ≤ Z.of_nat n)%Z.

(** A heap element that stands for the range [j] of pattern [idx]. *)
Definition entry_ok (rngs : list (list (Z * Z))) (e : entry) : Prop :=
  let '(i1, neg_i2, j, idx) := e in
  (0 ≤ j)%Z ∧ (0 ≤ idx)%Z ∧
  ∃ r, rngs !! Z.to_nat idx = Some r ∧ r !! Z.to_nat j = Some (i1, (- neg_i2)%Z).

(** The ranges of its pattern that a heap element has still to bring in. *)
Definition entry_weight (rngs : list (list (Z * Z))) (e : entry) : nat :=
  length (default [] (rngs !! Z.to_nat e.2)) - Z.to_nat e.1.2.

(** The invariant of the [while heap] loop: [res] holds the text up to
    [bs_i], where its last marker opens a span that reaches [be_i] so
    far; the spans closed before are apart from each other and end before
    [bs_i]. *)
Record bold_inv {A : Type} (s : list A) (res : list (piece A)) (bs_i be_i : Z)
    : Prop := {
  bv_bounds : (0 ≤ bs_i ≤ be_i)%Z ∧ (be_i ≤ Z.of_nat (length s))%Z;
  bv_strip : strip res = take (Z.to_nat bs_i) s;
  bv_read : ∃ sp,
    read_pieces res = TagState (Z.to_nat bs_i) (Some (Z.to_nat bs_i)) sp true ∧
    StronglySorted (λ u v, u.2 < v.1) sp ∧
    Forall (λ u, u.1 ≤ u.2 < Z.to_nat bs_i) sp
}.

(** The string [addBoldTag] returns. *)
Definition render (p : piece ascii) : list ascii :=
  match p with
  | Lit t => t
  | Open => list_ascii_of_string "<b>"
  | Close => list_ascii_of_string "</b>"
  end.

Definition addBoldTag (s : list ascii) (words : list (list ascii)) : option (list ascii) :=
  ps ← addBoldTag_pieces s words; Some (concat (render <$> ps)).

(** ** Manacher's algorithm *)

Section Manacher.
Context {A : Type} `{EqDecision A}.

(** [while i - res[i] - 1 >= 0 and i + res[i] + 1 < len(s) and
    s[i + res[i] + 1] == s[i - res[i] - 1]: res[i] += 1] *)
Fixpoint manacher_while (fuel : nat) (s : list A) (i : nat) (res : list Z)
    : option (list Z) :=
  r ← py_get res (Z.of_nat i);
  if decide (Z.of_nat i - r - 1 >= 0 ∧ Z.of_nat i + r + 1 < Z.of_nat (length s))%Z then
    a ← py_get s (Z.of_nat i + r + 1);
    b ← py_get s (Z.of_nat i - r - 1);
    if decide (a = b) then
      match fuel with
      | 0 => None
      | S fuel' => manacher_while fuel' s i (<[i := (r + 1)%Z]> res)
      end
    else Some res
  else Some res.

(** The [for i in range(n)] loop, [k] counting the iterations left. The
    variables [max_val] and [max_i] are written and never read. *)
Fixpoint manacher_loop (s : list A) (k i : nat) (res : list Z)
    (curr_centre curr_right : Z) : option (list Z) :=
  match k with
  | 0 => Some res
  | S k' =>
      res ← (if decide (Z.of_nat i < curr_right)%Z then
               let mirror := (Z.shiftl curr_centre 1 - Z.of_nat i)%Z in
               m ← py_get res mirror;
               Some (<[i := Z.min m (curr_right - Z.of_nat i)]> res)
             else Some res);
      res ← manacher_while (length s) s i res;
      r ← py_get res (Z.of_nat i);
      if decide (Z.of_nat i + r > curr_right)%Z
      then manacher_loop s k' (S i) res (Z.of_nat i) (Z.of_nat i + r)%Z
      else manacher_loop s k' (S i) res curr_centre curr_right
  end.

(** [manacherAlgorithm] *)
Definition manacherAlgorithm (s : list A) : option (list Z) :=
  let n := length s in
  manacher_loop s n 0 (replicate n 0%Z) 0 0.

(** The elements of [s] from index [i - r] to [i + r] form a palindrome
    centred at [i]. *)
Definition palindrome_at (s : list A) (i r : nat) : Prop :=
  r ≤ i ∧ i + r < length s ∧
  let t := take (2 * r + 1) (drop (i - r) s) in reverse t = t.

#[global] Instance palindrome_at_dec s i r : Decision (palindrome_at s i r).
Proof. unfold palindrome_at. apply _. Defined.

(** The largest radius of a palindrome centred at [i]. *)
Definition max_radius (s : list A) (i r : nat) : Prop :=
  palindrome_at s i r ∧ ∀ r', palindrome_at s i r' → r' ≤ r.

(** The same by brute force: the largest of the radii from [0] to [i]
    that give a palindrome. *)
Definition brute_radius (s : list A) (i : nat) : nat :=
  max_list (filter (palindrome_at s i) (seq 0 (S i))).
End Manacher.

(** ** rollingHash *)

(** The exceptions the generator can end with. *)
Inductive exn : Type :=
  | UnboundLocalError
  | IndexError
  | ZeroDivisionError
  | ValueError.

(** What iterating a generator to its end gives: the values yielded, and
    the exception if it ended with one. *)
Inductive outcome (X : Type) : Type :=
  | Returned (ys : list X)
  | Raised (ys : list X) (e : exn).
Arguments Returned {X} ys.
Arguments Raised {X} ys e.

(** [for j, p in enumerate(p_lst): hsh[j] = (hsh[j] * p + val) % md] *)
Fixpoint hash_push (hsh p_lst : list Z) (md val : Z) : exn + list Z :=
  match p_lst, hsh with
  | [], _ => inr hsh
  | p :: ps, h :: hs =>
      if decide (md = 0%Z) then inl ZeroDivisionError
      else match hash_push hs ps md val with
           | inl e => inl e
           | inr hs' => inr (((h * p + val) `mod` md)%Z :: hs')
           end
  | _ :: _, [] => inl IndexError
  end.

(** [for j, p in enumerate(p_lst): hsh[j] = ((hsh[j] - mults[j] *
    val_qu.popleft()) * p + val) % md]: every round of the loop takes an
    element off the queue. *)
Fixpoint hash_roll (hsh mults p_lst : list Z) (md val : Z) (val_qu : list Z)
    : exn + (list Z * list Z) :=
  match p_lst, hsh, mults with
  | [], _, _ => inr (hsh, val_qu)
  | p :: ps, h :: hs, m :: ms =>
      match val_qu with
      | [] => inl IndexError
      | v :: val_qu' =>
          if decide (md = 0%Z) then inl ZeroDivisionError
          else match hash_roll hs ms ps md val val_qu' with
               | inl e => inl e
               | inr (hs', qu) => inr ((((h - m * v) * p + val) `mod` md)%Z :: hs', qu)
               end
      end
  | _ :: _, _, _ => inl IndexError
  end.

Section RollingHash.
Context {A : Type}.

(** [for i in range(length)]: [None] where the iterator ends early and the
    generator returns. *)
Fixpoint fill_loop (func : A → Z) (k : nat) (iter_obj : list A) (hsh p_lst : list Z)
    (md : Z) (val_qu : list Z) : exn + option (list A * list Z * list Z) :=
  match k with
  | 0 => inr (Some (iter_obj, hsh, val_qu))
  | S k' =>
      match iter_obj with
      | [] => inr None
      | x :: iter_obj' =>
          let val := func x in
          match hash_push hsh p_lst md val with
          | inl e => inl e
          | inr hsh' => fill_loop func k' iter_obj' hsh' p_lst md (val_qu ++ [val])
          end
      end
  end.

(** [for i in itertools.count(length)], until the iterator ends. *)
Fixpoint roll_loop (func : A → Z) (iter_obj : list A) (hsh mults p_lst : list Z)
    (md : Z) (val_qu : list Z) (ys : list (list Z)) : outcome (list Z) :=
  match iter_obj with
  | [] => Returned ys
  | x :: iter_obj' =>
      let val := func x in
      match hash_roll hsh mults p_lst md val (val_qu ++ [val]) with
      | inl e => Raised ys e
      | inr (hsh', qu) =>
          roll_loop func iter_obj' hsh' mults p_lst md qu (ys ++ [hsh'])
      end
  end.

(** [rollingHash], on a sequence [s] and a length that is not negative.
    With [func] left as [None] the generator evaluates
    [func(next(iter_obj))] before [iter_obj] is assigned. *)
Definition rollingHash (s : list A) (length : nat) (p_lst : list Z) (md : Z)
    (func : option (A → Z)) : outcome (list Z) :=
  if decide (Datatypes.length s < length) then Returned []
  else
    match func with
    | None => Raised [] UnboundLocalError
    | Some f =>
        match fill_loop f length s (replicate (Datatypes.length p_lst) 0%Z) p_lst md [] with
        | inl e => Raised [] e
        | inr None => Returned []
        | inr (Some (iter_obj, hsh, val_qu)) =>
            if decide (md = 0%Z ∧ p_lst ≠ []) then Raised [hsh] ValueError
            else
              let mults := (λ p, (p ^ Z.of_nat length) `mod` md)%Z <$> p_lst in
              roll_loop f iter_obj hsh mults p_lst md val_qu [hsh]
        end
    end.
End RollingHash.

(** The default arguments of [rollingHash]. *)
Definition default_p_lst : list Z := [37; 53]%Z.
Definition default_md : Z := (10 ^ 9 + 7)%Z.

(** ** Statements about the automaton *)

Section AutomatonStatements.
Context {A : Type} `{EqDecision A}.

(** [search] returns a mapping from patterns to ascending lists of start
    indices whose pairs are those KMP finds, pattern by pattern. *)
Definition search_agrees_with_KMP (words : list (list A)) (s : list A) : Prop :=
  ∃ ac res, AhoCorasick words = Some ac ∧ search ac words s = Some res ∧
    NoDup res.*1 ∧
    (∀ w l, dict_get res w = Some l → StronglySorted Z.le l) ∧
    ∀ w k, (∃ l, dict_get res w = Some l ∧ k ∈ l) ↔
           w ∈ words ∧ ∃ l', matchStartGenerator w s = Some l' ∧ k ∈ l'.

(** The closure equations hold at every node of the automaton built from
    [words] but the root. *)
Definition closure_holds (words : list (list A)) : Prop :=
  ∃ ac, AhoCorasick words = Some ac ∧
    ∀ j, 0 < j < length (goto ac) → closure_at words ac j.

(** The pattern [w] ends at position [e] of the text [s]. *)
Definition ends_at (w s : list A) (e : nat) : Prop :=
  e < length s ∧ w `suffix_of` take (S e) s.

(** For a pattern [w] given at the indices [k1] and [k2]: wherever [w]
    ends, [searchEndIndices] reports both indices, [search] records the
    start once for each, and [searchLengths] reports the length of [w]
    once. *)
Definition duplicates_reported (words : list (list A)) (s : list A)
    (k1 k2 : nat) (w : list A) : Prop :=
  ∃ ac ends lens res,
    AhoCorasick words = Some ac ∧ searchEndIndices ac s = Some ends ∧
    searchLengths ac s = Some lens ∧ search ac words s = Some res ∧
    ∀ e, ends_at w s e →
      (∃ ids, ends !! e = Some (e, ids) ∧ k1 ∈ ids ∧ k2 ∈ ids) ∧
      (∃ l, dict_get res w = Some l ∧
            let start := (Z.of_nat e - Z.of_nat (length w) + 1)%Z in
            [start; start] `sublist_of` l) ∧
      (∃ ls, lens !! e = Some ls ∧ length (filter (λ x, x = length w) ls) = 1).
End AutomatonStatements.

(** Python string literals, as lists of characters. *)
Definition str (x : string) : list ascii := list_ascii_of_string x.

(** ** Further vocabulary *)

Section FurtherVocabulary.
Context {A : Type} `{EqDecision A}.

(** The LPS entry for index [i] by brute force: the largest [k ≤ i] such
    that the first [k] elements of [p] end [p[:i + 1]]. *)
Definition brute_lps (p : list A) (i : nat) : nat :=
  max_list (filter (λ k, take k p `suffix_of` take (S i) p) (seq 0 (S i))).

(** [q] spells a node of the trie: its letters lead from the root to one. *)
Definition in_trie (gt : list (list (A * nat))) (q : list A) : Prop :=
  is_Some (walk gt 0 q).

(** Node [j] is the state of the automaton for the text [x] read so far:
    the node spelled by the longest suffix of [x] that the trie holds. *)
Definition state_of (gt : list (list (A * nat))) (x : list A) (j : nat) : Prop :=
  ∃ q, walk gt 0 q = Some j ∧ q `suffix_of` x ∧
       ∀ q', in_trie gt q' → q' `suffix_of` x → q' `suffix_of` q.
End FurtherVocabulary.

(** The values a generator yielded before it ended. *)
Definition yielded {X : Type} (o : outcome X) : list X :=
  match o with
  | Returned ys => ys
  | Raised ys _ => ys
  end.

(** The polynomial with coefficients [vs], highest first, at [p]. *)
Definition horner (p : Z) (vs : list Z) : Z :=
  foldl (λ h v, h * p + v)%Z 0%Z vs.

(** ** wordBreak *)

(** [arr[i] = v]: [IndexError] out of range. *)
Definition py_set {X : Type} (arr : list X) (i : nat) (v : X) : option (list X) :=
  if decide (i < length arr) then Some (<[i := v]> arr) else None.

(** The [for j in lengths] loop of [wordBreak], at position [i]. *)
Fixpoint wb_inner (arr : list bool) (i : nat) (lengths : list nat)
    : option (list bool) :=
  match lengths with
  | [] => Some arr
  | j :: lengths' =>
      if decide (j = i + 1) then
        arr ← py_set arr i true;
        b ← py_get arr (Z.of_nat i);
        if b : bool then Some arr else wb_inner arr i lengths'
      else if decide (i + 1 < j) then Some arr
      else
        a ← py_get arr (Z.of_nat i - Z.of_nat j);
        arr ← (if a : bool then py_set arr i true else Some arr);
        b ← py_get arr (Z.of_nat i);
        if b : bool then Some arr else wb_inner arr i lengths'
  end.

(** The [for i, lengths in enumerate(ac.searchLengths(s))] loop. *)
Fixpoint wb_loop (arr : list bool) (i : nat) (lens : list (list nat))
    : option (list bool) :=
  match lens with
  | [] => Some arr
  | lengths :: lens' => arr ← wb_inner arr i lengths; wb_loop arr (S i) lens'
  end.

Section WordBreak.
Context {A : Type} `{EqDecision A}.

(** [wordBreak]; [arr[-1]] raises [IndexError] on an empty [arr]. *)
Definition wordBreak (s : list A) (wordDict : list (list A)) : option bool :=
  ac ← AhoCorasick wordDict;
  lens ← searchLengths ac s;
  arr ← wb_loop (replicate (length s) false) 0 lens;
  py_get arr (-1).

(** [s] is a concatenation of words of [wordDict]. *)
Definition segmentable (wordDict : list (list A)) (s : list A) : Prop :=
  ∃ ws, concat ws = s ∧ Forall (λ w, w ∈ wordDict) ws.
End WordBreak.

(** ** The Z array, by definition *)

Section LongestCommonPrefix.
Context {A : Type} `{EqDecision A}.

(** The length of the longest common prefix of two sequences. *)
Fixpoint lcp (x y : list A) : nat :=
  match x, y with
  | a :: x', b :: y' => if decide (a = b) then S (lcp x' y') else 0
  | _, _ => 0
  end.

(** Entry [i] of the Z array of [s]: how far [s[i:]] agrees with [s]. *)
Definition z_entry (s : list A) (i : nat) : nat := lcp s (drop i s).

(** The window [[lft, rgt)] of [s] repeats the start of [s]. *)
Definition z_box (s : list A) (lft rgt : nat) : Prop :=
  ∀ j, lft ≤ j < rgt → s !! j = s !! (j - lft).
End LongestCommonPrefix.

(** ** What addBoldTag puts in bold *)

(** [x] lies in one of the ranges [[a, b)]. *)
Definition covered (rs : list (Z * Z)) (x : Z) : Prop :=
  ∃ r, r ∈ rs ∧ (r.1 ≤ x < r.2)%Z.

(** The ranges that the elements of the heap have still to bring in. *)
Definition pending (rngs : list (list (Z * Z))) (heap : list entry) : list (Z * Z) :=
  concat ((λ e : entry, drop (Z.to_nat e.1.2) (default [] (rngs !! Z.to_nat e.2))) <$> heap).

(** Position [x] of the text lies in one of the spans. *)
Definition in_spans (sp : list (nat * nat)) (x : nat) : Prop :=
  ∃ u, u ∈ sp ∧ u.1 ≤ x < u.2.

(** Position [x] of the text lies in an occurrence of one of the words. *)
Definition in_match {A : Type} `{EqDecision A} (words : list (list A)) (s : list A)
    (x : nat) : Prop :=
  ∃ w j, w ∈ words ∧ occurs_at w s j ∧ j ≤ x < j + length w.

(** ** The longest palindromic substrings *)

(** [for i, l in enumerate(s): s2[(i << 1) + 1] = l], from index [i] on;
    an assignment out of range raises [IndexError]. *)
Fixpoint fill_odd (s : list ascii) (i : nat) (s2 : list ascii) : option (list ascii) :=
  match s with
  | [] => Some s2
  | l :: s' =>
      s2 ← py_set s2 (Z.to_nat (Z.shiftl (Z.of_nat i) 1 + 1)) l;
      fill_odd s' (S i) s2
  end.

(** [s2]: the characters of [s] with ["#"] before, between and after. *)
Definition hashed (s : list ascii) : option (list ascii) :=
  let n := Z.of_nat (length s) in
  fill_odd s 0 (replicate (Z.to_nat (Z.shiftl n 1 + 1)) "#"%char).

(** [for i, num in enumerate(manacher_arr)], from index [i] on: the
    largest entry and the indices that hold it. *)
Fixpoint longest_loop (arr : list Z) (i : nat) (mx_len : Z) (mx_i : list nat)
    : Z * list nat :=
  match arr with
  | [] => (mx_len, mx_i)
  | num :: arr' =>
      if decide (num < mx_len)%Z then longest_loop arr' (S i) mx_len mx_i
      else if decide (num > mx_len)%Z then longest_loop arr' (S i) num [i]
      else longest_loop arr' (S i) mx_len (mx_i ++ [i])
  end.

(** [longestPalindromicSubstrings] *)
Definition longestPalindromicSubstrings (s : list ascii) : option (list (list ascii)) :=
  if decide (s = []) then Some [[]]
  else
    s2 ← hashed s;
    manacher_arr ← manacherAlgorithm s2;
    let '(mx_len, mx_i) := longest_loop manacher_arr 0 (-1) [] in
    Some ((λ i : nat,
             let j1 := Z.shiftr (Z.of_nat i - mx_len) 1 in
             py_slice s j1 (j1 + mx_len)) <$> mx_i).

(** [longestPalindrome]: the first of [longestPalindromicSubstrings(s)]. *)
Definition longestPalindrome (s : list ascii) : option (list ascii) :=
  res ← longestPalindromicSubstrings s; py_get res 0.

(** The [L] elements of [s] from index [j] on are a palindrome. *)
Definition pal_window {A : Type} (s : list A) (j L : nat) : Prop :=
  j + L ≤ length s ∧ reverse (take L (drop j s)) = take L (drop j s).

#[global] Instance pal_window_dec {A : Type} `{EqDecision A} (s : list A) j L :
  Decision (pal_window s j L).
Proof. unfold pal_window. apply _. Defined.

(** [L] is the length of the longest palindromes within [s]. *)
Definition longest_pal {A : Type} (s : list A) (L : nat) : Prop :=
  (∃ j, pal_window s j L) ∧ ∀ j L', pal_window s j L' → L' ≤ L.

(** The palindromes of length [L] within [s], from left to right. *)
Definition pal_windows {A : Type} `{EqDecision A} (s : list A) (L : nat) : list (list A) :=
  (λ j, take L (drop j s)) <$>
    filter (λ j, pal_window s j L) (seq 0 (S (length s - L))).


(** ** wordBreak2 *)

(** The position that the index [i] has in a sequence of length [n],
    counted from the start; [None] out of range. *)
Definition py_index (n : nat) (i : Z) : option nat :=
  if (i <? 0)%Z then
    if (i <? - Z.of_nat n)%Z then None else Some (Z.to_nat (Z.of_nat n + i))
  else if decide (Z.to_nat i < n) then Some (Z.to_nat i) else None.

(** [" ".join([s2, w])] *)
Definition join2 (s2 w : list ascii) : list ascii := s2 ++ " "%char :: w.

(** The body of [for j in inds], at position [i]. Where [dp[i - len(w)]]
    is the list [dp[i]] itself and holds something, the inner [for] runs
    over the list it appends to and does not end: [None] stands for that
    as well as for an exception. *)
Definition wb2_word (wordDict : list (list ascii)) (dp : list (list (list ascii)))
    (i j : nat) : option (list (list (list ascii))) :=
  w ← wordDict !! j;
  if decide (length w = i + 1) then
    cur ← dp !! i;
    py_set dp i (cur ++ [w])
  else
    k ← py_index (length dp) (Z.of_nat i - Z.of_nat (length w));
    src ← dp !! k;
    match src with
    | [] => Some dp
    | _ :: _ =>
        if decide (k = i) then None
        else
          cur ← dp !! i;
          py_set dp i (cur ++ ((λ s2, join2 s2 w) <$> src))
    end.

(** [for j in inds] *)
Fixpoint wb2_inner (wordDict : list (list ascii)) (dp : list (list (list ascii)))
    (i : nat) (inds : list nat) : option (list (list (list ascii))) :=
  match inds with
  | [] => Some dp
  | j :: inds' => dp ← wb2_word wordDict dp i j; wb2_inner wordDict dp i inds'
  end.

(** [for (i, inds) in ac.searchEndIndices(s)] *)
Fixpoint wb2_loop (wordDict : list (list ascii)) (dp : list (list (list ascii)))
    (ends : list (nat * list nat)) : option (list (list (list ascii))) :=
  match ends with
  | [] => Some dp
  | (i, inds) :: ends' => dp ← wb2_inner wordDict dp i inds; wb2_loop wordDict dp ends'
  end.

(** [wordBreak2]; [dp[-1]] raises [IndexError] on an empty [dp]. *)
Definition wordBreak2 (s : list ascii) (wordDict : list (list ascii))
    : option (list (list ascii)) :=
  ac ← AhoCorasick wordDict;
  ends ← searchEndIndices ac s;
  dp ← wb2_loop wordDict (replicate (length s) []) ends;
  py_get dp (-1).

(** [" ".join(ws)] *)
Definition sentence (ws : list (list ascii)) : list ascii :=
  match ws with
  | [] => []
  | w :: ws' => foldl join2 w ws'
  end.

(** [t] is a way of writing [s] as words of [wordDict], with a space
    between one word and the next. *)
Definition sentence_of (wordDict : list (list ascii)) (s t : list ascii) : Prop :=
  ∃ ws, Forall (λ w, w ∈ wordDict) ws ∧ concat ws = s ∧ t = sentence ws.

(** * Part II: properties *)

(** ** Suffixes *)

Section SuffixFacts.
Context {A : Type}.
Implicit Types x y z : list A.

Lemma suffix_of_le x y z :
  x `suffix_of` z → y `suffix_of` z → length x ≤ length y → x `suffix_of` y.
Proof.
  intros Hx Hy Hlen.
  destruct (suffix_weak_total _ _ _ Hx Hy) as [?|Hyx]; [done|].
  by rewrite (suffix_length_eq _ _ Hyx Hlen).
Qed.

Lemma suffix_snoc_iff x y (a b : A) :
  x ++ [a] `suffix_of` y ++ [b] ↔ a = b ∧ x `suffix_of` y.
Proof.
  split.
  - intros Hs. split; [by eapply suffix_snoc_inv_1|by eapply suffix_snoc_inv_2].
  - intros [-> Hs]. by apply suffix_snoc.
Qed.

Lemma suffix_snoc_nonempty x y (a : A) :
  x ≠ [] → x `suffix_of` y ++ [a] → ∃ x', x = x' ++ [a] ∧ x' `suffix_of` y.
Proof.
  intros Hne Hs.
  destruct (decide (x = [])) as [|_]; [done|].
  destruct x as [|c x0] using rev_ind; [done|].
  apply suffix_snoc_iff in Hs as [-> Hs]. eauto.
Qed.
End SuffixFacts.

(** ** Filtering a range *)

Section FilterSeq.
Context (P : nat → Prop) `{!∀ e, Decision (P e)}.

Lemma filter_seq_ext (R : nat → Prop) `{!∀ e, Decision (R e)} i n :
  (∀ e, i ≤ e < i + n → (P e ↔ R e)) → filter P (seq i n) = filter R (seq i n).
Proof.
  revert i. induction n as [|n IH]; intros i Hiff; [done|].
  cbn [seq]. rewrite !filter_cons.
  rewrite IH by (intros e He; apply Hiff; lia).
  destruct (decide (P i)) as [HP|HP], (decide (R i)) as [HR|HR]; try done;
    exfalso; apply (Hiff i) in HP || apply (Hiff i) in HR; done || lia.
Qed.

Lemma filter_seq_nil i n :
  (∀ e, i ≤ e < i + n → ¬ P e) → filter P (seq i n) = [].
Proof.
  revert i. induction n as [|n IH]; intros i Hno; [done|].
  cbn [seq]. rewrite filter_cons_False by (apply Hno; lia).
  apply IH. intros e He. apply Hno. lia.
Qed.

Lemma filter_seq_add d i n :
  filter P (seq (d + i) n) = Nat.add d <$> filter (λ e, P (d + e)) (seq i n).
Proof.
  revert i. induction n as [|n IH]; intros i; [done|].
  cbn [seq]. rewrite !filter_cons, <-Nat.add_succ_r, IH.
  by destruct (decide (P (d + i))).
Qed.

End FilterSeq.

(** Matches reported by their last index [e] and matches reported by their
    first index [e - d] are the same list. *)
Lemma filter_seq_shift (P Q : nat → Prop)
    `{!∀ e, Decision (P e), !∀ e, Decision (Q e)} d n :
  (∀ e, e < n → (P e ↔ d ≤ e ∧ Q (e - d))) →
  (∀ t, t < n → Q t → t + d < n) →
  (λ e, Z.of_nat e - Z.of_nat d)%Z <$> filter P (seq 0 n) =
  Z.of_nat <$> filter Q (seq 0 n).
Proof.
  intros HPQ HQ. destruct (decide (d ≤ n)) as [Hdn|Hdn].
  - assert (∃ n', n = d + n') as [n' ->] by (exists (n - d); lia).
    trans (Z.of_nat <$> filter Q (seq 0 n')).
    + rewrite seq_app, filter_app. simpl.
      rewrite (filter_seq_nil P 0 d) by (intros e He [? _]%HPQ; lia).
      rewrite app_nil_l.
      replace (seq d n') with (seq (d + 0) n') by (f_equal; lia).
      rewrite filter_seq_add, (filter_seq_ext _ Q 0 n').
      * rewrite <-list_fmap_compose. apply list_fmap_ext. intros _ e _. simpl. lia.
      * intros e He. rewrite HPQ by lia. replace (d + e - d) with e by lia.
        split; [by intros []|]. intros; split; [lia|done].
    + rewrite (Nat.add_comm d n'), seq_app, filter_app. simpl.
      rewrite (filter_seq_nil Q n' d) by (intros e He ?%HQ; lia).
      by rewrite app_nil_r.
  - rewrite (filter_seq_nil P 0 n) by (intros e He [? _]%HPQ; lia).
    rewrite (filter_seq_nil Q 0 n); [done|]. intros e He ?%HQ; lia.
Qed.

(** ** Knuth-Morris-Pratt *)

Section KMPProofs.
Context {A : Type} `{EqDecision A}.
Implicit Types p s x : list A.
Implicit Types l : A.

Lemma pre_suf_0 p x : pre_suf p 0 x.
Proof. split; [lia|]. rewrite take_0. apply suffix_nil. Qed.

Lemma pre_suf_refl p k : k ≤ length p → pre_suf p k (take k p).
Proof. by split. Qed.

Lemma pre_suf_trans p k j x :
  pre_suf p k (take j p) → pre_suf p j x → pre_suf p k x.
Proof. intros [? ?] [? ?]. split; [done|]. by etrans. Qed.

Lemma pre_suf_le p k j x :
  pre_suf p k x → pre_suf p j x → k ≤ j → pre_suf p k (take j p).
Proof.
  intros [Hk Hkx] [Hj Hjx] Hle. split; [done|].
  eapply suffix_of_le; [done..|]. rewrite !length_take. lia.
Qed.

Lemma pre_suf_snoc p k x l :
  pre_suf p (S k) (x ++ [l]) ↔ pre_suf p k x ∧ p !! k = Some l.
Proof.
  unfold pre_suf. split.
  - intros [Hk Hs].
    destruct (lookup_lt_is_Some_2 p k) as [c Hc]; [lia|].
    rewrite (take_S_r _ _ _ Hc) in Hs.
    apply suffix_snoc_iff in Hs as [-> Hs]. split_and!; [lia|done..].
  - intros [[Hk Hs] Hl]. split; [by apply lookup_lt_Some in Hl|].
    rewrite (take_S_r _ _ _ Hl). by apply suffix_snoc.
Qed.

(** The [while] loop walks down the borders of [p[:j]] and stops at the
    longest one that [l] extends. *)
Lemma kmp_while_spec p lps l fuel j :
  lps_ok p lps → j < length p → j ≤ length lps → j < fuel →
  ∃ fell k, kmp_while fuel p lps l j = Some (fell, k) ∧
    if fell : bool then
      k ≤ j ∧ pre_suf p k (take j p) ∧ p !! k = Some l ∧
      ∀ k', k' ≤ j → pre_suf p k' (take j p) → p !! k' = Some l → k' ≤ k
    else
      k = 0 ∧ ∀ k', k' ≤ j → pre_suf p k' (take j p) → p !! k' ≠ Some l.
Proof.
  intros Hlps. revert j. induction fuel as [|fuel IH]; intros j Hj Hjl Hf; [lia|].
  destruct (lookup_lt_is_Some_2 p j Hj) as [c Hc]. simpl. rewrite Hc. simpl.
  destruct (decide (l ≠ c)) as [Hne|Heq].
  - destruct (decide (j = 0)) as [->|Hj0].
    + exists false, 0. split; [done|]. split; [done|].
      intros k' Hk' _ Hl. assert (k' = 0) as -> by lia. congruence.
    + destruct (Hlps (j - 1)) as (j' & Hj' & Hlt & Hps & Hmax); [lia|].
      replace (S (j - 1)) with j in * by lia.
      rewrite Hj'. simpl.
      destruct (IH j') as (fell & k & -> & Hres); [lia..|].
      exists fell, k. split; [done|].
      assert (∀ k', k' ≤ j → pre_suf p k' (take j p) → p !! k' = Some l →
                k' ≤ j' ∧ pre_suf p k' (take j' p)) as Hdown.
      { intros k' Hk' Hps' Hl'.
        assert (k' ≠ j) by (intros ->; congruence).
        assert (k' ≤ j') by (apply Hmax; [lia|done]).
        split; [done|]. by eapply pre_suf_le. }
      destruct fell.
      * destruct Hres as (Hk & Hpk & Hlk & Hbest). split_and!; [lia| |done|].
        -- by eapply pre_suf_trans.
        -- intros k' Hk' Hps' Hl'. destruct (Hdown k') as [? ?]; [done..|].
           by apply Hbest.
      * destruct Hres as (-> & Hnone). split; [done|].
        intros k' Hk' Hps' Hl'. destruct (Hdown k') as [? ?]; [done..|].
        by eapply Hnone.
  - apply dec_stable in Heq as ->. exists true, j. split; [done|].
    split_and!; [done|by apply pre_suf_refl; lia|done|auto].
Qed.

(** One step of either outer loop: from the longest border below [b] of the
    text read so far to the longest one below [S b] after reading [l]. *)
Lemma kmp_step_spec p lps l b x j :
  lps_ok p lps → max_ps p b x j → j < length p → j ≤ length lps →
  ∃ fell k, kmp_while (S j) p lps l j = Some (fell, k) ∧
    (fell = false → k = 0) ∧
    max_ps p (S b) (x ++ [l]) (if fell : bool then S k else k).
Proof.
  intros Hlps (Hjb & Hjx & Hmax) Hj Hjl.
  destruct (kmp_while_spec p lps l (S j) j) as (fell & k & Hw & Hres); [done..|lia|].
  exists fell, k. split; [done|].
  split; [by intros ->; destruct Hres|].
  assert (∀ k', S k' < S b → pre_suf p (S k') (x ++ [l]) →
            k' ≤ j ∧ pre_suf p k' (take j p) ∧ p !! k' = Some l) as Hdown.
  { intros k' Hk' Hps. apply pre_suf_snoc in Hps as [Hps Hl].
    assert (k' ≤ j) by (apply Hmax; [lia|done]).
    split_and!; [done| |done]. by eapply pre_suf_le. }
  destruct fell.
  - destruct Hres as (Hk & Hpk & Hlk & Hbest). split_and!; [lia| |].
    + apply pre_suf_snoc. split; [|done]. by eapply pre_suf_trans.
    + intros [|k'] Hk' Hps; [lia|].
      destruct (Hdown k') as (? & ? & ?); [done..|].
      assert (k' ≤ k) by by apply Hbest. lia.
  - destruct Hres as (-> & Hnone). split_and!; [lia|apply pre_suf_0|].
    intros [|k'] Hk' Hps; [lia|].
    destruct (Hdown k') as (? & ? & ?); [done..|]. by destruct (Hnone k').
Qed.

Lemma lps_ok_last p lps j :
  lps_ok p lps → list.last lps = Some j →
  max_ps p (length lps) (take (length lps) p) j.
Proof.
  intros Hlps Hlast. rewrite last_lookup in Hlast.
  destruct lps as [|j0 lps0] eqn:E; [done|]. rewrite <-E in *.
  assert (length lps = S (pred (length lps))) as Hlen by (rewrite E; simpl; lia).
  destruct (Hlps (pred (length lps))) as (k & Hk & Hmax); [lia|].
  rewrite <-Hlen in Hmax. congruence.
Qed.

Lemma lps_ok_snoc p lps j :
  lps_ok p lps → max_ps p (S (length lps)) (take (S (length lps)) p) j →
  lps_ok p (lps ++ [j]).
Proof.
  intros Hlps Hj i Hi. rewrite length_app in Hi. simpl in Hi.
  destruct (decide (i = length lps)) as [->|Hne].
  - exists j. split; [|done]. by rewrite lookup_app_r, Nat.sub_diag by lia.
  - destruct (Hlps i) as (k & Hk & Hmax); [lia|].
    exists k. split; [|done]. by rewrite lookup_app_l by lia.
Qed.

Lemma lps_loop_spec p rest lps j :
  drop (length lps) p = rest → length lps ≤ length p →
  lps_ok p lps → list.last lps = Some j →
  ∃ lps', lps_loop p rest lps j = Some lps' ∧
          length lps' = length p ∧ lps_ok p lps'.
Proof.
  revert lps j. induction rest as [|l rest IH]; intros lps j Hdrop Hlen Hlps Hlast.
  - exists lps. split_and!; [done| |done].
    apply (f_equal length) in Hdrop. rewrite length_drop in Hdrop. simpl in Hdrop. lia.
  - assert (p !! length lps = Some l) as Hl.
    { rewrite <-(Nat.add_0_r (length lps)), <-lookup_drop, Hdrop. done. }
    pose proof (lookup_lt_Some _ _ _ Hl) as Hlt.
    pose proof (lps_ok_last _ _ _ Hlps Hlast) as Hmax.
    destruct (kmp_step_spec p lps l _ _ _ Hlps Hmax) as (fell & k & Hw & _ & Hmax');
      [destruct Hmax; lia..|].
    cbn [lps_loop]. rewrite Hw. simpl.
    rewrite <-(take_S_r _ _ _ Hl) in Hmax'.
    apply IH.
    + rewrite length_app. simpl. rewrite Nat.add_1_r.
      erewrite drop_S in Hdrop by done. congruence.
    + rewrite length_app. simpl. lia.
    + by apply lps_ok_snoc.
    + by rewrite last_snoc.
Qed.

Lemma constructLPS_spec p :
  p ≠ [] → ∃ lps, constructLPS p = Some lps ∧ length lps = length p ∧ lps_ok p lps.
Proof.
  destruct p as [|a rest]; [done|]. intros _. unfold constructLPS.
  apply lps_loop_spec; [done|simpl; lia| |done].
  intros i Hi. simpl in Hi. assert (i = 0) as -> by lia.
  exists 0. split; [done|]. split_and!; [lia|apply pre_suf_0|lia].
Qed.

(** The scan yields [e - m + 1] for exactly the end positions [e] at which
    the pattern is a suffix of the text read so far. *)
Lemma kmp_scan_spec p lps s x j :
  0 < length p → length lps = length p → lps_ok p lps →
  max_ps p (length p) x j →
  kmp_scan p lps s (length x) j =
    Some ((λ e, Z.of_nat e - Z.of_nat (length p) + 1)%Z <$>
          filter (λ e, p `suffix_of` take (S e) (x ++ s)) (seq (length x) (length s))).
Proof.
  intros Hm Hlen Hlps. revert x j.
  induction s as [|l s IH]; intros x j Hmax; [done|].
  destruct (kmp_step_spec p lps l _ _ _ Hlps Hmax) as (fell & k & Hw & Hk0 & Hmax');
    [destruct Hmax; lia..|].
  assert (take (S (length x)) (x ++ l :: s) = x ++ [l]) as Htake.
  { rewrite (cons_middle l x s), (assoc_L (++)).
    rewrite take_app_length'; [done|]. rewrite length_app. simpl. lia. }
  assert (∀ j', max_ps p (length p) (x ++ [l]) j' →
     kmp_scan p lps s (S (length x)) j' =
       Some ((λ e, Z.of_nat e - Z.of_nat (length p) + 1)%Z <$>
             filter (λ e, p `suffix_of` take (S e) (x ++ l :: s))
                    (seq (S (length x)) (length s)))) as Hnext.
  { intros j' Hj'. specialize (IH (x ++ [l]) j' Hj').
    rewrite length_app, Nat.add_1_r, <-(assoc_L (++)) in IH. exact IH. }
  destruct Hmax' as (Hlt & Hps & Hbest).
  assert (p `suffix_of` x ++ [l] ↔ (if fell then S k else k) = length p) as Hiff.
  { split.
    - intros Hsuf. assert (length p ≤ if fell then S k else k); [|lia].
      apply Hbest; [lia|]. split; [done|]. by rewrite take_ge.
    - intros Heq. destruct Hps as [_ Hps]. by rewrite Heq, take_ge in Hps. }
  cbn [kmp_scan length seq]. rewrite Hw. cbn [mbind option_bind].
  rewrite filter_cons, Htake.
  destruct fell.
  - destruct (decide (S k ≠ length p)) as [Hne|Heq].
    + rewrite decide_False by (rewrite Hiff; done).
      apply Hnext. split_and!; [lia|done|]. intros k' Hk'. apply Hbest. lia.
    + apply dec_stable in Heq. rewrite decide_True by (by apply Hiff).
      destruct (lps_ok_last p lps) with (j := default 0 (list.last lps))
        as (Hj3 & Hps3 & Hbest3); [done| |].
      { rewrite last_lookup. destruct (lookup_lt_is_Some_2 lps (pred (length lps))) as [? ->];
          [lia|done]. }
      destruct (list.last lps) as [j3|] eqn:Hlast;
        [|rewrite last_lookup in Hlast; apply lookup_ge_None in Hlast; lia].
      simpl in *. rewrite Hlen, take_ge in * by lia.
      assert (p `suffix_of` x ++ [l]) as Hsuf by by apply Hiff.
      rewrite Hnext; [done|]. split_and!; [done| |].
      * destruct Hps3 as [? ?]. split; [done|]. by etrans.
      * intros k' Hk' Hps'. apply Hbest3; [done|].
        destruct Hps' as [? Hs']. split; [done|].
        eapply suffix_of_le; [done..|]. rewrite length_take. lia.
  - rewrite Hk0 in * by done. rewrite decide_False by (rewrite Hiff; lia).
    apply Hnext. split_and!; [lia|done|]. intros k' Hk'. apply Hbest. lia.
Qed.

Lemma suffix_take_occurs p s e :
  e < length s →
  p `suffix_of` take (S e) s ↔
  length p - 1 ≤ e ∧ occurs_at p s (e - (length p - 1)) ∧ 0 < length p
  ∨ p = [].
Proof.
  intros He. destruct (decide (p = [])) as [->|Hne].
  { split; [by right|]. intros _. apply suffix_nil. }
  assert (0 < length p) by (destruct p; [done|simpl; lia]).
  unfold occurs_at. split.
  - intros [k Hk]. left.
    assert (S e = length k + length p) as Hlen.
    { rewrite <-length_app, <-Hk, length_take. lia. }
    split_and!; [lia| |lia].
    replace (e - (length p - 1)) with (length k) by lia.
    rewrite <-(take_drop (S e) s), Hk, <-(assoc_L (++)), drop_app_length.
    by rewrite take_app_length.
  - intros [(Hle & Hocc & _)|?]; [|done].
    exists (take (e - (length p - 1)) s).
    rewrite <-Hocc at 2. rewrite take_take_drop. f_equal. lia.
Qed.

(** [KnuthMorrisPratt(p).matchStartGenerator(s)] returns, and yields the
    brute-force list of match positions. *)
Lemma kmp_brute_force p s :
  matchStartGenerator p s = Some (Z.of_nat <$> brute_force p s).
Proof.
  unfold matchStartGenerator, brute_force.
  destruct (decide (length p = 0)) as [Hp0|Hp0].
  { apply nil_length_inv in Hp0 as ->. do 2 f_equal.
    symmetry. rewrite <-(filter_seq_ext (λ _, True)); [|done].
    induction (seq 0 (length s)) as [|a r IHr]; [done|].
    by rewrite filter_cons_True, IHr. }
  destruct (decide (length s < length p)) as [Hlt|Hge].
  { rewrite filter_seq_nil; [done|]. intros e He Hocc.
    apply (f_equal length) in Hocc. rewrite length_take, length_drop in Hocc. lia. }
  destruct (constructLPS_spec p) as (lps & -> & Hlen & Hlps).
  { by intros ->. }
  pose proof (kmp_scan_spec p lps s [] 0) as Hscan.
  simpl in *. rewrite Hscan; [|lia|done|done|].
  - f_equal.
    rewrite <-(filter_seq_shift (λ e, p `suffix_of` take (S e) s)
                 (occurs_at p s) (length p - 1)).
    + apply list_fmap_ext. intros _ e _. lia.
    + intros e He. rewrite suffix_take_occurs by done.
      split; [intros [(? & ? & ?)| ->]; done|]. intros [? ?]. left. split_and!; [done..|lia].
    + intros t Ht Hocc. apply (f_equal length) in Hocc.
      rewrite length_take, length_drop in Hocc. lia.
  - split_and!; [lia|apply pre_suf_0|]. intros k Hk [_ Hs].
    apply suffix_nil_inv in Hs. apply (f_equal length) in Hs.
    rewrite length_take in Hs. simpl in Hs. lia.
Qed.
End KMPProofs.

(** ** Python dicts and sequences *)

Section DictFacts.
Context {K V : Type} `{EqDecision K}.
Implicit Types d : list (K * V).

Lemma dict_get_set_eq d k v : dict_get (dict_set d k v) k = Some v.
Proof.
  induction d as [|[k' v'] d IH]; simpl; [by rewrite decide_True|].
  destruct (decide (k = k')) as [->|Hne]; simpl.
  - by rewrite decide_True.
  - by rewrite decide_False.
Qed.

Lemma dict_get_set_ne d k k' v : k ≠ k' → dict_get (dict_set d k v) k' = dict_get d k'.
Proof.
  intros Hne. induction d as [|[k0 v0] d IH]; simpl; [by rewrite decide_False|].
  destruct (decide (k = k0)) as [->|Hne0]; simpl.
  - by rewrite !decide_False by done.
  - by rewrite IH.
Qed.

Lemma dict_get_None d k : dict_get d k = None ↔ k ∉ d.*1.
Proof.
  induction d as [|[k0 v0] d IH]; simpl.
  - split; [intros _; apply not_elem_of_nil|done].
  - rewrite not_elem_of_cons. destruct (decide (k = k0)) as [->|Hne]; [naive_solver|].
    rewrite IH. naive_solver.
Qed.

Lemma dict_get_Some_elem d k v : dict_get d k = Some v → (k, v) ∈ d.
Proof.
  induction d as [|[k0 v0] d IH]; simpl; [done|].
  destruct (decide (k = k0)) as [->|Hne].
  - intros [= ->]. left.
  - intros Hd. right. by apply IH.
Qed.

Lemma dict_get_elem d k v : NoDup d.*1 → (k, v) ∈ d → dict_get d k = Some v.
Proof.
  induction d as [|[k0 v0] d IH]; simpl; [by intros _ ?%elem_of_nil|].
  intros [Hk0 Hnd]%NoDup_cons [[= -> ->]|Hin]%elem_of_cons.
  - by rewrite decide_True.
  - rewrite decide_False; [by apply IH|].
    intros ->. apply Hk0. apply list_elem_of_fmap. by exists (k0, v).
Qed.

Lemma dict_set_fresh d k v : dict_get d k = None → dict_set d k v = d ++ [(k, v)].
Proof.
  induction d as [|[k0 v0] d IH]; simpl; [done|].
  destruct (decide (k = k0)); [done|]. intros Hd. by rewrite IH.
Qed.

Lemma dict_set_keys d k v :
  NoDup d.*1 → NoDup (dict_set d k v).*1.
Proof.
  destruct (dict_get d k) as [v0|] eqn:Hget.
  - intros Hnd. replace (dict_set d k v).*1 with d.*1; [done|].
    clear Hnd. induction d as [|[k0 v1] d IH]; simpl in *; [done|].
    destruct (decide (k = k0)) as [->|Hne]; simpl; [done|]. f_equal. by apply IH.
  - rewrite dict_set_fresh, fmap_app by done. simpl. intros Hnd.
    apply NoDup_app. split_and!; [done| |apply NoDup_singleton].
    intros k' Hk' ->%list_elem_of_singleton. by apply dict_get_None in Hget.
Qed.
End DictFacts.

Lemma py_get_nat {X} (s : list X) (j : nat) : py_get s (Z.of_nat j) = s !! j.
Proof.
  unfold py_get. destruct (Z.ltb_spec (Z.of_nat j) 0); [lia|]. by rewrite Nat2Z.id.
Qed.

(** ** Building the trie *)

Section TrieProofs.
Context {A : Type} `{EqDecision A}.
Implicit Types gt : list (list (A * nat)).
Implicit Types paths : list (list A).
Implicit Types ac : automaton A.
Implicit Types p w x : list A.
Implicit Types l : A.

Lemma trie_inv_lt gt paths j p :
  trie_inv gt paths → paths !! j = Some p → j < length gt.
Proof. intros Hti Hp. rewrite (ti_len _ _ Hti). by eapply lookup_lt_Some. Qed.

Lemma trie_inv_goto gt paths j p :
  trie_inv gt paths → paths !! j = Some p → ∃ g, gt !! j = Some g.
Proof. intros Hti Hp. apply lookup_lt_is_Some_2. by eapply trie_inv_lt. Qed.

Lemma trie_inv_inj gt paths j j' p :
  trie_inv gt paths → paths !! j = Some p → paths !! j' = Some p → j = j'.
Proof. intros Hti. apply NoDup_lookup, Hti. Qed.

Lemma trie_inv_no_edge gt paths j p g l c :
  trie_inv gt paths → paths !! j = Some p → gt !! j = Some g →
  dict_get g l = None → paths !! c ≠ Some (p ++ [l]).
Proof.
  intros Hti Hp Hg Hnone Hc.
  destruct (ti_edge_inv _ _ Hti _ _ _ _ Hp Hc) as (g' & Hg' & Hget). congruence.
Qed.

Lemma snoc_ne_self p l : p ≠ p ++ [l].
Proof. intros Heq%(f_equal length). rewrite length_app in Heq. simpl in Heq. lia. Qed.

Lemma trie_inv_add_node gt paths j p g l :
  trie_inv gt paths → paths !! j = Some p → gt !! j = Some g →
  dict_get g l = None →
  trie_inv (<[j := dict_set g l (length gt)]> gt ++ [[]]) (paths ++ [p ++ [l]]).
Proof.
  intros Hti Hp Hg Hnone.
  pose proof (ti_len _ _ Hti) as Hlen.
  pose proof (lookup_lt_Some _ _ _ Hp) as Hj.
  assert (∀ c, paths !! c ≠ Some (p ++ [l])) as Hfresh.
  { intros c. by eapply trie_inv_no_edge. }
  assert (∀ j', j' < length paths →
     (<[j := dict_set g l (length gt)]> gt ++ [[]]) !! j' =
     if decide (j' = j) then Some (dict_set g l (length gt)) else gt !! j') as Hlk.
  { intros j' Hj'. rewrite lookup_app_l by (rewrite length_insert; lia).
    destruct (decide (j' = j)) as [->|Hne].
    - apply list_lookup_insert_eq. lia.
    - by apply list_lookup_insert_ne. }
  assert (∀ j', length paths < j' → (paths ++ [p ++ [l]]) !! j' = None) as Hgt.
  { intros j' Hj'. apply lookup_ge_None. rewrite length_app. simpl. lia. }
  assert ((paths ++ [p ++ [l]]) !! length paths = Some (p ++ [l])) as Hnew.
  { by rewrite lookup_app_r, Nat.sub_diag by lia. }
  split.
  - rewrite !length_app, length_insert. simpl. lia.
  - rewrite lookup_app_l by lia. apply Hti.
  - apply NoDup_app. split_and!; [apply Hti| |apply NoDup_singleton].
    intros x [c Hc]%list_elem_of_lookup ->%list_elem_of_singleton. by eapply Hfresh.
  - intros j' g' Hg'. destruct (decide (j' < length paths)) as [Hlt|Hge].
    + rewrite Hlk in Hg' by done. destruct (decide (j' = j)) as [->|Hne].
      * injection Hg' as <-. apply dict_set_keys. by eapply ti_keys.
      * by eapply ti_keys.
    + rewrite lookup_app_r in Hg' by (rewrite length_insert; lia).
      apply list_lookup_singleton_Some in Hg' as [_ <-]. apply NoDup_nil_2.
  - intros j' g' l' c Hg' Hget. destruct (decide (j' < length paths)) as [Hlt|Hge].
    + rewrite Hlk in Hg' by done. destruct (decide (j' = j)) as [->|Hne].
      * injection Hg' as <-. exists p. split; [by rewrite lookup_app_l by lia|].
        destruct (decide (l = l')) as [->|Hl].
        -- rewrite dict_get_set_eq in Hget. injection Hget as <-. by rewrite Hlen.
        -- rewrite dict_get_set_ne in Hget by done.
           destruct (ti_edge _ _ Hti _ _ _ _ Hg Hget) as (p' & Hp' & Hc).
           rewrite lookup_app_l by (by eapply lookup_lt_Some). congruence.
      * destruct (ti_edge _ _ Hti _ _ _ _ Hg' Hget) as (p' & Hp' & Hc).
        exists p'. by rewrite !lookup_app_l by (by eapply lookup_lt_Some).
    + rewrite lookup_app_r in Hg' by (rewrite length_insert; lia).
      apply list_lookup_singleton_Some in Hg' as [_ <-]. done.
  - intros j' c p' l' Hp' Hc.
    destruct (lt_eq_lt_dec c (length paths)) as [[Hclt| ->]|Hcgt];
      [|rewrite Hnew in Hc|by rewrite Hgt in Hc].
    + rewrite lookup_app_l in Hc by done.
      destruct (lt_eq_lt_dec j' (length paths)) as [[Hjlt| ->]|Hjgt];
        [|rewrite Hnew in Hp'|by rewrite Hgt in Hp'].
      * rewrite lookup_app_l in Hp' by done.
        destruct (ti_edge_inv _ _ Hti _ _ _ _ Hp' Hc) as (g' & Hg' & Hget).
        rewrite Hlk by done. destruct (decide (j' = j)) as [->|Hne]; [|eauto].
        eexists. split; [done|]. rewrite dict_get_set_ne; [congruence|].
        intros ->. congruence.
      * injection Hp' as <-.
        destruct (ti_prefix _ _ Hti _ _ _ Hc) as (j0 & Hj0). by destruct (Hfresh j0).
    + injection Hc as Hc. apply app_inj_tail in Hc as [-> ->].
      destruct (lt_eq_lt_dec j' (length paths)) as [[Hjlt| ->]|Hjgt];
        [|rewrite Hnew in Hp'|by rewrite Hgt in Hp'].
      * rewrite lookup_app_l in Hp' by done.
        assert (j' = j) as -> by by eapply trie_inv_inj.
        rewrite Hlk, decide_True by done. eexists. split; [done|].
        by rewrite dict_get_set_eq, Hlen.
      * injection Hp' as Hp'. by destruct (snoc_ne_self p' l').
  - intros c p' l' Hc.
    destruct (lt_eq_lt_dec c (length paths)) as [[Hclt| ->]|Hcgt];
      [|rewrite Hnew in Hc|by rewrite Hgt in Hc].
    + rewrite lookup_app_l in Hc by done.
      destruct (ti_prefix _ _ Hti _ _ _ Hc) as (j0 & Hj0).
      exists j0. by rewrite lookup_app_l by (by eapply lookup_lt_Some).
    + injection Hc as Hc. apply app_inj_tail in Hc as [-> ->].
      exists j. by rewrite lookup_app_l by lia.
Qed.

Lemma trie_insert_spec ac paths w j p :
  trie_inv (goto ac) paths → paths !! j = Some p →
  ∃ ac' j' ext, trie_insert ac w j = Some (ac', j') ∧
    trie_inv (goto ac') (paths ++ ext) ∧ (paths ++ ext) !! j' = Some (p ++ w) ∧
    failure ac' = failure ac ++ replicate (length ext) 0%Z ∧
    out ac' = out ac ++ replicate (length ext) 0%Z ∧
    out_lens ac' = out_lens ac ++ replicate (length ext) 0%Z.
Proof.
  revert ac paths j p. induction w as [|l w IH]; intros ac paths j p Hti Hp.
  { exists ac, j, []. simpl. by rewrite !app_nil_r. }
  destruct (trie_inv_goto _ _ _ _ Hti Hp) as [g Hg].
  cbn [trie_insert]. rewrite Hg. cbn [mbind option_bind].
  destruct (dict_get g l) as [c|] eqn:Hget.
  - rewrite decide_False by done. cbn [mbind option_bind].
    rewrite Hg. cbn [mbind option_bind]. rewrite Hget. cbn [mbind option_bind].
    destruct (ti_edge _ _ Hti _ _ _ _ Hg Hget) as (p' & Hp' & Hc).
    assert (p' = p) as -> by congruence.
    destruct (IH ac paths c (p ++ [l]) Hti Hc) as (ac' & j' & ext & -> & ? & ? & ? & ? & ?).
    exists ac', j', ext. by rewrite <-(assoc_L (++)) in *.
  - rewrite decide_True by done. unfold add_node. rewrite Hg. cbn [mbind option_bind goto].
    pose proof (trie_inv_add_node _ _ _ _ _ _ Hti Hp Hg Hget) as Hti'.
    pose proof (ti_len _ _ Hti) as Hlen.
    pose proof (lookup_lt_Some _ _ _ Hp) as Hj.
    rewrite lookup_app_l, list_lookup_insert_eq by (rewrite ?length_insert; lia).
    cbn [mbind option_bind]. rewrite dict_get_set_eq. cbn [mbind option_bind].
    set (ac1 := Automaton _ _ _ _).
    destruct (IH ac1 (paths ++ [p ++ [l]]) (length (goto ac)) (p ++ [l]))
      as (ac' & j' & ext & -> & Hti2 & Hj' & Hf & Ho & Hol); [done| |].
    { by rewrite Hlen, lookup_app_r, Nat.sub_diag by lia. }
    exists ac', j', ((p ++ [l]) :: ext).
    rewrite <-!(assoc_L (++)) in *. simpl in *.
    rewrite <-!(assoc_L (++)) in Hf, Ho, Hol. done.
Qed.

Lemma ins_inv_init : ins_inv [] (@ac_init A) [[]].
Proof.
  split; simpl; try done.
  - split; simpl; try done.
    + apply NoDup_singleton.
    + intros j g [-> <-]%list_lookup_singleton_Some. apply NoDup_nil_2.
    + by intros j g l c [-> <-]%list_lookup_singleton_Some.
    + intros j c p l _ [_ Hc]%list_lookup_singleton_Some. by destruct p.
    + intros c p l [_ Hc]%list_lookup_singleton_Some. by destruct p.
  - intros w ?%elem_of_nil. done.
  - intros j o z [-> <-]%list_lookup_singleton_Some. rewrite Z.bits_0.
    split; [done|]. by intros (i & w & _ & ? & _).
  - intros j o z [-> <-]%list_lookup_singleton_Some. rewrite Z.bits_0.
    split; [done|]. by intros (w & _ & ?%elem_of_nil & _).
Qed.

(** Growing the trie leaves the bitsets of the old nodes alone and gives
    the new nodes empty ones. *)
Lemma ins_inv_grow done ac paths ac' ext :
  ins_inv done ac paths →
  trie_inv (goto ac') (paths ++ ext) →
  failure ac' = failure ac ++ replicate (length ext) 0%Z →
  out ac' = out ac ++ replicate (length ext) 0%Z →
  out_lens ac' = out_lens ac ++ replicate (length ext) 0%Z →
  ins_inv done ac' (paths ++ ext).
Proof.
  intros Hii Hti Hf Ho Hol.
  assert (0 < length paths) as Hpos.
  { eapply Nat.le_lt_trans; [apply Nat.le_0_l|]. eapply lookup_lt_Some, ti_root, Hii. }
  assert (∀ w j, w ∈ done → (paths ++ ext) !! j = Some w → paths !! j = Some w) as Hold.
  { intros w j Hw Hj. apply (ii_words _ _ _ Hii), list_elem_of_lookup in Hw as [j0 Hj0].
    assert (j = j0) as ->; [|done].
    eapply (NoDup_lookup (paths ++ ext)); [apply Hti|done|].
    by apply lookup_app_l_Some. }
  split.
  - done.
  - rewrite Hf, (ii_failure _ _ _ Hii), length_app. simpl. f_equal.
    rewrite <-replicate_add. f_equal. lia.
  - rewrite Ho, !length_app, length_replicate, (ii_out_len _ _ _ Hii). done.
  - rewrite Hol, !length_app, length_replicate, (ii_lens_len _ _ _ Hii). done.
  - intros w Hw. apply elem_of_app. left. by apply Hii.
  - intros j o z Hj. rewrite Ho in Hj. apply lookup_app_Some in Hj as [Hj|[Hge Hj]].
    + rewrite (ii_out _ _ _ Hii _ _ z Hj).
      pose proof (lookup_lt_Some _ _ _ Hj) as Hlt. rewrite (ii_out_len _ _ _ Hii) in Hlt.
      by rewrite lookup_app_l by done.
    + apply lookup_replicate in Hj as [-> _]. rewrite Z.bits_0.
      split; [done|]. intros (i & w & _ & Hw & Hp).
      apply Hold in Hp; [|by eapply list_elem_of_lookup_2].
      apply lookup_lt_Some in Hp. rewrite (ii_out_len _ _ _ Hii) in Hge. lia.
  - intros j o z Hj. rewrite Hol in Hj. apply lookup_app_Some in Hj as [Hj|[Hge Hj]].
    + rewrite (ii_lens _ _ _ Hii _ _ z Hj).
      pose proof (lookup_lt_Some _ _ _ Hj) as Hlt. rewrite (ii_lens_len _ _ _ Hii) in Hlt.
      by rewrite lookup_app_l by done.
    + apply lookup_replicate in Hj as [-> _]. rewrite Z.bits_0.
      split; [done|]. intros (w & _ & Hw & Hp).
      apply Hold in Hp; [|done].
      apply lookup_lt_Some in Hp. rewrite (ii_lens_len _ _ _ Hii) in Hge. lia.
Qed.

Lemma testbit_set_bit (o : Z) (i : nat) (z : Z) :
  Z.testbit (Z.lor o (Z.shiftl 1 (Z.of_nat i))) z = true ↔
  Z.testbit o z = true ∨ z = Z.of_nat i.
Proof.
  rewrite Z.lor_spec, Z.shiftl_1_l, Z.pow2_bits_eqb by lia.
  rewrite orb_true_iff, Z.eqb_eq. naive_solver.
Qed.

Lemma add_word_spec done ac paths w :
  ins_inv done ac paths →
  ∃ ac' paths', add_word ac (length done) w = Some ac' ∧
                ins_inv (done ++ [w]) ac' paths'.
Proof.
  intros Hii.
  destruct (trie_insert_spec ac paths w 0 [] (ii_trie _ _ _ Hii))
    as (ac1 & j & ext & Hins & Hti & Hj & Hf & Ho & Hol); [apply Hii|].
  pose proof (ins_inv_grow _ _ _ _ _ Hii Hti Hf Ho Hol) as Hii1.
  simpl in Hj. pose proof (lookup_lt_Some _ _ _ Hj) as Hlt.
  destruct (lookup_lt_is_Some_2 (out ac1) j) as [o Hoj];
    [by rewrite (ii_out_len _ _ _ Hii1)|].
  destruct (lookup_lt_is_Some_2 (out_lens ac1) j) as [ol Holj];
    [by rewrite (ii_lens_len _ _ _ Hii1)|].
  unfold add_word. rewrite Hins. cbn [mbind option_bind]. rewrite Hoj.
  cbn [mbind option_bind out_lens goto failure out]. rewrite Holj.
  cbn [mbind option_bind]. eexists _, (paths ++ ext). split; [done|].
  assert (∀ j0 w0, w0 ∈ done ++ [w] → (paths ++ ext) !! j0 = Some w0 →
            w0 ∈ done ∨ (w0 = w ∧ j0 = j)) as Hcase.
  { intros j0 w0 [?| ->%list_elem_of_singleton]%elem_of_app Hj0; [by left|right].
    split; [done|]. eapply NoDup_lookup; [apply Hti|done..]. }
  split; cbn [goto failure out out_lens].
  - done.
  - apply Hii1.
  - rewrite length_insert. apply Hii1.
  - rewrite length_insert. apply Hii1.
  - intros w0 [Hw0| ->%list_elem_of_singleton]%elem_of_app.
    + by apply (ii_words _ _ _ Hii1).
    + by eapply list_elem_of_lookup_2.
  - intros j0 o0 z Hj0. destruct (decide (j0 = j)) as [->|Hne].
    + rewrite list_lookup_insert_eq in Hj0 by (by eapply lookup_lt_Some).
      injection Hj0 as <-. rewrite testbit_set_bit, (ii_out _ _ _ Hii1 _ _ z Hoj).
      split.
      * intros [(i & w0 & -> & Hi & Hw0)| ->].
        -- exists i, w0. split_and!; [done| |done]. by apply lookup_app_l_Some.
        -- exists (length done), w. split_and!; [done| |done].
           by rewrite lookup_app_r, Nat.sub_diag by lia.
      * intros (i & w0 & -> & Hi & Hw0).
        apply lookup_app_Some in Hi as [Hi|[Hge Hi]]; [left; eauto|right].
        apply list_lookup_singleton_Some in Hi as [Hi _]. f_equal. lia.
    + rewrite list_lookup_insert_ne in Hj0 by done.
      rewrite (ii_out _ _ _ Hii1 _ _ z Hj0). split.
      * intros (i & w0 & -> & Hi & Hw0).
        exists i, w0. split_and!; [done| |done]. by apply lookup_app_l_Some.
      * intros (i & w0 & -> & Hi & Hw0).
        destruct (Hcase j0 w0) as [Hd|[_ ?]]; [by eapply list_elem_of_lookup_2|done| |done].
        apply lookup_app_Some in Hi as [Hi|[Hge Hi]]; [eauto|].
        apply list_lookup_singleton_Some in Hi as [_ <-].
        destruct Hne. eapply NoDup_lookup; [apply Hti|done..].
  - intros j0 o0 z Hj0. destruct (decide (j0 = j)) as [->|Hne].
    + rewrite list_lookup_insert_eq in Hj0 by (by eapply lookup_lt_Some).
      injection Hj0 as <-. rewrite testbit_set_bit, (ii_lens _ _ _ Hii1 _ _ z Holj).
      split.
      * intros [(w0 & -> & Hi & Hw0)| ->].
        -- exists w0. split_and!; [done| |done]. apply elem_of_app. by left.
        -- exists w. split_and!; [done| |done]. apply elem_of_app. right. left.
      * intros (w0 & -> & Hi & Hw0).
        destruct (Hcase j w0) as [Hd|[-> _]]; [done..| |by right].
        left. eauto.
    + rewrite list_lookup_insert_ne in Hj0 by done.
      rewrite (ii_lens _ _ _ Hii1 _ _ z Hj0). split.
      * intros (w0 & -> & Hi & Hw0).
        exists w0. split_and!; [done| |done]. apply elem_of_app. by left.
      * intros (w0 & -> & Hi & Hw0).
        destruct (Hcase j0 w0) as [Hd|[_ ?]]; [done..| |done]. eauto.
Qed.

Lemma add_words_spec words done ac paths :
  ins_inv done ac paths →
  ∃ ac' paths', add_words ac (length done) words = Some ac' ∧
                ins_inv (done ++ words) ac' paths'.
Proof.
  revert done ac paths. induction words as [|w words IH]; intros done ac paths Hii.
  { exists ac, paths. by rewrite app_nil_r. }
  destruct (add_word_spec done ac paths w Hii) as (ac1 & paths1 & Hw & Hii1).
  cbn [add_words]. rewrite Hw. cbn [mbind option_bind].
  destruct (IH _ _ _ Hii1) as (ac' & paths' & Hws & Hii').
  rewrite length_app, Nat.add_1_r in Hws. rewrite <-(assoc_L (++)) in Hii'. eauto.
Qed.
End TrieProofs.

(** ** Longest suffixes and the failure chase *)

Section ChaseProofs.
Context {A : Type} `{EqDecision A}.
Implicit Types gt : list (list (A * nat)).
Implicit Types paths : list (list A).
Implicit Types ac : automaton A.
Implicit Types p q w x y : list A.
Implicit Types l : A.

Lemma trie_inv_prefix_closed gt paths p1 p2 :
  trie_inv gt paths → p1 ++ p2 ∈ paths → p1 ∈ paths.
Proof.
  intros Hti. induction p2 as [|l p2 IH] using rev_ind; [by rewrite app_nil_r|].
  rewrite (assoc_L (++)). intros [c Hc]%list_elem_of_lookup.
  destruct (ti_prefix _ _ Hti _ _ _ Hc) as [j Hj].
  apply IH. by eapply list_elem_of_lookup_2.
Qed.

Lemma trie_inv_depth_lt gt paths j q :
  trie_inv gt paths → paths !! j = Some q → length q < length paths.
Proof.
  intros Hti Hq.
  assert (length ((λ k, take k q) <$> seq 0 (S (length q))) ≤ length paths) as Hle.
  { apply submseteq_length, NoDup_submseteq.
    - apply NoDup_fmap_2_strong; [|apply NoDup_seq].
      intros k k' [_ Hk]%elem_of_seq [_ Hk']%elem_of_seq Heq%(f_equal length).
      rewrite !length_take in Heq. lia.
    - intros p (k & -> & _)%list_elem_of_fmap.
      eapply (trie_inv_prefix_closed _ _ _ (drop k q)); [done|].
      rewrite take_drop. by eapply list_elem_of_lookup_2. }
  rewrite length_fmap, length_seq in Hle. lia.
Qed.

Lemma lsuf_root gt paths : trie_inv gt paths → lsuf paths [] 0.
Proof.
  intros Hti. exists []. split_and!; [apply Hti|done|].
  by intros j' q' _ ->%suffix_nil_inv.
Qed.

Lemma lsuf_lt gt paths x j : trie_inv gt paths → lsuf paths x j → j < length gt.
Proof. intros Hti (q & Hq & _). by eapply trie_inv_lt. Qed.

Lemma suffix_proper_tail x y : x `suffix_of` y → x ≠ y → x `suffix_of` tail y.
Proof.
  intros [k ->] Hne. destruct k as [|a k]; [done|]. simpl. by apply suffix_app_r.
Qed.

Lemma suffix_tail x : tail x `suffix_of` x.
Proof. destruct x; [done|]. simpl. by apply suffix_cons_r. Qed.

(** The loop of [_findNext], started at the node of a candidate. *)
Lemma fail_chase_spec ac paths x l fuel j q :
  trie_inv (goto ac) paths →
  (∀ c q', paths !! c = Some q' → q' ≠ [] → length q' ≤ length q →
           fail_ok paths (failure ac) c q') →
  paths !! j = Some q → length q < fuel → chase_cand paths x l q →
  ∃ j' q' g', fail_chase fuel ac l (Z.of_nat j) = Some (Z.of_nat j') ∧
    paths !! j' = Some q' ∧ goto ac !! j' = Some g' ∧ chase_cand paths x l q' ∧
    (j' = 0 ∨ dict_get g' l ≠ None).
Proof.
  intros Hti. revert j q. induction fuel as [|fuel IH];
    intros j q Hfail Hq Hfuel Hcand; [lia|].
  destruct (trie_inv_goto _ _ _ _ Hti Hq) as [g Hg].
  cbn [fail_chase]. destruct (decide (Z.of_nat j = 0%Z)) as [Hj0|Hj0].
  { assert (j = 0) as -> by lia. exists 0, q, g. split_and!; auto. }
  rewrite !py_get_nat, Hg. cbn [mbind option_bind].
  destruct (decide (dict_get g l = None)) as [Hnone|Hsome];
    [|exists j, q, g; split_and!; auto].
  assert (q ≠ []) as Hne.
  { intros ->. assert (j = 0) by (eapply trie_inv_inj; [done..|apply Hti]). lia. }
  destruct (Hfail j q) as (f & Hf & qf & Hqf & Hsuf & Hmax); [done..|].
  rewrite Hf. cbn [mbind option_bind].
  assert (length qf < length q) as Hlt.
  { apply suffix_length in Hsuf. destruct q; [done|]. simpl in *. lia. }
  apply (IH f qf); [|done|lia|].
  - intros c q' Hc Hq' Hlen. apply Hfail; [done..|lia].
  - destruct Hcand as [Hqx Hbest]. split.
    + etrans; [done|]. etrans; [apply suffix_tail|done].
    + intros y Hy Hyl.
      assert (y ∈ paths) as [jy Hjy]%list_elem_of_lookup
        by by eapply trie_inv_prefix_closed.
      apply (Hmax jy); [done|]. apply suffix_proper_tail; [by apply Hbest|].
      intros ->. apply list_elem_of_lookup in Hyl as [c Hc].
      exact (trie_inv_no_edge _ _ j q g l c Hti Hq Hg Hnone Hc).
Qed.

(** One transition of the automaton: from the longest suffix of [x] in the
    trie to the longest suffix of [x ++ [l]]. *)
Lemma findNext_spec ac paths x l j q :
  trie_inv (goto ac) paths →
  (∀ c q', paths !! c = Some q' → q' ≠ [] → length q' ≤ length q →
           fail_ok paths (failure ac) c q') →
  paths !! j = Some q → lsuf paths x j →
  ∃ j', _findNext ac (Z.of_nat j) l = Some j' ∧ lsuf paths (x ++ [l]) j'.
Proof.
  intros Hti Hfail Hq (q0 & Hq0 & Hsuf & Hmax).
  assert (q0 = q) as -> by congruence.
  destruct (fail_chase_spec ac paths x l (length (goto ac)) j q)
    as (j' & q' & g' & Hch & Hq' & Hg' & [Hq'x Hbest] & Hex); [done..| | |].
  { rewrite (ti_len _ _ Hti). by eapply trie_inv_depth_lt. }
  { split; [done|]. intros y Hy Hyl.
    assert (y ∈ paths) as [jy Hjy]%list_elem_of_lookup
      by by eapply trie_inv_prefix_closed.
    by eapply Hmax. }
  unfold _findNext. rewrite Hch. cbn [mbind option_bind].
  rewrite py_get_nat, Hg'. cbn [mbind option_bind].
  assert (∀ jz z, paths !! jz = Some z → z `suffix_of` x ++ [l] → z ≠ [] →
            ∃ y, z = y ++ [l] ∧ y `suffix_of` q') as Hext.
  { intros jz z Hz Hzs Hzne.
    destruct (suffix_snoc_nonempty _ _ _ Hzne Hzs) as (y & -> & Hy).
    exists y. split; [done|]. apply Hbest; [done|]. by eapply list_elem_of_lookup_2. }
  destruct (dict_get g' l) as [c|] eqn:Hget; simpl.
  - exists c. split; [done|].
    destruct (ti_edge _ _ Hti _ _ _ _ Hg' Hget) as (p & Hp & Hc).
    assert (p = q') as -> by congruence.
    exists (q' ++ [l]). split_and!; [done|by apply suffix_snoc|].
    intros jz z Hz Hzs. destruct (decide (z = [])) as [->|Hzne]; [apply suffix_nil|].
    destruct (Hext jz z) as (y & -> & Hy); [done..|]. by apply suffix_snoc.
  - exists 0. split; [done|]. destruct Hex as [->|?]; [|done].
    assert (q' = []) as -> by (pose proof (ti_root _ _ Hti); congruence).
    exists []. split_and!; [apply Hti|apply suffix_nil|].
    intros jz z Hz Hzs. destruct (decide (z = [])) as [->|Hzne]; [done|].
    destruct (Hext jz z) as (y & -> & ->%suffix_nil_inv); [done..|].
    by destruct (trie_inv_no_edge _ _ 0 [] g' l jz Hti).
Qed.
End ChaseProofs.

(** ** The breadth-first pass *)

Section BfsProofs.
Context {A : Type} `{EqDecision A}.
Implicit Types gt : list (list (A * nat)).
Implicit Types paths : list (list A).
Implicit Types ac : automaton A.
Implicit Types p q w x y : list A.
Implicit Types l : A.

Lemma depth_path paths c p : paths !! c = Some p → depth paths c = length p.
Proof. unfold depth. by intros ->. Qed.

Lemma item_edge gt paths j g l c :
  trie_inv gt paths → gt !! j = Some g → (l, c) ∈ g → dict_get g l = Some c.
Proof. intros Hti Hg Hin. apply dict_get_elem; [by eapply ti_keys|done]. Qed.

Lemma child_mem gt paths j g p c :
  trie_inv gt paths → gt !! j = Some g → paths !! j = Some p →
  c ∈ g.*2 ↔ ∃ l, paths !! c = Some (p ++ [l]).
Proof.
  intros Hti Hg Hp. split.
  - intros ([l c'] & -> & Hin)%list_elem_of_fmap. exists l. simpl.
    pose proof (item_edge _ _ _ _ _ _ Hti Hg Hin) as Hget.
    destruct (ti_edge _ _ Hti _ _ _ _ Hg Hget) as (p' & Hp' & Hc). congruence.
  - intros [l Hc]. destruct (ti_edge_inv _ _ Hti _ _ _ _ Hp Hc) as (g' & Hg' & Hget).
    assert (g' = g) as -> by congruence.
    apply list_elem_of_fmap. exists (l, c). split; [done|]. by apply dict_get_Some_elem.
Qed.

Lemma children_nodup gt paths j g :
  trie_inv gt paths → gt !! j = Some g → NoDup g.*2.
Proof.
  intros Hti Hg. apply NoDup_fmap_2_strong.
  - intros [l c] [l' c'] Hin Hin' Heq. simpl in Heq. subst c'.
    pose proof (item_edge _ _ _ _ _ _ Hti Hg Hin) as Hget.
    pose proof (item_edge _ _ _ _ _ _ Hti Hg Hin') as Hget'.
    destruct (ti_edge _ _ Hti _ _ _ _ Hg Hget) as (p & Hp & Hc).
    destruct (ti_edge _ _ Hti _ _ _ _ Hg Hget') as (p' & Hp' & Hc').
    assert (p' = p) as -> by congruence.
    assert (p ++ [l] = p ++ [l']) as Heq by congruence.
    by apply app_inj_tail in Heq as [_ ->].
  - eapply NoDup_fmap_1, ti_keys; done.
Qed.

Lemma nonroot_ne_0 gt paths c p l :
  trie_inv gt paths → paths !! c = Some (p ++ [l]) → c ≠ 0.
Proof.
  intros Hti Hc ->. pose proof (ti_root _ _ Hti) as Hr.
  assert ([] = p ++ [l]) as Heq by congruence. by destruct p.
Qed.

Lemma nonroot_snoc gt paths c p :
  trie_inv gt paths → paths !! c = Some p → c ≠ 0 → ∃ p' l, p = p' ++ [l].
Proof.
  intros Hti Hc Hne. destruct p as [|l p' _] using rev_ind; [|eauto].
  destruct Hne. eapply trie_inv_inj; [done..|apply Hti].
Qed.

(** Every node up to depth [d] has been reached once the queue holds
    nothing above depth [d] and the items left lie deeper. *)
Lemma bfs_inv_reached paths ac1 ac popped todo qu d :
  trie_inv (goto ac1) paths → bfs_inv paths ac1 ac popped todo qu →
  (∀ c, c ∈ qu → d ≤ depth paths c) →
  (∀ c, c ∈ todo.*2 → d < depth paths c) →
  ∀ c p l, paths !! c = Some (p ++ [l]) → length (p ++ [l]) ≤ d → c ∈ popped ++ qu.
Proof.
  intros Hti Hbi Hq Htodo c p. revert c.
  induction p as [|l0 p0 IHp] using rev_ind; intros c l Hc Hlen.
  - apply (bi_member _ _ _ _ _ _ Hbi 0 c [] l); [apply Hti|done|].
    split; [by left|]. intros Hin%Htodo. rewrite (depth_path _ _ _ Hc) in Hin. lia.
  - destruct (ti_prefix _ _ Hti _ _ _ Hc) as [j Hj].
    assert (j ∈ popped ++ qu) as Hjd.
    { eapply IHp; [done|]. rewrite !length_app in *. simpl in *. lia. }
    apply (bi_member _ _ _ _ _ _ Hbi j c (p0 ++ [l0]) l); [done..|].
    split.
    + right. apply elem_of_app in Hjd as [?|Hjq]; [done|].
      apply Hq in Hjq. rewrite (depth_path _ _ _ Hj) in Hjq.
      rewrite !length_app in *. simpl in *. lia.
    + intros Hin%Htodo. rewrite (depth_path _ _ _ Hc) in Hin. lia.
Qed.

Lemma StronglySorted_all {X} (R : X → X → Prop) (xs : list X) :
  (∀ a b, a ∈ xs → b ∈ xs → R a b) → StronglySorted R xs.
Proof.
  induction xs as [|a xs IH]; intros Hall; constructor.
  - apply IH. intros ????. apply Hall; by right.
  - apply Forall_forall. intros b Hb. apply Hall; [left|by right].
Qed.

Lemma tail_app_ne p k : p ≠ [] → tail (p ++ k) = tail p ++ k.
Proof. by destruct p. Qed.

Lemma closed_insert_ne p (arr1 arr : list Z) c f k v :
  c ≠ k → f ≠ k → closed p arr1 arr c f → closed p arr1 (<[k := v]> arr) c f.
Proof.
  unfold closed. intros Hc Hf. destruct (decide (p = [])).
  - by rewrite list_lookup_insert_ne.
  - intros (o1 & o_f & ? & ? & ?). exists o1, o_f.
    by rewrite !list_lookup_insert_ne.
Qed.

Lemma bfs_inv_init words ac1 paths g0 :
  ins_inv words ac1 paths → goto ac1 !! 0 = Some g0 →
  bfs_inv paths ac1 ac1 [] [] g0.*2.
Proof.
  intros Hii Hg0. pose proof (ii_trie _ _ _ Hii) as Hti.
  pose proof (ti_root _ _ Hti) as Hroot.
  pose proof (lookup_lt_Some _ _ _ Hroot) as Hpos.
  assert (∀ c p l, c ∈ g0.*2 → paths !! c = Some (p ++ [l]) → p = []) as Hd1.
  { intros c p l [l' Hl']%(child_mem _ _ _ _ _ _ Hti Hg0 Hroot) Hc.
    assert (p ++ [l] = [l']) as Heq by (simpl in Hl'; congruence).
    by apply (app_inj_tail p [] l l') in Heq as [-> _]. }
  split; simpl.
  - done.
  - rewrite (ii_failure _ _ _ Hii). simpl. rewrite length_replicate. lia.
  - apply Hii.
  - apply Hii.
  - by eapply children_nodup.
  - intros c [l Hl]%(child_mem _ _ _ _ _ _ Hti Hg0 Hroot). by exists [], l.
  - apply StronglySorted_all. intros a b Ha Hb.
    apply (child_mem _ _ _ _ _ _ Hti Hg0 Hroot) in Ha as [la Ha], Hb as [lb Hb].
    by rewrite (depth_path _ _ _ Ha), (depth_path _ _ _ Hb).
  - intros j c p l Hj Hc. split.
    + intros Hin. split; [|apply not_elem_of_nil]. left.
      rewrite (Hd1 _ _ _ Hin Hc) in Hj. by eapply trie_inv_inj.
    + intros [[->|?%elem_of_nil] _]; [|done].
      assert (p = []) as -> by congruence.
      apply (child_mem _ _ _ _ _ _ Hti Hg0 Hroot). by exists l.
  - by intros l c ?%elem_of_nil.
  - apply NoDup_nil_2.
  - by rewrite (ii_failure _ _ _ Hii).
  - intros c Hc _. rewrite (ii_failure _ _ _ Hii). split; [|done].
    destruct c as [|c]; [lia|]. simpl. apply lookup_replicate_2. lia.
  - intros c p l Hin Hc. rewrite (Hd1 _ _ _ Hin Hc) in *. exists 0. split_and!.
    + rewrite (ii_failure _ _ _ Hii). destruct c as [|c].
      { by destruct (nonroot_ne_0 _ _ _ _ _ Hti Hc). }
      simpl. apply lookup_replicate_2. apply lookup_lt_Some in Hc. lia.
    + by eapply lsuf_root.
    + by left.
    + unfold closed. by rewrite decide_True.
    + unfold closed. by rewrite decide_True.
Qed.

Lemma bfs_inv_pop paths ac1 ac popped j qu g :
  trie_inv (goto ac1) paths → bfs_inv paths ac1 ac popped [] (j :: qu) →
  goto ac1 !! j = Some g → bfs_inv paths ac1 ac (popped ++ [j]) g qu.
Proof.
  intros Hti Hbi Hg.
  assert ((popped ++ [j]) ++ qu = popped ++ j :: qu) as Heq
    by by rewrite <-(assoc_L (++)).
  destruct (bi_nonroot _ _ _ _ _ _ Hbi j) as (pj & lj & Hpj); [set_solver|].
  assert (j ≠ 0) as Hj0 by by eapply nonroot_ne_0.
  assert (j ∉ popped) as Hjp.
  { pose proof (bi_nodup _ _ _ _ _ _ Hbi) as Hnd.
    apply NoDup_app in Hnd as (_ & Hnd & _). intros Hin. apply (Hnd j Hin). left. }
  split; rewrite ?Heq; try apply Hbi.
  - intros j' c p l Hj' Hc.
    rewrite (bi_member _ _ _ _ _ _ Hbi j' c p l Hj' Hc).
    rewrite (child_mem _ _ _ _ _ _ Hti Hg Hpj). simpl. split.
    + intros [[->|Hin] _].
      * split; [by left|]. intros [l' Hl'].
        assert (p ++ [l] = (pj ++ [lj]) ++ [l']) as Hpl by congruence.
        apply app_inj_tail in Hpl as [-> _].
        apply Hj0. eapply trie_inv_inj; done.
      * split; [right; set_solver|]. intros [l' Hl'].
        assert (p ++ [l] = (pj ++ [lj]) ++ [l']) as Hpl by congruence.
        apply app_inj_tail in Hpl as [-> _].
        assert (j' = j) as -> by by eapply trie_inv_inj. done.
    + intros [[->|[Hin| ->%list_elem_of_singleton]%elem_of_app] Hnc].
      * split; [by left|apply not_elem_of_nil].
      * split; [by right|apply not_elem_of_nil].
      * destruct Hnc. exists l. congruence.
  - intros l c Hin. exists j, (pj ++ [lj]). split_and!; [apply last_snoc|done|].
    pose proof (item_edge _ _ _ _ _ _ Hti Hg Hin) as Hget.
    destruct (ti_edge _ _ Hti _ _ _ _ Hg Hget) as (p' & Hp' & Hc). congruence.
  - by eapply children_nodup.
Qed.

Lemma bfs_inv_last_le paths ac1 ac popped todo qu j :
  bfs_inv paths ac1 ac popped todo qu → list.last popped = Some j →
  (∀ c, c ∈ popped → depth paths c ≤ depth paths j) ∧
  (∀ c, c ∈ qu → depth paths j ≤ depth paths c).
Proof.
  intros Hbi [popped' ->]%last_Some. pose proof (bi_sorted _ _ _ _ _ _ Hbi) as Hs.
  split.
  - intros c [Hc| ->%list_elem_of_singleton]%elem_of_app; [|done].
    rewrite <-!(assoc_L (++)) in Hs.
    eapply (StronglySorted_app_1_elem_of _ _ _ _ _ Hs); [done|left].
  - intros c Hc. eapply (StronglySorted_app_1_elem_of _ _ _ _ _ Hs); [|done].
    apply elem_of_app. right. left.
Qed.

(** One iteration of the loop over the children of the node [j] being
    processed: every read succeeds and the invariant is kept. *)
Lemma bfs_child_step paths ac1 ac popped l j2 todo qu j :
  trie_inv (goto ac1) paths →
  bfs_inv paths ac1 ac popped ((l, j2) :: todo) qu → list.last popped = Some j →
  ∃ j_f0 j_f o2 o_f ol2 ol_f,
    failure ac !! j = Some j_f0 ∧ _findNext ac j_f0 l = Some j_f ∧
    is_Some (failure ac !! j2) ∧
    out ac !! j2 = Some o2 ∧ out ac !! j_f = Some o_f ∧
    out_lens ac !! j2 = Some ol2 ∧ out_lens ac !! j_f = Some ol_f ∧
    bfs_inv paths ac1
      (Automaton (goto ac) (<[j2 := Z.of_nat j_f]> (failure ac))
         (<[j2 := Z.lor o2 o_f]> (out ac)) (<[j2 := Z.lor ol2 ol_f]> (out_lens ac)))
      popped todo (qu ++ [j2]).
Proof.
  intros Hti Hbi Hlast.
  destruct (bfs_inv_last_le _ _ _ _ _ _ _ Hbi Hlast) as [Hle_pop Hle_qu].
  destruct (bi_todo _ _ _ _ _ _ Hbi l j2) as (j' & p & Hlast' & Hp & Hj2); [left|].
  assert (j' = j) as -> by congruence. clear Hlast'.
  assert (j ∈ popped) as Hjpop by by apply last_Some_elem_of.
  assert (j ∈ popped ++ qu) as Hjin by (apply elem_of_app; by left).
  destruct (bi_nonroot _ _ _ _ _ _ Hbi j Hjin) as (p0 & l0 & Hp0).
  assert (p = p0 ++ [l0]) as Hpeq by congruence.
  assert (p ≠ []) as Hpne by (rewrite Hpeq; by destruct p0).
  pose proof (depth_path _ _ _ Hp) as Hdj.
  (* every node at most as deep as [j] has been reached *)
  assert (∀ c pc, paths !! c = Some pc → pc ≠ [] → length pc ≤ length p →
            c ∈ popped ++ qu) as Hreached.
  { intros c pc Hc Hne Hlen.
    destruct pc as [|lc pc' _] using rev_ind; [done|].
    eapply (bfs_inv_reached _ _ _ _ _ _ (length p) Hti Hbi); [| |done..].
    - intros c' Hc'. rewrite <-Hdj. by apply Hle_qu.
    - intros c' ([l' c''] & -> & Hin)%list_elem_of_fmap. simpl.
      destruct (bi_todo _ _ _ _ _ _ Hbi l' c'' Hin) as (j'' & p'' & Hl'' & Hp'' & Hc'').
      assert (j'' = j) as -> by congruence. assert (p'' = p) as -> by congruence.
      rewrite (depth_path _ _ _ Hc''), length_app. simpl. lia. }
  (* the failure link of [j] and the transition from it *)
  destruct (bi_done _ _ _ _ _ _ Hbi j p0 l0 Hjin Hp0) as (f & Hf & Hlsf & _).
  rewrite <-Hpeq in Hlsf.
  pose proof Hlsf as (qf & Hqf & Hqfs & _).
  assert (length qf < length p) as Hqflen.
  { apply suffix_length in Hqfs. destruct p; [done|]. simpl in *. lia. }
  assert (trie_inv (goto ac) paths) as Hti' by by rewrite (bi_goto _ _ _ _ _ _ Hbi).
  destruct (findNext_spec ac paths (tail p) l f qf Hti') as (j_f & Hnext & Hlsjf);
    [|done..|].
  { intros c q' Hc Hq' Hlen.
    assert (c ∈ popped ++ qu) as Hcin by (eapply Hreached; [done..|lia]).
    destruct q' as [|lc pc' _] using rev_ind; [done|].
    destruct (bi_done _ _ _ _ _ _ Hbi c pc' lc Hcin Hc) as (fc & Hfc & Hlsc & _).
    by exists fc. }
  rewrite <-tail_app_ne in Hlsjf by done.
  pose proof Hlsjf as (qjf & Hqjf & Hqjfs & _).
  assert (length qjf ≤ length p) as Hqjflen.
  { apply suffix_length in Hqjfs. destruct p; [done|].
    simpl in *. rewrite length_app in Hqjfs. simpl in *. lia. }
  assert (j_f = 0 ∨ j_f ∈ popped ++ qu) as Hjfdone.
  { destruct (decide (qjf = [])) as [->|Hne]; [left|right; eapply Hreached; done].
    eapply trie_inv_inj; [done..|apply Hti]. }
  (* the child itself is new *)
  assert (j2 ∉ popped ++ qu) as Hj2new.
  { intros Hin. apply (bi_member _ _ _ _ _ _ Hbi j j2 p l Hp Hj2) in Hin as [_ Hin].
    apply Hin. left. }
  assert (j2 ≠ 0) as Hj20 by by eapply nonroot_ne_0.
  assert (j_f ≠ j2) as Hjf2 by (intros ->; by destruct Hjfdone).
  pose proof (lookup_lt_Some _ _ _ Hj2) as Hj2lt.
  pose proof (lookup_lt_Some _ _ _ Hqjf) as Hjflt.
  destruct (bi_fresh _ _ _ _ _ _ Hbi j2) as (Hfl2 & Ho2 & Hol2); [lia|done|].
  destruct (lookup_lt_is_Some_2 (out ac) j2) as [o2 Ho2'];
    [by rewrite (bi_olen _ _ _ _ _ _ Hbi)|].
  destruct (lookup_lt_is_Some_2 (out ac) j_f) as [o_f Hof];
    [by rewrite (bi_olen _ _ _ _ _ _ Hbi)|].
  destruct (lookup_lt_is_Some_2 (out_lens ac) j2) as [ol2 Hol2'];
    [by rewrite (bi_ollen _ _ _ _ _ _ Hbi)|].
  destruct (lookup_lt_is_Some_2 (out_lens ac) j_f) as [ol_f Holf];
    [by rewrite (bi_ollen _ _ _ _ _ _ Hbi)|].
  exists (Z.of_nat f), j_f, o2, o_f, ol2, ol_f.
  split_and!; [done|done|by rewrite Hfl2|done|done|done|done|].
  assert (∀ c, c ∈ popped ++ qu ++ [j2] ↔ c ∈ popped ++ qu ∨ c = j2) as Hmem.
  { intros c. rewrite (assoc_L (++)), elem_of_app, list_elem_of_singleton. done. }
  pose proof (bi_todo_nodup _ _ _ _ _ _ Hbi) as Hnd. simpl in Hnd.
  apply NoDup_cons in Hnd as [Hj2todo Hnd].
  split; cbn [goto failure out out_lens].
  - apply Hbi.
  - rewrite length_insert. apply Hbi.
  - rewrite length_insert. apply Hbi.
  - rewrite length_insert. apply Hbi.
  - rewrite (assoc_L (++)). apply NoDup_app. split_and!; [apply Hbi| |apply NoDup_singleton].
    by intros c Hc ->%list_elem_of_singleton.
  - intros c [Hc| ->]%Hmem; [by eapply bi_nonroot|]. rewrite Hpeq in Hj2. eauto.
  - rewrite (assoc_L (++)). apply StronglySorted_app_2; [|apply Hbi|repeat constructor].
    intros c c' Hc ->%list_elem_of_singleton.
    rewrite (depth_path _ _ _ Hj2), length_app. simpl.
    apply elem_of_app in Hc as [Hc|Hc].
    + apply Hle_pop in Hc. lia.
    + destruct (bi_nonroot _ _ _ _ _ _ Hbi c) as (pc & lc & Hpc);
        [apply elem_of_app; by right|].
      destruct (ti_prefix _ _ Hti _ _ _ Hpc) as [jc Hjc].
      rewrite (depth_path _ _ _ Hpc), length_app. simpl.
      assert (c ∈ popped ++ qu) as Hcin by (apply elem_of_app; by right).
      apply (bi_member _ _ _ _ _ _ Hbi jc c pc lc Hjc Hpc) in Hcin as [[->|Hjcp] _].
      * assert (pc = []) as -> by (pose proof (ti_root _ _ Hti); congruence).
        simpl. lia.
      * apply Hle_pop in Hjcp. rewrite (depth_path _ _ _ Hjc) in Hjcp. lia.
  - intros jc c pc lc Hjc Hc. rewrite Hmem.
    rewrite (bi_member _ _ _ _ _ _ Hbi jc c pc lc Hjc Hc). simpl.
    rewrite not_elem_of_cons. destruct (decide (c = j2)) as [->|Hne].
    + assert (pc ++ [lc] = p ++ [l]) as Hpl by congruence.
      apply app_inj_tail in Hpl as [-> ->].
      assert (jc = j) as -> by by eapply trie_inv_inj. naive_solver.
    + naive_solver.
  - intros l' c Hin. apply (bi_todo _ _ _ _ _ _ Hbi). by right.
  - done.
  - destruct (bi_root _ _ _ _ _ _ Hbi) as (? & ? & ?).
    by rewrite !list_lookup_insert_ne by done.
  - intros c Hc Hnew. rewrite Hmem in Hnew.
    assert (j2 ≠ c) by (intros ->; apply Hnew; by right).
    rewrite !list_lookup_insert_ne by done.
    apply (bi_fresh _ _ _ _ _ _ Hbi); [done|]. intros ?. apply Hnew. by left.
  - intros c pc lc [Hc| ->]%Hmem Hpc.
    + assert (j2 ≠ c) by (intros ->; done).
      destruct (bi_done _ _ _ _ _ _ Hbi c pc lc Hc Hpc) as (fc & Hfc & Hlsc & Hfcd & Hcl & Hcll).
      assert (fc ≠ j2) by (intros ->; by destruct Hfcd).
      exists fc. split_and!.
      * by rewrite list_lookup_insert_ne.
      * done.
      * rewrite Hmem. destruct Hfcd; [by left|by right; left].
      * by apply closed_insert_ne.
      * by apply closed_insert_ne.
    + assert (pc ++ [lc] = p ++ [l]) as Hpl by congruence.
      apply app_inj_tail in Hpl as [-> ->].
      exists j_f. split_and!.
      * apply list_lookup_insert_eq. by rewrite (bi_flen _ _ _ _ _ _ Hbi).
      * done.
      * rewrite Hmem. destruct Hjfdone; [by left|by right; left].
      * unfold closed. rewrite decide_False by done. exists o2, o_f.
        split_and!; [congruence|by rewrite list_lookup_insert_ne|].
        apply list_lookup_insert_eq. by rewrite (bi_olen _ _ _ _ _ _ Hbi).
      * unfold closed. rewrite decide_False by done. exists ol2, ol_f.
        split_and!; [congruence|by rewrite list_lookup_insert_ne|].
        apply list_lookup_insert_eq. by rewrite (bi_ollen _ _ _ _ _ _ Hbi).
Qed.

Lemma bfs_children_spec paths ac1 todo ac popped qu j :
  trie_inv (goto ac1) paths →
  bfs_inv paths ac1 ac popped todo qu → list.last popped = Some j →
  ∃ ac', bfs_children ac j todo qu = Some (ac', qu ++ todo.*2) ∧
         bfs_inv paths ac1 ac' popped [] (qu ++ todo.*2).
Proof.
  intros Hti. revert ac qu. induction todo as [|[l j2] todo IH]; intros ac qu Hbi Hlast.
  { exists ac. simpl. by rewrite app_nil_r. }
  destruct (bfs_child_step _ _ _ _ _ _ _ _ _ Hti Hbi Hlast)
    as (j_f0 & j_f & o2 & o_f & ol2 & ol_f & Hf & Hnext & [z Hf2] & Ho2 & Hof & Hol2 & Holf & Hbi').
  cbn [bfs_children]. rewrite Hf. cbn [mbind option_bind].
  rewrite Hnext. cbn [mbind option_bind]. rewrite Hf2. cbn [mbind option_bind].
  rewrite Ho2. cbn [mbind option_bind]. rewrite Hof. cbn [mbind option_bind].
  rewrite Hol2. cbn [mbind option_bind]. rewrite Holf. cbn [mbind option_bind].
  destruct (IH _ _ Hbi' Hlast) as (ac' & Hch & Hbi'').
  exists ac'. rewrite <-(assoc_L (++)) in Hch, Hbi''. done.
Qed.

Lemma bfs_inv_size paths ac1 ac popped todo qu :
  bfs_inv paths ac1 ac popped todo qu → length (popped ++ qu) < length paths.
Proof.
  intros Hbi.
  assert (length (popped ++ qu) ≤ length (seq 1 (length paths - 1))) as Hle.
  { apply submseteq_length, NoDup_submseteq; [apply Hbi|].
    intros c Hc. destruct (bi_nonroot _ _ _ _ _ _ Hbi c Hc) as (p & l & Hp).
    apply elem_of_seq. pose proof (lookup_lt_Some _ _ _ Hp).
    destruct c as [|c]; [|lia]. exfalso.
    destruct (bi_done _ _ _ _ _ _ Hbi 0 p l Hc Hp) as (f & Hf & _).
    destruct (bi_root _ _ _ _ _ _ Hbi) as (Hr & _). rewrite Hr in Hf.
    injection Hf as Hf. lia. }
  rewrite length_seq in Hle.
  destruct (bi_root _ _ _ _ _ _ Hbi) as (Hr & _).
  apply lookup_lt_Some in Hr. rewrite (bi_flen _ _ _ _ _ _ Hbi) in Hr. lia.
Qed.

Lemma bfs_spec paths ac1 fuel ac popped qu :
  trie_inv (goto ac1) paths → bfs_inv paths ac1 ac popped [] qu →
  length paths ≤ length popped + fuel →
  ∃ ac' popped', bfs fuel ac qu = Some ac' ∧ bfs_inv paths ac1 ac' popped' [] [].
Proof.
  intros Hti. revert ac popped qu.
  induction fuel as [|fuel IH]; intros ac popped qu Hbi Hfuel.
  - pose proof (bfs_inv_size _ _ _ _ _ _ Hbi) as Hsz. rewrite length_app in Hsz.
    destruct qu as [|j qu]; [|lia]. by exists ac, popped.
  - destruct qu as [|j qu]; [by exists ac, popped|].
    pose proof (bfs_inv_size _ _ _ _ _ _ Hbi) as Hsz. rewrite length_app in Hsz.
    destruct (bi_nonroot _ _ _ _ _ _ Hbi j) as (p & l & Hp); [set_solver|].
    destruct (trie_inv_goto _ _ _ _ Hti Hp) as [g Hg].
    pose proof (bfs_inv_pop _ _ _ _ _ _ _ Hti Hbi Hg) as Hbi1.
    destruct (bfs_children_spec _ _ _ _ _ _ j Hti Hbi1) as (ac2 & Hch & Hbi2);
      [apply last_snoc|].
    cbn [bfs]. rewrite (bi_goto _ _ _ _ _ _ Hbi), Hg. cbn [mbind option_bind].
    rewrite Hch. cbn [mbind option_bind].
    apply (IH _ _ _ Hbi2). rewrite length_app. simpl. lia.
Qed.

(** Construction never fails, whatever the patterns are. *)
Lemma AhoCorasick_built (words : list (list A)) :
  ∃ ac1 ac paths, add_words ac_init 0 words = Some ac1 ∧
    AhoCorasick words = Some ac ∧ built words ac1 ac paths.
Proof.
  destruct (add_words_spec words [] ac_init [[]] ins_inv_init)
    as (ac1 & paths & Hadd & Hii).
  simpl in Hadd, Hii. pose proof (ii_trie _ _ _ Hii) as Hti.
  destruct (trie_inv_goto _ _ _ _ Hti (ti_root _ _ Hti)) as [g0 Hg0].
  pose proof (bfs_inv_init _ _ _ _ Hii Hg0) as Hbi.
  destruct (bfs_spec paths ac1 (length (goto ac1)) ac1 [] g0.*2 Hti Hbi)
    as (ac & popped & Hbfs & Hbi').
  { rewrite (ti_len _ _ Hti). simpl. lia. }
  exists ac1, ac, paths. split; [done|]. split; [|split; eauto].
  unfold AhoCorasick, buildAutomaton. rewrite Hadd. cbn [mbind option_bind].
  rewrite Hg0. cbn [mbind option_bind]. done.
Qed.

Lemma built_trie words ac1 ac paths :
  built words ac1 ac paths → trie_inv (goto ac) paths.
Proof.
  intros [Hii [popped Hbi]]. rewrite (bi_goto _ _ _ _ _ _ Hbi). apply Hii.
Qed.

(** After the pass every node but the root has its failure link and its
    closed bitsets. *)
Lemma built_node words ac1 ac paths c p l :
  built words ac1 ac paths → paths !! c = Some (p ++ [l]) →
  ∃ f, failure ac !! c = Some (Z.of_nat f) ∧ lsuf paths (tail (p ++ [l])) f ∧
       closed p (out ac1) (out ac) c f ∧
       closed p (out_lens ac1) (out_lens ac) c f.
Proof.
  intros [Hii [popped Hbi]] Hc.
  assert (c ∈ popped ++ []) as Hin.
  { eapply (bfs_inv_reached _ _ _ _ _ _ (length (p ++ [l])) (ii_trie _ _ _ Hii) Hbi);
      [by intros ? ?%elem_of_nil|by intros ? ?%elem_of_nil|done..]. }
  destruct (bi_done _ _ _ _ _ _ Hbi c p l Hin Hc) as (f & ? & ? & _ & ? & ?).
  eauto.
Qed.

Lemma built_fail_ok words ac1 ac paths c q :
  built words ac1 ac paths → paths !! c = Some q → q ≠ [] →
  fail_ok paths (failure ac) c q.
Proof.
  intros Hb Hc Hne. destruct q as [|l p _] using rev_ind; [done|].
  destruct (built_node _ _ _ _ _ _ _ Hb Hc) as (f & ? & ? & _). by exists f.
Qed.

Lemma built_root words ac1 ac paths :
  built words ac1 ac paths →
  out ac !! 0 = out ac1 !! 0 ∧ out_lens ac !! 0 = out_lens ac1 !! 0.
Proof. intros [Hii [popped Hbi]]. by destruct (bi_root _ _ _ _ _ _ Hbi) as (_ & ? & ?). Qed.

Lemma built_lengths words ac1 ac paths :
  built words ac1 ac paths →
  length (goto ac) = length paths ∧ length (failure ac) = length paths ∧
  length (out ac) = length paths ∧ length (out_lens ac) = length paths.
Proof.
  intros Hb. pose proof (built_trie _ _ _ _ Hb) as Hti.
  destruct Hb as [Hii [popped Hbi]].
  split_and!; [apply Hti|apply Hbi..].
Qed.

(** A step of the scan, for a finished automaton. *)
Lemma built_findNext words ac1 ac paths x l j :
  built words ac1 ac paths → lsuf paths x j →
  ∃ j', _findNext ac (Z.of_nat j) l = Some j' ∧ lsuf paths (x ++ [l]) j'.
Proof.
  intros Hb Hls. pose proof Hls as (q & Hq & _).
  eapply findNext_spec; [by eapply built_trie| |done..].
  intros c q' Hc Hne _. by eapply built_fail_ok.
Qed.

Lemma walk_path gt paths w j p :
  trie_inv gt paths → paths !! j = Some p →
  ∀ c, walk gt j w = Some c ↔ paths !! c = Some (p ++ w).
Proof.
  intros Hti. revert j p. induction w as [|l w IH]; intros j p Hp c.
  - simpl. rewrite app_nil_r. split.
    + by intros [= ->].
    + intros Hc. f_equal. by eapply trie_inv_inj.
  - destruct (trie_inv_goto _ _ _ _ Hti Hp) as [g Hg].
    cbn [walk]. rewrite Hg. cbn [mbind option_bind].
    rewrite (cons_middle l p w), (assoc_L (++)).
    destruct (dict_get g l) as [c'|] eqn:Hget; cbn [mbind option_bind].
    + destruct (ti_edge _ _ Hti _ _ _ _ Hg Hget) as (p' & Hp' & Hc').
      assert (p' = p) as -> by congruence. by apply IH.
    + split; [done|]. intros Hc.
      assert (p ++ [l] ∈ paths) as [c' Hc']%list_elem_of_lookup.
      { eapply trie_inv_prefix_closed; [done|]. by eapply list_elem_of_lookup_2. }
      by destruct (trie_inv_no_edge _ _ _ _ _ _ c' Hti Hp Hg Hget).
Qed.
End BfsProofs.

(** ** What the closed bitsets mean *)

Section ClosureSem.
Context {A : Type} `{EqDecision A}.
Context (gt : list (list (A * nat))) (paths : list (list A)).
Context (arr1 arr : list Z) (D : list A → Z → Prop).
Hypothesis Hti : trie_inv gt paths.
Hypothesis Hdirect : ∀ c o q z, arr1 !! c = Some o → paths !! c = Some q →
  (Z.testbit o z = true ↔ D q z).
Hypothesis HDpaths : ∀ w z, D w z → w ∈ paths.
Hypothesis Hroot : arr !! 0 = arr1 !! 0.
Hypothesis Hclosed : ∀ c p l, paths !! c = Some (p ++ [l]) →
  ∃ f, lsuf paths (tail (p ++ [l])) f ∧ closed p arr1 arr c f.

(** A bit [z] of the bitset of a node is set only if a word marked [z] is
    a suffix of the path of the node, and it is set for every such word
    that is not empty. *)
Lemma closure_sem n c q o :
  length q ≤ n → paths !! c = Some q → arr !! c = Some o →
  (∀ z, Z.testbit o z = true → ∃ w, D w z ∧ w `suffix_of` q) ∧
  (∀ w z, D w z → w ≠ [] → w `suffix_of` q → Z.testbit o z = true).
Proof.
  revert c q o. induction n as [|n IH]; intros c q o Hlen Hc Ho;
    destruct q as [|l p _] using rev_ind;
    try (rewrite length_app in Hlen; simpl in Hlen; lia).
  1,2: assert (c = 0) as -> by (eapply trie_inv_inj; [done..|apply Hti]);
       rewrite Hroot in Ho; split;
       [ intros z Hz; exists []; split; [by eapply Hdirect|done]
       | by intros w z _ Hne ->%suffix_nil_inv ].
  destruct (Hclosed c p l Hc) as (f & (qf & Hqf & Hqfs & Hmax) & Hcl).
  unfold closed in Hcl. destruct (decide (p = [])) as [->|Hpne].
  - rewrite Hcl in Ho. split.
    + intros z Hz. exists [l]. split; [by eapply Hdirect|done].
    + intros w z HD Hne Hsuf.
      destruct (suffix_snoc_nonempty _ _ _ Hne Hsuf) as (w' & -> & ->%suffix_nil_inv).
      by eapply Hdirect.
  - destruct Hcl as (o1 & o_f & Ho1 & Hof & Ho'). rewrite Ho' in Ho. injection Ho as <-.
    assert (length qf ≤ n) as Hqflen.
    { apply suffix_length in Hqfs. rewrite length_app in Hlen.
      destruct p; [done|]. simpl in *. rewrite length_app in Hqfs. simpl in *. lia. }
    destruct (IH f qf o_f Hqflen Hqf Hof) as [Hsound Hcompl].
    assert (qf `suffix_of` p ++ [l]) as Hqfq.
    { etrans; [done|apply suffix_tail]. }
    split.
    + intros z Hz. rewrite Z.lor_spec in Hz. apply orb_true_iff in Hz as [Hz|Hz].
      * exists (p ++ [l]). split; [by eapply Hdirect|done].
      * destruct (Hsound z Hz) as (w & HD & Hw). exists w. split; [done|by etrans].
    + intros w z HD Hne Hsuf. rewrite Z.lor_spec, orb_true_iff.
      destruct (decide (w = p ++ [l])) as [->|Hwne].
      * left. by eapply Hdirect.
      * right. apply (Hcompl w z HD Hne).
        apply HDpaths, list_elem_of_lookup in HD as [jw Hjw].
        apply (Hmax jw); [done|]. by apply suffix_proper_tail.
Qed.
End ClosureSem.

Section OutSem.
Context {A : Type} `{EqDecision A}.
Implicit Types words : list (list A).
Implicit Types ac : automaton A.
Implicit Types w q : list A.

(** Bit [i] of [out[c]] is set only if pattern [i] is a suffix of the path
    of [c]; for a pattern that is not empty the converse holds too. *)
Lemma built_out words ac1 ac paths c q o :
  built words ac1 ac paths → paths !! c = Some q → out ac !! c = Some o →
  (∀ z, Z.testbit o z = true →
        ∃ i w, z = Z.of_nat i ∧ words !! i = Some w ∧ w `suffix_of` q) ∧
  (∀ i w, words !! i = Some w → w ≠ [] → w `suffix_of` q →
          Z.testbit o (Z.of_nat i) = true).
Proof.
  intros Hb Hc Ho. pose proof Hb as [Hii _].
  destruct (closure_sem (goto ac) paths (out ac1) (out ac)
              (λ w z, ∃ i, z = Z.of_nat i ∧ words !! i = Some w)
              (built_trie _ _ _ _ Hb)) with (n := length q) (c := c) (q := q) (o := o)
    as [Hsound Hcompl]; try done.
  - intros c' o' q' z Ho' Hc'. rewrite (ii_out _ _ _ Hii _ _ z Ho'). split.
    + intros (i & w & -> & Hi & Hw). exists i. split; [done|congruence].
    + intros (i & -> & Hi). eauto.
  - intros w z (i & _ & Hi). apply (ii_words _ _ _ Hii). by eapply list_elem_of_lookup_2.
  - by destruct (built_root _ _ _ _ Hb).
  - intros c' p l Hc'. destruct (built_node _ _ _ _ _ _ _ Hb Hc') as (f & _ & ? & ? & _).
    eauto.
  - split.
    + intros z Hz. destruct (Hsound z Hz) as (w & (i & -> & Hi) & Hw). eauto.
    + intros i w Hi Hne Hw. apply (Hcompl w); eauto.
Qed.

(** The same for the lengths: bit [k] of [out_lens[c]]. *)
Lemma built_out_lens words ac1 ac paths c q o :
  built words ac1 ac paths → paths !! c = Some q → out_lens ac !! c = Some o →
  (∀ z, Z.testbit o z = true →
        ∃ w, z = Z.of_nat (length w) ∧ w ∈ words ∧ w `suffix_of` q) ∧
  (∀ w, w ∈ words → w ≠ [] → w `suffix_of` q →
        Z.testbit o (Z.of_nat (length w)) = true).
Proof.
  intros Hb Hc Ho. pose proof Hb as [Hii _].
  destruct (closure_sem (goto ac) paths (out_lens ac1) (out_lens ac)
              (λ w z, z = Z.of_nat (length w) ∧ w ∈ words)
              (built_trie _ _ _ _ Hb)) with (n := length q) (c := c) (q := q) (o := o)
    as [Hsound Hcompl]; try done.
  - intros c' o' q' z Ho' Hc'. rewrite (ii_lens _ _ _ Hii _ _ z Ho'). split.
    + intros (w & -> & Hi & Hw). assert (w = q') as -> by congruence. done.
    + intros (-> & Hi). eauto.
  - intros w z (_ & Hi). by apply (ii_words _ _ _ Hii).
  - by destruct (built_root _ _ _ _ Hb).
  - intros c' p l Hc'. destruct (built_node _ _ _ _ _ _ _ Hb Hc') as (f & _ & ? & _ & ?).
    eauto.
  - split.
    + intros z Hz. destruct (Hsound z Hz) as (w & (-> & Hi) & Hw). eauto.
    + intros w Hi Hne Hw. apply (Hcompl w); eauto.
Qed.
End OutSem.

(** ** The closure equations *)

Section ClosureEquations.
Context {A : Type} `{EqDecision A}.
Implicit Types words : list (list A).
Implicit Types ac : automaton A.
Implicit Types paths : list (list A).

Lemma direct_out_bit gt words j idx z :
  Z.testbit (direct_out gt words j idx) z = true ↔
  ∃ i w, z = Z.of_nat (idx + i) ∧ words !! i = Some w ∧ walk gt 0 w = Some j.
Proof.
  revert idx. induction words as [|w words IH]; intros idx; cbn [direct_out].
  { rewrite Z.bits_0. split; [done|by intros (? & ? & _ & ? & _)]. }
  rewrite Z.lor_spec, orb_true_iff, IH. split.
  - intros [Hz|(i & w' & -> & Hi & Hw')].
    + destruct (decide (walk gt 0 w = Some j)) as [Hw|_]; [|by rewrite Z.bits_0 in Hz].
      destruct (Z.lt_ge_cases z 0) as [Hneg|Hpos]; [by rewrite Z.testbit_neg_r in Hz|].
      rewrite Z.shiftl_1_l, Z.pow2_bits_eqb, Z.eqb_eq in Hz by lia.
      exists 0, w. split_and!; [lia|done..].
    + exists (S i), w'. split_and!; [lia|done..].
  - intros ([|i] & w' & -> & Hi & Hw'); simpl in Hi.
    + injection Hi as ->. left. rewrite decide_True by done.
      rewrite Z.shiftl_1_l, Z.pow2_bits_eqb, Z.eqb_eq by lia. lia.
    + right. exists i, w'. split_and!; [lia|done..].
Qed.

Lemma direct_lens_bit gt words j z :
  Z.testbit (direct_lens gt words j) z = true ↔
  ∃ w, z = Z.of_nat (length w) ∧ w ∈ words ∧ walk gt 0 w = Some j.
Proof.
  induction words as [|w words IH]; cbn [direct_lens].
  { rewrite Z.bits_0. split; [done|by intros (? & _ & ?%elem_of_nil & _)]. }
  rewrite Z.lor_spec, orb_true_iff, IH. split.
  - intros [Hz|(w' & -> & Hi & Hw')].
    + destruct (decide (walk gt 0 w = Some j)) as [Hw|_]; [|by rewrite Z.bits_0 in Hz].
      destruct (Z.lt_ge_cases z 0) as [Hneg|Hpos]; [by rewrite Z.testbit_neg_r in Hz|].
      rewrite Z.shiftl_1_l, Z.pow2_bits_eqb, Z.eqb_eq in Hz by lia.
      exists w. split_and!; [lia|by left|done].
    + exists w'. split_and!; [done|by right|done].
  - intros (w' & -> & [->|Hi]%elem_of_cons & Hw').
    + left. rewrite decide_True by done.
      rewrite Z.shiftl_1_l, Z.pow2_bits_eqb, Z.eqb_eq by lia. lia.
    + right. by exists w'.
Qed.

Lemma trie_inv_nonroot gt paths j q :
  trie_inv gt paths → paths !! j = Some q → j ≠ 0 → ∃ p l, q = p ++ [l].
Proof.
  intros Hti Hj Hne. destruct q as [|l q _] using rev_ind; [|eauto].
  destruct Hne. eapply trie_inv_inj; [done..|apply Hti].
Qed.

(** What [add_words] leaves at a node are the direct bits. *)
Lemma ins_inv_direct words ac1 paths j :
  ins_inv words ac1 paths → j < length paths →
  out ac1 !! j = Some (direct_out (goto ac1) words j 0) ∧
  out_lens ac1 !! j = Some (direct_lens (goto ac1) words j).
Proof.
  intros Hii Hj. pose proof (ii_trie _ _ _ Hii) as Hti.
  destruct (lookup_lt_is_Some_2 (out ac1) j) as [o Ho];
    [by rewrite (ii_out_len _ _ _ Hii)|].
  destruct (lookup_lt_is_Some_2 (out_lens ac1) j) as [ol Hol];
    [by rewrite (ii_lens_len _ _ _ Hii)|].
  rewrite Ho, Hol. split; f_equal; apply Z.bits_inj'; intros z _;
    apply eq_true_iff_eq.
  - rewrite (ii_out _ _ _ Hii _ _ z Ho), direct_out_bit.
    split; intros (i & w & -> & Hi & Hw); exists i, w; (split_and!; [done..|]).
    + by apply (walk_path _ _ w 0 [] Hti (ti_root _ _ Hti)).
    + by apply (walk_path _ _ w 0 [] Hti (ti_root _ _ Hti)) in Hw.
  - rewrite (ii_lens _ _ _ Hii _ _ z Hol), direct_lens_bit.
    split; intros (w & -> & Hi & Hw); exists w; (split_and!; [done..|]).
    + by apply (walk_path _ _ w 0 [] Hti (ti_root _ _ Hti)).
    + by apply (walk_path _ _ w 0 [] Hti (ti_root _ _ Hti)) in Hw.
Qed.

(** With no empty pattern the root has no bit. *)
Lemma ins_inv_root_bits words ac1 paths :
  ins_inv words ac1 paths → Forall (λ w, w ≠ []) words →
  out ac1 !! 0 = Some 0%Z ∧ out_lens ac1 !! 0 = Some 0%Z.
Proof.
  intros Hii Hne. pose proof (ii_trie _ _ _ Hii) as Hti.
  rewrite Forall_forall in Hne.
  assert (0 < length paths) by (apply (lookup_lt_Some _ _ _ (ti_root _ _ Hti))).
  destruct (lookup_lt_is_Some_2 (out ac1) 0) as [o Ho];
    [by rewrite (ii_out_len _ _ _ Hii)|].
  destruct (lookup_lt_is_Some_2 (out_lens ac1) 0) as [ol Hol];
    [by rewrite (ii_lens_len _ _ _ Hii)|].
  rewrite Ho, Hol. split; f_equal; apply Z.bits_inj'; intros z _; rewrite Z.bits_0;
    apply not_true_is_false.
  - intros (i & w & _ & Hi & Hw)%(ii_out _ _ _ Hii _ _ z Ho).
    rewrite (ti_root _ _ Hti) in Hw. injection Hw as <-.
    by eapply Hne; [eapply list_elem_of_lookup_2|].
  - intros (w & _ & Hi & Hw)%(ii_lens _ _ _ Hii _ _ z Hol).
    rewrite (ti_root _ _ Hti) in Hw. injection Hw as <-. by eapply Hne.
Qed.

(** The closure equations hold at every node but the root when no pattern
    is empty. *)
Lemma built_closure words ac1 ac paths j :
  built words ac1 ac paths → Forall (λ w, w ≠ []) words →
  0 < j < length (goto ac) → closure_at words ac j.
Proof.
  intros Hb Hne Hj. pose proof (built_trie _ _ _ _ Hb) as Hti.
  destruct (built_lengths _ _ _ _ Hb) as (Hgl & _ & _ & _).
  destruct (built_root _ _ _ _ Hb) as [Hr Hrl].
  pose proof Hb as [Hii [popped Hbi]].
  destruct (ins_inv_root_bits _ _ _ Hii Hne) as [Ho0 Hol0].
  destruct (ins_inv_direct _ _ _ j Hii) as [Hd Hdl]; [lia|].
  rewrite <-(bi_goto _ _ _ _ _ _ Hbi) in Hd, Hdl.
  destruct (lookup_lt_is_Some_2 paths j) as [q Hq]; [lia|].
  destruct (trie_inv_nonroot _ _ _ _ Hti Hq) as (p & l & ->); [lia|].
  destruct (built_node _ _ _ _ _ _ _ Hb Hq) as (f & Hf & Hlsuf & Hc & Hcl).
  unfold closure_at, closed in *. destruct (decide (p = [])) as [->|Hp].
  - assert (f = 0) as ->.
    { destruct Hlsuf as (q' & Hq' & Hsuf & _). simpl in Hsuf.
      apply suffix_nil_inv in Hsuf as ->.
      eapply trie_inv_inj; [done..|apply Hti]. }
    exists 0, 0%Z, 0%Z. rewrite Hr, Hrl, !Z.lor_0_r. split_and!; [done..| |]; congruence.
  - destruct Hc as (o1 & o_f & Ho1 & Hof & Ho).
    destruct Hcl as (l1 & l_f & Hl1 & Hlf & Hl).
    exists f, o_f, l_f. split_and!; [done..| |]; congruence.
Qed.
End ClosureEquations.

(** ** Bitsets *)

Lemma land_1_testbit (bm : Z) : Z.land bm 1 ≠ 0%Z ↔ Z.testbit bm 0 = true.
Proof.
  change 1%Z with (Z.ones 1) at 1. rewrite Z.land_ones by lia.
  rewrite Z.bit0_eqb, Z.eqb_eq. change (2 ^ 1)%Z with 2%Z.
  pose proof (Z.mod_pos_bound bm 2). lia.
Qed.

Lemma shiftr_1_testbit (bm : Z) (k : nat) :
  Z.testbit (Z.shiftr bm 1) (Z.of_nat k) = Z.testbit bm (Z.of_nat (S k)).
Proof. rewrite Z.shiftr_spec by lia. f_equal. lia. Qed.

(** A bitset with no bit at or above [b] is not negative. *)
Lemma bounded_bits_nonneg (bm b : Z) :
  (∀ z, Z.testbit bm z = true → (z < b)%Z) → (0 ≤ bm)%Z.
Proof.
  intros Hb. destruct (Z.lt_ge_cases bm 0) as [Hneg|]; [|done].
  set (n := Z.max b (Z.log2 (Z.abs bm) + 1)).
  assert (Z.testbit bm n = true) as Hn by (apply Z.bits_iff_neg; lia).
  apply Hb in Hn. lia.
Qed.

Section EventProofs.
Context {A : Type} `{EqDecision A}.
Implicit Types words : list (list A).
Implicit Types res : list (list A * list Z).
Implicit Types w : list A.

Lemma events_at_0 words i : events_at words 0 i = [].
Proof. induction words as [|w words IH]; [done|]. simpl. by rewrite Z.shiftr_0_l. Qed.

Lemma search_bits_events words bm i res :
  search_bits words bm i res = foldl record_event res (events_at words bm i).
Proof.
  revert bm res. induction words as [|w words IH]; intros bm res; [done|].
  cbn [search_bits events_at]. destruct (decide (bm = 0%Z)) as [->|Hne].
  { rewrite Z.shiftr_0_l, events_at_0. done. }
  rewrite IH, foldl_app. f_equal.
  destruct (decide (Z.land bm 1 ≠ 0%Z)) as [Hb|Hb].
  - apply land_1_testbit in Hb. by rewrite Hb.
  - rewrite land_1_testbit in Hb. by destruct (Z.testbit bm 0).
Qed.

Lemma elem_of_events_at words bm i w k :
  (w, k) ∈ events_at words bm i ↔
  ∃ idx, words !! idx = Some w ∧ Z.testbit bm (Z.of_nat idx) = true ∧
         k = (Z.of_nat i - Z.of_nat (length w) + 1)%Z.
Proof.
  revert bm. induction words as [|w0 words IH]; intros bm.
  { simpl. split; [by intros ?%elem_of_nil|by intros (? & ? & _)]. }
  cbn [events_at]. rewrite elem_of_app, IH. split.
  - intros [Hin|(idx & Hidx & Hb & ->)].
    + destruct (Z.testbit bm 0) eqn:Hb0; [|by apply elem_of_nil in Hin].
      apply list_elem_of_singleton in Hin as [= -> ->]. by exists 0.
    + exists (S idx). by rewrite <-shiftr_1_testbit.
  - intros ([|idx] & Hidx & Hb & ->); simpl in *.
    + left. injection Hidx as ->. rewrite Hb. left.
    + right. exists idx. by rewrite shiftr_1_testbit.
Qed.

Lemma events_at_end words bm i e : e ∈ events_at words bm i → ev_end e = Z.of_nat i.
Proof.
  destruct e as [w k]. intros (idx & _ & _ & ->)%elem_of_events_at.
  unfold ev_end. simpl. lia.
Qed.

(** The dictionary built from a list of events groups them by pattern,
    keeping their order. *)
Lemma record_event_get res e w :
  dict_get (record_event res e) w =
  if decide (e.1 = w) then Some (default [] (dict_get res w) ++ [e.2])
  else dict_get res w.
Proof.
  unfold record_event, dict_append. destruct (decide (e.1 = w)) as [<-|Hne].
  - apply dict_get_set_eq.
  - by apply dict_get_set_ne.
Qed.

Lemma record_events_get es res w :
  dict_get (foldl record_event res es) w =
  let l := (filter (λ e, e.1 = w) es).*2 in
  if decide (l = []) then dict_get res w
  else Some (default [] (dict_get res w) ++ l).
Proof.
  revert res. induction es as [|e es IH]; intros res; [done|].
  cbn [foldl]. rewrite IH, record_event_get, filter_cons. cbn zeta.
  destruct (decide (e.1 = w)) as [Hw|Hw]; [|done].
  rewrite fmap_cons. cbn [default].
  rewrite (decide_False (P := _ :: _ = [])) by done.
  destruct (decide (_ = [])) as [->|_]; simpl; [done|].
  by rewrite <-(assoc_L (++)).
Qed.

Lemma record_events_keys es res :
  NoDup res.*1 → NoDup (foldl record_event res es).*1.
Proof.
  revert res. induction es as [|e es IH]; intros res Hnd; [done|].
  apply IH. by apply dict_set_keys.
Qed.
End EventProofs.

(** ** Scanning a text *)

Section SearchProofs.
Context {A : Type} `{EqDecision A}.
Implicit Types words : list (list A).
Implicit Types ac : automaton A.
Implicit Types paths : list (list A).
Implicit Types res : list (list A * list Z).
Implicit Types w s x t : list A.

Lemma take_snoc_middle x (l : A) s : take (S (length x)) (x ++ l :: s) = x ++ [l].
Proof.
  rewrite (cons_middle l x s), (assoc_L (++)).
  apply take_app_length'. rewrite length_app. simpl. lia.
Qed.

Lemma scan_ok_cons paths arr x (l : A) s c bm bms :
  lsuf paths (x ++ [l]) c → arr !! c = Some bm →
  scan_ok paths arr ((x ++ [l]) ++ s) (length (x ++ [l])) bms →
  scan_ok paths arr (x ++ l :: s) (length x) (bm :: bms).
Proof.
  intros Hc Hbm Hbms [|k] bm' Hk; simpl in Hk.
  - injection Hk as <-. exists c. by rewrite Nat.add_0_r, take_snoc_middle.
  - destruct (Hbms k bm' Hk) as (c' & Hc' & Hbm'). exists c'.
    rewrite <-(assoc_L (++)), length_app in Hc'. simpl in Hc'.
    by replace (length x + S k) with (length x + 1 + k) by lia.
Qed.

Lemma lsuf_out words ac1 ac paths x c :
  built words ac1 ac paths → lsuf paths x c →
  is_Some (out ac !! c) ∧ is_Some (out_lens ac !! c).
Proof.
  intros Hb (q & Hq & _). apply lookup_lt_Some in Hq.
  destruct (built_lengths _ _ _ _ Hb) as (_ & _ & Ho & Hol).
  split; apply lookup_lt_is_Some_2; lia.
Qed.

(** [search] never fails; it records the events of the bitsets found along
    the text. *)
Lemma search_loop_spec words ac1 ac paths s x j res :
  built words ac1 ac paths → lsuf paths x j →
  ∃ bms, length bms = length s ∧
    search_loop ac words s (length x) j res =
      Some (foldl record_event res (events_from words bms (length x))) ∧
    scan_ok paths (out ac) (x ++ s) (length x) bms.
Proof.
  intros Hb. revert x j res. induction s as [|l s IH]; intros x j res Hj.
  { exists []. split_and!; [done..|]. by intros k bm ?. }
  destruct (built_findNext _ _ _ _ _ l _ Hb Hj) as (j1 & Hnext & Hj1).
  destruct (lsuf_out _ _ _ _ _ _ Hb Hj1) as [[bm Hbm] _].
  destruct (IH (x ++ [l]) j1 (search_bits words bm (length x) res) Hj1)
    as (bms & Hlen & Hloop & Hok).
  exists (bm :: bms). split_and!.
  - simpl. lia.
  - cbn [search_loop]. rewrite Hnext. cbn [mbind option_bind].
    rewrite Hbm. cbn [mbind option_bind].
    rewrite length_app, Nat.add_1_r in Hloop. rewrite Hloop.
    cbn [events_from]. by rewrite foldl_app, search_bits_events.
  - by eapply scan_ok_cons.
Qed.

Lemma elem_of_events_from words bms i w k :
  (w, k) ∈ events_from words bms i ↔
  ∃ n bm idx, bms !! n = Some bm ∧ words !! idx = Some w ∧
    Z.testbit bm (Z.of_nat idx) = true ∧
    k = (Z.of_nat (i + n) - Z.of_nat (length w) + 1)%Z.
Proof.
  revert i. induction bms as [|bm bms IH]; intros i.
  { simpl. split; [by intros ?%elem_of_nil|by intros (? & ? & ? & ? & _)]. }
  cbn [events_from]. rewrite elem_of_app, elem_of_events_at, IH. split.
  - intros [(idx & ? & ? & ->)|(n & bm' & idx & ? & ? & ? & ->)].
    + exists 0, bm, idx. by rewrite Nat.add_0_r.
    + exists (S n), bm', idx. split_and!; [done..|]. do 3 f_equal. lia.
  - intros ([|n] & bm' & idx & Hn & ? & ? & ->); simpl in Hn.
    + injection Hn as ->. left. exists idx. by rewrite Nat.add_0_r.
    + right. exists n, bm', idx. split_and!; [done..|]. do 3 f_equal. lia.
Qed.

Lemma events_from_ends words bms i :
  StronglySorted Z.le (ev_end <$> events_from words bms i) ∧
  Forall (λ e, (Z.of_nat i ≤ ev_end e)%Z) (events_from words bms i).
Proof.
  revert i. induction bms as [|bm bms IH]; intros i; [by split; constructor|].
  destruct (IH (S i)) as [Hs Hlb]. cbn [events_from]. split.
  - rewrite fmap_app. apply StronglySorted_app_2; [| |done].
    + intros z z' (e & -> & He)%list_elem_of_fmap (e' & -> & He')%list_elem_of_fmap.
      rewrite (events_at_end _ _ _ _ He).
      rewrite Forall_forall in Hlb. apply Hlb in He'. lia.
    + apply StronglySorted_all.
      intros z z' (e & -> & He)%list_elem_of_fmap (e' & -> & He')%list_elem_of_fmap.
      by rewrite (events_at_end _ _ _ _ He), (events_at_end _ _ _ _ He').
  - apply Forall_app. split.
    + apply Forall_forall. intros e He. by rewrite (events_at_end _ _ _ _ He).
    + eapply Forall_impl; [done|]. intros e He. simpl in He. lia.
Qed.

Lemma sorted_filter_starts (es : list (list A * Z)) w :
  StronglySorted Z.le (ev_end <$> es) →
  StronglySorted Z.le (filter (λ e, e.1 = w) es).*2.
Proof.
  induction es as [|e es IH]; [done|].
  rewrite fmap_cons. intros [Hall Hs]%StronglySorted_cons.
  rewrite filter_cons. destruct (decide (e.1 = w)) as [Hw|Hw]; [|by apply IH].
  rewrite fmap_cons. apply StronglySorted_cons. split; [|by apply IH].
  apply Forall_forall. intros k (e' & -> & [Hw' He']%list_elem_of_filter)%list_elem_of_fmap.
  rewrite Forall_forall in Hall.
  assert (ev_end e ≤ ev_end e')%Z as Hle by (apply Hall; by apply list_elem_of_fmap_2).
  unfold ev_end in Hle. rewrite Hw, Hw' in Hle. lia.
Qed.
End SearchProofs.

(** ** Reading the set bits of a bitset *)

Lemma bits_loop_spec fuel (bm : Z) idx :
  (0 ≤ bm < 2 ^ Z.of_nat fuel)%Z →
  ∃ l, bits_loop fuel bm idx = Some l ∧
    (∀ k, k ∈ l ↔ idx ≤ k ∧ Z.testbit bm (Z.of_nat (k - idx)) = true) ∧
    StronglySorted lt l.
Proof.
  revert bm idx. induction fuel as [|fuel IH]; intros bm idx Hbm.
  { assert (bm = 0%Z) as -> by (simpl in Hbm; lia). exists []. simpl.
    split_and!; [done| |constructor].
    intros k. rewrite Z.bits_0. split; [by intros ?%elem_of_nil|by intros [_ ?]]. }
  cbn [bits_loop]. destruct (decide (bm = 0%Z)) as [->|Hne].
  { exists []. split_and!; [done| |constructor].
    intros k. rewrite Z.bits_0. split; [by intros ?%elem_of_nil|by intros [_ ?]]. }
  destruct (IH (Z.shiftr bm 1) (S idx)) as (l & Hl & Hmem & Hsort).
  { rewrite Z.shiftr_div_pow2 by lia. change (2 ^ 1)%Z with 2%Z.
    rewrite Nat2Z.inj_succ, Z.pow_succ_r in Hbm by lia.
    split; [apply Z.div_pos; lia|apply Z.div_lt_upper_bound; lia]. }
  rewrite Hl. cbn [mbind option_bind].
  assert (∀ k, k ∈ l ↔ S idx ≤ k ∧ Z.testbit bm (Z.of_nat (k - idx)) = true) as Hmem'.
  { intros k. rewrite Hmem, shiftr_1_testbit. split.
    - intros [? Hk]. split; [done|]. by replace (k - idx) with (S (k - S idx)) by lia.
    - intros [? Hk]. split; [done|]. by replace (S (k - S idx)) with (k - idx) by lia. }
  destruct (decide (Z.land bm 1 ≠ 0%Z)) as [Hb|Hb]; rewrite land_1_testbit in Hb.
  - exists (idx :: l). split_and!; [done| |].
    + intros k. rewrite elem_of_cons, Hmem'. split.
      * intros [->|[? ?]]; [|split; [lia|done]].
        split; [done|]. by rewrite Nat.sub_diag.
      * intros [Hle Hk]. destruct (decide (k = idx)) as [->|]; [by left|].
        right. split; [lia|done].
    + apply StronglySorted_cons. split; [|done].
      apply Forall_forall. intros k [? _]%Hmem'. lia.
  - exists l. split_and!; [done| |done].
    intros k. rewrite Hmem'. split; [intros [? ?]; split; [lia|done]|].
    intros [Hle Hk]. split; [|done].
    destruct (decide (k = idx)) as [->|]; [|lia].
    by rewrite Nat.sub_diag in Hk.
Qed.

(** On a non-negative bitset the loop ends and lists the set bits in
    increasing order. *)
Lemma set_bits_spec (bm : Z) :
  (0 ≤ bm)%Z →
  ∃ l, set_bits bm = Some l ∧
    (∀ k, k ∈ l ↔ Z.testbit bm (Z.of_nat k) = true) ∧ StronglySorted lt l.
Proof.
  intros Hbm. destruct (bits_loop_spec (S (Z.to_nat (Z.log2 bm))) bm 0)
    as (l & Hl & Hmem & Hsort).
  { split; [done|]. rewrite Nat2Z.inj_succ, Z2Nat.id by apply Z.log2_nonneg.
    destruct (decide (bm = 0%Z)) as [->|]; [done|]. apply Z.log2_spec. lia. }
  exists l. split_and!; [done| |done].
  intros k. rewrite Hmem, Nat.sub_0_r. split; [by intros [_ ?]|]. split; [lia|done].
Qed.

Lemma sorted_lt_NoDup (l : list nat) : StronglySorted lt l → NoDup l.
Proof.
  induction 1 as [|k l _ IH Hall]; constructor; [|done].
  rewrite Forall_forall in Hall. intros Hk%Hall. lia.
Qed.

(** ** What the bitsets read along a text mean *)

Section ScanProofs.
Context {A : Type} `{EqDecision A}.
Implicit Types words : list (list A).
Implicit Types ac : automaton A.
Implicit Types paths : list (list A).
Implicit Types w s x t : list A.

Lemma lsuf_out_bits words ac1 ac paths t c bm :
  built words ac1 ac paths → lsuf paths t c → out ac !! c = Some bm →
  (∀ z, Z.testbit bm z = true →
        ∃ i w, z = Z.of_nat i ∧ words !! i = Some w ∧ w `suffix_of` t) ∧
  (∀ i w, words !! i = Some w → w ≠ [] → w `suffix_of` t →
          Z.testbit bm (Z.of_nat i) = true).
Proof.
  intros Hb (q & Hq & Hqt & Hmax) Hbm.
  destruct (built_out _ _ _ _ _ _ _ Hb Hq Hbm) as [Hsound Hcompl]. split.
  - intros z Hz. destruct (Hsound z Hz) as (i & w & -> & Hi & Hw).
    exists i, w. split_and!; [done..|]. by etrans.
  - intros i w Hi Hne Hw. apply (Hcompl i w Hi Hne).
    destruct Hb as [Hii _].
    assert (w ∈ paths) as [j Hj]%list_elem_of_lookup.
    { apply (ii_words _ _ _ Hii). by eapply list_elem_of_lookup_2. }
    by eapply Hmax.
Qed.

Lemma lsuf_out_lens_bits words ac1 ac paths t c bm :
  built words ac1 ac paths → lsuf paths t c → out_lens ac !! c = Some bm →
  (∀ z, Z.testbit bm z = true →
        ∃ w, z = Z.of_nat (length w) ∧ w ∈ words ∧ w `suffix_of` t) ∧
  (∀ w, w ∈ words → w ≠ [] → w `suffix_of` t →
        Z.testbit bm (Z.of_nat (length w)) = true).
Proof.
  intros Hb (q & Hq & Hqt & Hmax) Hbm.
  destruct (built_out_lens _ _ _ _ _ _ _ Hb Hq Hbm) as [Hsound Hcompl]. split.
  - intros z Hz. destruct (Hsound z Hz) as (w & -> & Hi & Hw).
    exists w. split_and!; [done..|]. by etrans.
  - intros w Hi Hne Hw. apply (Hcompl w Hi Hne).
    destruct Hb as [Hii _].
    assert (w ∈ paths) as [j Hj]%list_elem_of_lookup by by apply (ii_words _ _ _ Hii).
    by eapply Hmax.
Qed.

(** The bitsets of a built automaton are not negative. *)
Lemma lsuf_out_nonneg words ac1 ac paths t c bm :
  built words ac1 ac paths → lsuf paths t c → out ac !! c = Some bm → (0 ≤ bm)%Z.
Proof.
  intros Hb Hc Hbm. apply (bounded_bits_nonneg bm (Z.of_nat (length words))).
  intros z Hz. destruct (lsuf_out_bits _ _ _ _ _ _ _ Hb Hc Hbm) as [Hsound _].
  destruct (Hsound z Hz) as (i & w & -> & Hi%lookup_lt_Some & _). lia.
Qed.

Lemma lsuf_out_lens_nonneg words ac1 ac paths t c bm :
  built words ac1 ac paths → lsuf paths t c → out_lens ac !! c = Some bm →
  (0 ≤ bm)%Z.
Proof.
  intros Hb Hc Hbm. apply (bounded_bits_nonneg bm (Z.of_nat (S (length t)))).
  intros z Hz. destruct (lsuf_out_lens_bits _ _ _ _ _ _ _ Hb Hc Hbm) as [Hsound _].
  destruct (Hsound z Hz) as (w & -> & _ & Hw%suffix_length). lia.
Qed.

(** [searchEndIndices] never fails: it yields every position of the text
    in turn, with the set bits of the bitset read there. *)
Lemma searchEndIndices_loop_spec words ac1 ac paths s x j :
  built words ac1 ac paths → lsuf paths x j →
  ∃ bms ys, length bms = length s ∧
    scan_ok paths (out ac) (x ++ s) (length x) bms ∧
    searchEndIndices_loop ac s (length x) j = Some ys ∧
    ys.*1 = seq (length x) (length s) ∧
    Forall2 (λ bm y, (∀ k, k ∈ y.2 ↔ Z.testbit bm (Z.of_nat k) = true) ∧
                     StronglySorted lt y.2) bms ys.
Proof.
  intros Hb. revert x j. induction s as [|l s IH]; intros x j Hj.
  { exists [], []. split_and!; [done| |done..|constructor]. by intros k bm ?. }
  destruct (built_findNext _ _ _ _ _ l _ Hb Hj) as (j1 & Hnext & Hj1).
  destruct (lsuf_out _ _ _ _ _ _ Hb Hj1) as [[bm Hbm] _].
  destruct (set_bits_spec bm) as (ids & Hids & Hmem & Hsort).
  { by eapply lsuf_out_nonneg. }
  destruct (IH (x ++ [l]) j1 Hj1) as (bms & ys & Hlen & Hok & Hloop & Hfst & Hall).
  rewrite length_app, Nat.add_1_r in Hloop, Hfst.
  exists (bm :: bms), ((length x, ids) :: ys). split_and!.
  - simpl. lia.
  - by eapply scan_ok_cons.
  - cbn [searchEndIndices_loop]. rewrite Hnext. cbn [mbind option_bind].
    rewrite Hbm. cbn [mbind option_bind]. rewrite Hids. cbn [mbind option_bind].
    by rewrite Hloop.
  - rewrite fmap_cons. cbn [seq length fst]. by f_equal.
  - by constructor.
Qed.

(** Likewise [searchLengths], on the length bitsets. *)
Lemma searchLengths_loop_spec words ac1 ac paths s x j :
  built words ac1 ac paths → lsuf paths x j →
  ∃ bms ys, length bms = length s ∧
    scan_ok paths (out_lens ac) (x ++ s) (length x) bms ∧
    searchLengths_loop ac s j = Some ys ∧
    Forall2 (λ bm y, (∀ k, k ∈ y ↔ Z.testbit bm (Z.of_nat k) = true) ∧
                     StronglySorted lt y) bms ys.
Proof.
  intros Hb. revert x j. induction s as [|l s IH]; intros x j Hj.
  { exists [], []. split_and!; [done| |done|constructor]. by intros k bm ?. }
  destruct (built_findNext _ _ _ _ _ l _ Hb Hj) as (j1 & Hnext & Hj1).
  destruct (lsuf_out _ _ _ _ _ _ Hb Hj1) as [_ [bm Hbm]].
  destruct (set_bits_spec bm) as (ids & Hids & Hmem & Hsort).
  { by eapply lsuf_out_lens_nonneg. }
  destruct (IH (x ++ [l]) j1 Hj1) as (bms & ys & Hlen & Hok & Hloop & Hall).
  exists (bm :: bms), (ids :: ys). split_and!.
  - simpl. lia.
  - by eapply scan_ok_cons.
  - cbn [searchLengths_loop]. rewrite Hnext. cbn [mbind option_bind].
    rewrite Hbm. cbn [mbind option_bind]. rewrite Hids. cbn [mbind option_bind].
    by rewrite Hloop.
  - by constructor.
Qed.
End ScanProofs.

(** ** The result of [search] *)

Section SearchResult.
Context {A : Type} `{EqDecision A}.
Implicit Types words : list (list A).
Implicit Types ac : automaton A.
Implicit Types paths : list (list A).
Implicit Types w s x t : list A.

(** The dictionary returned by [search]: under each pattern, the starts of
    the events recorded for it, in the order of the scan; a pattern with
    no event is no key. *)
Lemma search_result words ac1 ac paths s :
  built words ac1 ac paths →
  ∃ bms res, length bms = length s ∧ scan_ok paths (out ac) s 0 bms ∧
    search ac words s = Some res ∧ NoDup res.*1 ∧
    ∀ w, dict_get res w =
         let l := (filter (λ e, e.1 = w) (events_from words bms 0)).*2 in
         if decide (l = []) then None else Some l.
Proof.
  intros Hb.
  destruct (search_loop_spec _ _ _ _ s [] 0 [] Hb (lsuf_root _ _ (built_trie _ _ _ _ Hb)))
    as (bms & Hlen & Hs & Hok).
  exists bms, (foldl record_event [] (events_from words bms 0)).
  split_and!; [done..| |].
  - apply record_events_keys. constructor.
  - intros w. by rewrite record_events_get.
Qed.

Lemma search_result_elem (res : list (list A * list Z)) (es : list (list A * Z)) w k :
  dict_get res w =
    (let l := (filter (λ e, e.1 = w) es).*2 in
     if decide (l = []) then None else Some l) →
  (∃ l, dict_get res w = Some l ∧ k ∈ l) ↔ (w, k) ∈ es.
Proof.
  intros ->. cbn zeta. split.
  - intros (l & Hl & Hk). destruct (decide (_ = [])); [done|]. injection Hl as <-.
    apply list_elem_of_fmap in Hk as ([w' k'] & -> & [Hw He]%list_elem_of_filter).
    simpl in Hw. by subst.
  - intros He. assert (k ∈ (filter (λ e, e.1 = w) es).*2) as Hk.
    { apply list_elem_of_fmap. exists (w, k). split; [done|].
      by apply list_elem_of_filter. }
    destruct (decide (_ = [])) as [Hnil|_]; [rewrite Hnil in Hk; by apply elem_of_nil in Hk|].
    eauto.
Qed.

(** Every event of a scan is a pattern ending at a position of the text. *)
Lemma scan_event_sound words ac1 ac paths s bms w k :
  built words ac1 ac paths → length bms = length s →
  scan_ok paths (out ac) s 0 bms → (w, k) ∈ events_from words bms 0 →
  ∃ idx e, words !! idx = Some w ∧ e < length s ∧
    w `suffix_of` take (S e) s ∧
    k = (Z.of_nat e - Z.of_nat (length w) + 1)%Z.
Proof.
  intros Hb Hlen Hok (e & bm & idx & He & Hidx & Hbit & ->)%elem_of_events_from.
  destruct (Hok e bm He) as (c & Hc & Hbm). simpl in Hc.
  destruct (lsuf_out_bits _ _ _ _ _ _ _ Hb Hc Hbm) as [Hsound _].
  destruct (Hsound _ Hbit) as (idx' & w' & Hz & Hidx' & Hw').
  assert (idx' = idx) as -> by lia. assert (w' = w) as -> by congruence.
  exists idx, e. split_and!; [done| |done|done].
  apply lookup_lt_Some in He. lia.
Qed.

(** Every non-empty pattern ending at a position of the text is an event. *)
Lemma scan_event_complete words ac1 ac paths s bms idx w e :
  built words ac1 ac paths → length bms = length s →
  scan_ok paths (out ac) s 0 bms →
  words !! idx = Some w → w ≠ [] → e < length s → w `suffix_of` take (S e) s →
  ∃ bm, bms !! e = Some bm ∧ Z.testbit bm (Z.of_nat idx) = true ∧
    (w, (Z.of_nat e - Z.of_nat (length w) + 1)%Z) ∈ events_from words bms 0.
Proof.
  intros Hb Hlen Hok Hidx Hne He Hw.
  destruct (lookup_lt_is_Some_2 bms e) as [bm Hbm]; [lia|].
  destruct (Hok e bm Hbm) as (c & Hc & Hout). simpl in Hc.
  destruct (lsuf_out_bits _ _ _ _ _ _ _ Hb Hc Hout) as [_ Hcompl].
  pose proof (Hcompl idx w Hidx Hne Hw) as Hbit.
  exists bm. split_and!; [done..|].
  apply elem_of_events_from. by exists e, bm, idx.
Qed.

(** A start index is in the output of KMP exactly when the pattern occurs
    there. *)
Lemma elem_of_matchStartGenerator w s k :
  (∃ l, matchStartGenerator w s = Some l ∧ k ∈ l) ↔
  ∃ i, k = Z.of_nat i ∧ i < length s ∧ occurs_at w s i.
Proof.
  rewrite kmp_brute_force. unfold brute_force. split.
  - intros (l & [= <-] & (i & -> & [Hocc Hi%elem_of_seq]%list_elem_of_filter)%list_elem_of_fmap).
    exists i. split_and!; [done|lia|done].
  - intros (i & -> & Hi & Hocc). eexists. split; [done|].
    apply list_elem_of_fmap. exists i. split; [done|].
    apply list_elem_of_filter. split; [done|]. apply elem_of_seq. lia.
Qed.

Lemma occurs_at_length w s i : w ≠ [] → occurs_at w s i → i + length w ≤ length s.
Proof.
  unfold occurs_at. intros Hne Hocc.
  assert (0 < length w) by (destruct w; [done|simpl; lia]).
  assert (length (take (length w) (drop i s)) = length w) as Hlen by by rewrite Hocc.
  rewrite length_take, length_drop in Hlen. lia.
Qed.

(** For a non-empty pattern, ending at position [e] is occurring at
    [e - len(w) + 1]. *)
Lemma ends_at_occurs w s k :
  w ≠ [] →
  (∃ e, e < length s ∧ w `suffix_of` take (S e) s ∧
        k = (Z.of_nat e - Z.of_nat (length w) + 1)%Z) ↔
  ∃ i, k = Z.of_nat i ∧ i < length s ∧ occurs_at w s i.
Proof.
  intros Hne. assert (0 < length w) by (destruct w; [done|simpl; lia]). split.
  - intros (e & He & Hw & ->). apply suffix_take_occurs in Hw as [(Hle & Hocc & _)|?]; [|done..].
    exists (e - (length w - 1)). split_and!; [lia|lia|done].
  - intros (i & -> & Hi & Hocc). pose proof (occurs_at_length _ _ _ Hne Hocc).
    exists (i + length w - 1). split_and!; [lia| |lia].
    apply suffix_take_occurs; [lia|]. left. split_and!; [lia| |done].
    by replace (i + length w - 1 - (length w - 1)) with i by lia.
Qed.
End SearchResult.

(** ** Patterns given once, patterns given twice *)

Section Duplicates.
Context {A : Type} `{EqDecision A}.
Implicit Types words : list (list A).
Implicit Types w : list A.

Lemma filter_none {X} (P : X → Prop) `{∀ x, Decision (P x)} (l : list X) :
  (∀ x, x ∈ l → ¬ P x) → filter P l = [].
Proof.
  induction l as [|x l IH]; intros Hl; [done|].
  rewrite filter_cons_False by (apply Hl; left).
  apply IH. intros y Hy. apply Hl. by right.
Qed.

Lemma events_at_words words bm i e : e ∈ events_at words bm i → e.1 ∈ words.
Proof.
  destruct e as [w k]. intros (idx & Hidx & _)%elem_of_events_at.
  by eapply list_elem_of_lookup_2.
Qed.

(** A pattern given once is recorded at most once at a position. *)
Lemma events_at_once words bm i w :
  NoDup words → length (filter (λ e, e.1 = w) (events_at words bm i)) ≤ 1.
Proof.
  revert bm. induction words as [|w0 words IH]; intros bm; [simpl; lia|].
  intros [Hw0 Hnd]%NoDup_cons. cbn [events_at]. rewrite filter_app, length_app.
  destruct (decide (w0 = w)) as [->|Hne].
  - assert (filter (λ e, e.1 = w) (events_at words (Z.shiftr bm 1) i) = []) as ->.
    { apply filter_none. intros e He%events_at_words ?. by subst. }
    destruct (Z.testbit bm 0); simpl; [|lia].
    rewrite filter_cons_True by done. simpl. lia.
  - specialize (IH (Z.shiftr bm 1) Hnd).
    destruct (Z.testbit bm 0); simpl; [|lia].
    rewrite filter_cons_False by done. simpl. lia.
Qed.

(** The starts recorded for a pattern given once increase strictly. *)
Lemma starts_strict words bms i w :
  NoDup words →
  StronglySorted Z.lt (filter (λ e, e.1 = w) (events_from words bms i)).*2.
Proof.
  intros Hnd. revert i. induction bms as [|bm bms IH]; intros i; [constructor|].
  cbn [events_from]. rewrite filter_app, fmap_app.
  apply StronglySorted_app_2; [| |apply IH].
  - intros k k' (e & -> & [He1 He]%list_elem_of_filter)%list_elem_of_fmap
                (e' & -> & [He1' He']%list_elem_of_filter)%list_elem_of_fmap.
    apply events_at_end in He.
    destruct (events_from_ends words bms (S i)) as [_ Hlb].
    rewrite Forall_forall in Hlb. apply Hlb in He'.
    unfold ev_end in He, He'. rewrite He1 in He. rewrite He1' in He'. lia.
  - pose proof (events_at_once words bm i w Hnd) as Hlen.
    destruct (filter _ (events_at words bm i)) as [|e [|e' r]]; simpl in *;
      [constructor|repeat constructor|lia].
Qed.

Lemma elem_of_sublist {X} (x : X) (l : list X) : x ∈ l → [x] `sublist_of` l.
Proof.
  intros (l1 & l2 & ->)%list_elem_of_split.
  apply sublist_inserts_l, sublist_skip, sublist_nil_l.
Qed.

(** Two set bits give two events, in index order. *)
Lemma events_at_pair words bm i k1 k2 w1 w2 :
  k1 < k2 → words !! k1 = Some w1 → words !! k2 = Some w2 →
  Z.testbit bm (Z.of_nat k1) = true → Z.testbit bm (Z.of_nat k2) = true →
  [(w1, (Z.of_nat i - Z.of_nat (length w1) + 1)%Z);
   (w2, (Z.of_nat i - Z.of_nat (length w2) + 1)%Z)]
    `sublist_of` events_at words bm i.
Proof.
  revert bm k1 k2. induction words as [|w words IH]; intros bm k1 k2 Hlt H1 H2 Hb1 Hb2;
    [done|].
  destruct k2 as [|k2]; [lia|]. cbn [events_at]. simpl in H2.
  rewrite <-shiftr_1_testbit in Hb2. destruct k1 as [|k1].
  - injection H1 as ->. change (Z.of_nat 0) with 0%Z in Hb1. rewrite Hb1.
    simpl. apply sublist_skip, elem_of_sublist, elem_of_events_at. eauto.
  - simpl in H1. rewrite <-shiftr_1_testbit in Hb1.
    apply sublist_inserts_l. apply (IH _ k1 k2); [lia|done..].
Qed.

Lemma events_from_position words bms i n bm :
  bms !! n = Some bm →
  events_at words bm (i + n) `sublist_of` events_from words bms i.
Proof.
  revert i n. induction bms as [|bm' bms IH]; intros i n Hn; [done|].
  cbn [events_from]. destruct n as [|n]; simpl in Hn.
  - injection Hn as ->. rewrite Nat.add_0_r. by apply sublist_inserts_r.
  - apply sublist_inserts_l. replace (i + S n) with (S i + n) by lia. by apply IH.
Qed.

Lemma filter_sublist {X} (P : X → Prop) `{∀ x, Decision (P x)} (l1 l2 : list X) :
  l1 `sublist_of` l2 → filter P l1 `sublist_of` filter P l2.
Proof.
  induction 1 as [|x l1 l2 _ IH|x l1 l2 _ IH]; [constructor| |].
  - rewrite !filter_cons. destruct (decide (P x)); [by constructor|done].
  - rewrite filter_cons. destruct (decide (P x)); [by constructor|done].
Qed.
End Duplicates.

(** * addBoldTag *)

(** ** The heap *)

Lemma heap_min_elem h m : heap_min h = Some m → m ∈ h.
Proof.
  revert m. induction h as [|e h IH]; intros m; simpl; [done|].
  destruct (heap_min h) as [m'|]; [|intros [= <-]; left].
  intros [= <-]. destruct (entry_ltb m' e); [right; by apply IH|left].
Qed.

Lemma heap_min_cons e h : is_Some (heap_min (e :: h)).
Proof. simpl. destruct (heap_min h); eauto. Qed.

Lemma heap_remove_perm m h : m ∈ h → h ≡ₚ m :: heap_remove m h.
Proof.
  induction h as [|e h IH]; [by intros ?%elem_of_nil|].
  simpl. destruct (decide (e = m)) as [->|Hne]; [done|].
  intros [?|Hin]%elem_of_cons; [by subst|].
  rewrite (IH Hin) at 1. apply Permutation_swap.
Qed.

(** Taking the least element off a heap that is not empty. *)
Lemma heappop_spec e h :
  ∃ m h1, heappop (e :: h) = Some (m, h1) ∧ e :: h ≡ₚ m :: h1.
Proof.
  unfold heappop. destruct (heap_min_cons e h) as [m Hm]. rewrite Hm.
  exists m, (heap_remove m (e :: h)). split; [done|].
  by apply heap_remove_perm, heap_min_elem.
Qed.

(** ** Python slices at indices within the sequence *)

Lemma py_slice_inner {X} (s : list X) (a b : Z) :
  (0 ≤ a ≤ b)%Z → (b ≤ Z.of_nat (length s))%Z →
  py_slice s a b = take (Z.to_nat b - Z.to_nat a) (drop (Z.to_nat a) s) ∧
  length (py_slice s a b) = Z.to_nat b - Z.to_nat a.
Proof.
  intros Hab Hb. unfold py_slice, py_bound.
  destruct (Z.ltb_spec a 0); [lia|]. destruct (Z.ltb_spec b 0); [lia|].
  rewrite !Nat.min_l by lia. split; [done|].
  rewrite length_take, length_drop. lia.
Qed.

Lemma take_py_slice {X} (s : list X) (a b : Z) :
  (0 ≤ a ≤ b)%Z → (b ≤ Z.of_nat (length s))%Z →
  take (Z.to_nat a) s ++ py_slice s a b = take (Z.to_nat b) s.
Proof.
  intros Hab Hb. destruct (py_slice_inner s a b Hab Hb) as [-> _].
  rewrite take_take_drop. f_equal. lia.
Qed.

(** ** Merging the starts of a pattern into ranges *)

Section Ranges.
Variable n : nat.

Lemma add_start_spec (len : Z) (rs : list (Z * Z)) (j : Z) :
  (0 ≤ len)%Z → (0 ≤ j)%Z → (j + len ≤ Z.of_nat n)%Z →
  Forall (range_ok n) rs → Forall (λ r, r.1 ≤ j)%Z rs →
  Forall (range_ok n) (add_start len rs j) ∧
  Forall (λ r, r.1 ≤ j)%Z (add_start len rs j) ∧
  add_start len rs j ≠ [].
Proof.
  intros Hlen Hj Hjn Hok Hle. unfold add_start.
  assert (range_ok n (j, (j + len)%Z)) as Hnew by (unfold range_ok; simpl; lia).
  destruct (list.last rs) as [[a b]|] eqn:Hlast.
  - destruct (decide (j > b)%Z).
    + split_and!; [apply Forall_app_2; [done|by apply Forall_singleton]| |by destruct rs].
      apply Forall_app_2; [done|]. apply Forall_singleton. simpl. lia.
    + apply last_Some in Hlast as [rs' ->].
      apply Forall_app in Hok as [Hok [Hab _]%Forall_cons].
      apply Forall_app in Hle as [Hle [Ha _]%Forall_cons].
      rewrite length_app, Nat.add_sub. simpl in Ha.
      rewrite insert_app_r_alt, Nat.sub_diag by done. cbn [insert list_insert].
      split_and!; [| |by destruct rs'].
      * apply Forall_app_2; [done|]. apply Forall_singleton.
        unfold range_ok in *. simpl in *. lia.
      * apply Forall_app_2; [done|]. by apply Forall_singleton.
  - split_and!; [apply Forall_app_2; [done|by apply Forall_singleton]| |by destruct rs].
    apply Forall_app_2; [done|]. apply Forall_singleton. simpl. lia.
Qed.

Lemma add_starts_spec (len : Z) (starts : list Z) (rs : list (Z * Z)) :
  (0 ≤ len)%Z → StronglySorted Z.le starts →
  Forall (λ j, 0 ≤ j ∧ j + len ≤ Z.of_nat n)%Z starts →
  Forall (range_ok n) rs → Forall (λ r, Forall (λ j, r.1 ≤ j)%Z starts) rs →
  Forall (range_ok n) (foldl (add_start len) rs starts) ∧
  (starts ≠ [] → foldl (add_start len) rs starts ≠ []).
Proof.
  intros Hlen. revert rs.
  induction starts as [|j starts IH]; intros rs Hs Hin Hok Hle; [done|].
  apply StronglySorted_cons in Hs as [Hjs Hs].
  apply Forall_cons in Hin as [[Hj Hjn] Hin].
  destruct (add_start_spec len rs j) as (Hok' & Hle' & Hne'); [done..| |].
  { eapply Forall_impl; [done|]. by intros r [? _]%Forall_cons. }
  cbn [foldl]. destruct (IH (add_start len rs j)) as [Hres Hne]; [done..| |].
  { eapply Forall_impl; [done|]. intros r Hr. simpl in Hr.
    eapply Forall_impl; [exact Hjs|]. intros j' Hj'. simpl in Hj'. lia. }
  split; [done|]. intros _. destruct starts as [|j' starts]; [done|].
  by apply Hne.
Qed.
End Ranges.

(** ** The elements of the heap *)

Section HeapEntries.
Variable n : nat.
Variable rngs : list (list (Z * Z)).
Hypothesis rngs_ok : Forall (Forall (range_ok n)) rngs.

Lemma entry_ok_range i1 neg_i2 j idx :
  entry_ok rngs (i1, neg_i2, j, idx) → range_ok n (i1, (- neg_i2)%Z).
Proof.
  intros (_ & _ & r & Hr & Hj).
  eapply Forall_lookup_1 in Hr; [|exact rngs_ok].
  by eapply Forall_lookup_1 in Hj.
Qed.

Lemma entry_ok_weight i1 neg_i2 j idx :
  entry_ok rngs (i1, neg_i2, j, idx) → 0 < entry_weight rngs (i1, neg_i2, j, idx).
Proof.
  intros (_ & _ & r & Hr & Hj%lookup_lt_Some).
  unfold entry_weight. simpl. rewrite Hr. simpl. lia.
Qed.

(** Pushing the next range of the pattern whose range was popped: the
    heap keeps elements that stand for ranges, and has less to bring in
    than before the pop. *)
Lemma push_next_spec heap i1 neg_i2 j idx :
  entry_ok rngs (i1, neg_i2, j, idx) → Forall (entry_ok rngs) heap →
  ∃ heap', push_next rngs heap j idx = Some heap' ∧
    Forall (entry_ok rngs) heap' ∧
    sum_list_with (entry_weight rngs) heap' <
    sum_list_with (entry_weight rngs) ((i1, neg_i2, j, idx) :: heap).
Proof.
  intros He Hheap. pose proof (entry_ok_weight _ _ _ _ He) as Hw.
  destruct He as (Hj & Hidx & r & Hr & Hrj).
  unfold push_next. rewrite <-(Z2Nat.id idx), py_get_nat, Hr by done.
  cbn [mbind option_bind]. rewrite Z2Nat.id by done.
  destruct (decide (j + 1 < Z.of_nat (length r))%Z) as [Hlt|Hge].
  - destruct (lookup_lt_is_Some_2 r (Z.to_nat (j + 1))) as [[a b] Hab]; [lia|].
    rewrite <-(Z2Nat.id (j + 1)), py_get_nat, Hab by lia.
    cbn [mbind option_bind]. rewrite Z2Nat.id by lia.
    eexists. split; [done|]. split.
    + apply Forall_cons. split; [|done].
      split_and!; [lia|done|]. exists r. by rewrite Z.opp_involutive.
    + unfold heappush. cbn [sum_list_with]. unfold entry_weight at 1 3.
      simpl. rewrite Hr. simpl. lia.
  - exists heap. split_and!; [done..|]. simpl. lia.
Qed.
End HeapEntries.

(** The first heap has one element for every pattern found. *)
Lemma init_heap_spec (pre rest : list (list (Z * Z))) :
  Forall (λ r, r ≠ []) rest →
  ∃ h, init_heap rest (length pre) = Some h ∧
    Forall (entry_ok (pre ++ rest)) h ∧ length h = length rest ∧
    sum_list_with (entry_weight (pre ++ rest)) h = length (concat rest).
Proof.
  revert pre. induction rest as [|r rest IH]; intros pre Hne.
  { exists []. by split_and!. }
  apply Forall_cons in Hne as [Hr Hne].
  destruct (IH (pre ++ [r]) Hne) as (h & Hh & Hok & Hlen & Hsum).
  rewrite length_app, Nat.add_1_r in Hh. rewrite <-(assoc_L (++)) in Hok, Hsum.
  destruct r as [|[a b] r]; [done|].
  cbn [init_heap lookup list_lookup mbind option_bind]. rewrite Hh.
  cbn [mbind option_bind]. eexists. split; [done|].
  assert ((pre ++ ((a, b) :: r) :: rest) !! length pre = Some ((a, b) :: r)) as Hpre.
  { by rewrite lookup_app_r, Nat.sub_diag by done. }
  split_and!.
  - apply Forall_cons. split; [|done].
    split_and!; [done|lia|]. exists ((a, b) :: r).
    rewrite Nat2Z.id, Z.opp_involutive. done.
  - simpl. lia.
  - cbn [sum_list_with]. simpl in Hsum. rewrite Hsum.
    unfold entry_weight. simpl. rewrite Nat2Z.id, Hpre. simpl.
    rewrite length_app. lia.
Qed.

(** ** The loop over the heap *)

Section BoldLoop.
Context {A : Type} `{EqDecision A}.
Implicit Types s : list A.
Implicit Types res : list (piece A).

Lemma strip_app res1 res2 : strip (res1 ++ res2) = strip res1 ++ strip res2.
Proof. unfold strip. by rewrite fmap_app, concat_app. Qed.

Lemma read_pieces_app res1 res2 :
  read_pieces (res1 ++ res2) = foldl read_piece (read_pieces res1) res2.
Proof. apply foldl_app. Qed.

Lemma sorted_spans_snoc (sp : list (nat * nat)) a b c :
  StronglySorted (λ u v, u.2 < v.1) sp → Forall (λ u, u.1 ≤ u.2 < a) sp →
  a ≤ b → b < c →
  StronglySorted (λ u v, u.2 < v.1) (sp ++ [(a, b)]) ∧
  Forall (λ u, u.1 ≤ u.2 < c) (sp ++ [(a, b)]).
Proof.
  intros Hs Hall Hab Hbc. rewrite Forall_forall in Hall. split.
  - apply StronglySorted_app_2; [|done|repeat constructor].
    intros u v Hu ->%list_elem_of_singleton. apply Hall in Hu. simpl. lia.
  - apply Forall_app_2; [|apply Forall_singleton; simpl; lia].
    apply Forall_forall. intros u Hu%Hall. lia.
Qed.

(** Closing the span that is open and opening the next one at [i1]. *)
Lemma bold_inv_next s res bs_i be_i i1 i2 :
  bold_inv s res bs_i be_i → (be_i < i1)%Z → range_ok (length s) (i1, i2) →
  bold_inv s (res ++ [Lit (py_slice s bs_i be_i); Close;
                      Lit (py_slice s be_i i1); Open]) i1 i2.
Proof.
  intros [[Hb Hbn] Hstrip (sp & Hread & Hs & Hall)] Hlt [Hi Hin]. simpl in Hi, Hin.
  destruct (py_slice_inner s bs_i be_i) as [_ Hl1]; [lia..|].
  destruct (py_slice_inner s be_i i1) as [_ Hl2]; [lia..|].
  split.
  - split; [lia|done].
  - rewrite strip_app, Hstrip. unfold strip. simpl. rewrite app_nil_r.
    rewrite (assoc_L (++)), take_py_slice by lia. apply take_py_slice; lia.
  - destruct (sorted_spans_snoc sp (Z.to_nat bs_i) (Z.to_nat be_i) (Z.to_nat i1))
      as [Hs' Hall']; [done..|lia|lia|].
    exists (sp ++ [(Z.to_nat bs_i, Z.to_nat be_i)]). split_and!; [|done..].
    rewrite read_pieces_app, Hread. simpl. rewrite Hl1, Hl2.
    replace (Z.to_nat bs_i + (Z.to_nat be_i - Z.to_nat bs_i))
      with (Z.to_nat be_i) by lia.
    by replace (Z.to_nat be_i + (Z.to_nat i1 - Z.to_nat be_i))
      with (Z.to_nat i1) by lia.
Qed.

(** Extending the span that is open. *)
Lemma bold_inv_extend s res bs_i be_i be_i' :
  bold_inv s res bs_i be_i → (be_i ≤ be_i')%Z → (be_i' ≤ Z.of_nat (length s))%Z →
  bold_inv s res bs_i be_i'.
Proof. intros [[Hb Hbn] Hstrip Hread] Hle Hn. split; [lia|done..]. Qed.

(** The loop ends before its fuel does, and keeps the invariant. *)
Lemma bold_loop_spec fuel s rngs heap res bs_i be_i :
  Forall (Forall (range_ok (length s))) rngs →
  Forall (entry_ok rngs) heap →
  sum_list_with (entry_weight rngs) heap ≤ fuel →
  bold_inv s res bs_i be_i →
  ∃ res' bs_i' be_i',
    bold_loop fuel s rngs heap res bs_i be_i = Some (res', bs_i', be_i') ∧
    bold_inv s res' bs_i' be_i'.
Proof.
  intros Hrngs. revert heap res bs_i be_i.
  induction fuel as [|fuel IH]; intros heap res bs_i be_i Hheap Hfuel Hinv.
  { destruct heap as [|[[[i1 neg_i2] j] idx] heap]; [by eexists _, _, _|].
    apply Forall_cons in Hheap as [He%entry_ok_weight _].
    cbn [sum_list_with] in Hfuel. lia. }
  destruct heap as [|e heap]; [by eexists _, _, _|].
  destruct (heappop_spec e heap) as ([[[i1 neg_i2] j] idx] & heap1 & Hpop & Hperm).
  cbn [bold_loop]. rewrite Hpop. cbn [mbind option_bind].
  rewrite Hperm in Hheap, Hfuel. apply Forall_cons in Hheap as [He Hheap].
  pose proof (entry_ok_range _ _ Hrngs _ _ _ _ He) as Hrange.
  destruct (push_next_spec rngs heap1 _ _ _ _ He Hheap)
    as (heap2 & Hpush & Hheap2 & Hsum).
  pose proof Hrange as [Hi Hin]. simpl in Hi, Hin.
  pose proof (bv_bounds _ _ _ _ Hinv) as [Hb Hbn].
  destruct (decide (i1 ≤ be_i)%Z).
  - assert (bold_inv s res bs_i (Z.max be_i (- neg_i2))) as Hinv'.
    { eapply bold_inv_extend; [done|lia..]. }
    destruct (decide (_ = _)); [by eexists _, _, _|].
    rewrite Hpush. cbn [mbind option_bind]. apply IH; [done| |done].
    apply Nat.lt_succ_r. eapply Nat.lt_le_trans; [exact Hsum|exact Hfuel].
  - assert (bold_inv s (res ++ [Lit (py_slice s bs_i be_i); Close;
                                Lit (py_slice s be_i i1); Open]) i1 (- neg_i2))
      as Hinv' by (apply bold_inv_next; [done|lia|done]).
    destruct (decide (_ = _)); [by eexists _, _, _|].
    rewrite Hpush. cbn [mbind option_bind]. apply IH; [done| |done].
    apply Nat.lt_succ_r. eapply Nat.lt_le_trans; [exact Hsum|exact Hfuel].
Qed.
End BoldLoop.

(** ** The whole function *)

Section AddBoldTagProofs.
Context {A : Type} `{EqDecision A}.
Implicit Types s w : list A.
Implicit Types words : list (list A).

(** What [search] hands over: under every key a list of starts that is
    not empty, ascends, and keeps the pattern within the text. *)
Lemma search_starts_ok words ac1 ac paths s res :
  built words ac1 ac paths → search ac words s = Some res →
  Forall (λ kv, kv.2 ≠ [] ∧ StronglySorted Z.le kv.2 ∧
                Forall (λ k, 0 ≤ k ∧ k + Z.of_nat (length kv.1) ≤ Z.of_nat (length s))%Z kv.2)
         res.
Proof.
  intros Hb Hsearch.
  destruct (search_result words ac1 ac paths s Hb)
    as (bms & res' & Hlen & Hok & Hsearch' & Hnd & Hget).
  assert (res' = res) as -> by congruence.
  apply Forall_forall. intros [w l] Hwl. simpl.
  pose proof (dict_get_elem _ _ _ Hnd Hwl) as Hl.
  pose proof (Hget w) as Hgw. cbn zeta in Hgw. rewrite Hl in Hgw.
  destruct (decide (_ = [])) as [|Hne]; [done|]. injection Hgw as Hgw.
  split_and!.
  - by rewrite Hgw.
  - rewrite Hgw. apply sorted_filter_starts, events_from_ends.
  - apply Forall_forall. intros k Hk.
    assert ((w, k) ∈ events_from words bms 0) as He.
    { apply (search_result_elem res _ w k (Hget w)). eauto. }
    destruct (scan_event_sound _ _ _ _ _ _ _ _ Hb Hlen Hok He)
      as (idx & e & _ & He' & Hsuf%suffix_length & ->).
    rewrite length_take in Hsuf. lia.
Qed.

Lemma word_ranges_ok s (start_dict : list (list A * list Z)) :
  Forall (λ kv, kv.2 ≠ [] ∧ StronglySorted Z.le kv.2 ∧
                Forall (λ k, 0 ≤ k ∧ k + Z.of_nat (length kv.1) ≤ Z.of_nat (length s))%Z kv.2)
         start_dict →
  Forall (Forall (range_ok (length s))) (word_ranges start_dict) ∧
  Forall (λ r, r ≠ []) (word_ranges start_dict).
Proof.
  intros Hall. unfold word_ranges. rewrite !Forall_fmap.
  split; (eapply Forall_impl; [exact Hall|]); intros [w l] (Hne & Hs & Hb); simpl in *.
  - by apply add_starts_spec; [lia|done|done|constructor|constructor].
  - by apply (add_starts_spec (length s)); [lia|done|done|constructor|constructor|].
Qed.

Lemma read_lit s : read_pieces [Lit s] = TagState (length s) None [] true.
Proof. done. Qed.

(** [addBoldTag] returns: deleting the markers from what it returns gives
    the text back, the markers alternate, and the spans between them are
    apart from each other. *)
Lemma addBoldTag_pieces_spec s words :
  ∃ ps sp, addBoldTag_pieces s words = Some ps ∧ strip ps = s ∧
    spans_of ps = Some sp ∧ spans_separated (length s) sp.
Proof.
  assert (∃ sp, strip [Lit s] = s ∧ spans_of [Lit s] = Some sp ∧
                spans_separated (length s) sp) as Hplain.
  { exists []. split_and!; [apply app_nil_r|done|]. split; constructor. }
  unfold addBoldTag_pieces.
  destruct (decide (Z.of_nat (length s) = 0%Z)) as [|Hn];
    [destruct Hplain as (sp & ?); by exists [Lit s], sp|].
  destruct (AhoCorasick_built words) as (ac1 & ac & paths & _ & Hac & Hb).
  rewrite Hac. cbn [mbind option_bind].
  destruct (search_result words ac1 ac paths s Hb) as (_ & start_dict & _ & _ & Hs & _).
  rewrite Hs. cbn [mbind option_bind].
  pose proof (search_starts_ok _ _ _ _ _ _ Hb Hs) as Hstarts.
  destruct start_dict as [|kv start_dict];
    [destruct Hplain as (sp & ?); by exists [Lit s], sp|].
  destruct (word_ranges_ok s _ Hstarts) as [Hrngs Hne].
  set (rngs := word_ranges (kv :: start_dict)) in *.
  destruct (init_heap_spec [] rngs Hne) as (heap & Hheap & Hok & Hlen & Hsum).
  change (length (@nil (list (Z * Z)))) with 0 in Hheap.
  change ([] ++ rngs) with rngs in Hok, Hsum.
  rewrite Hheap. cbn [mbind option_bind].
  destruct heap as [|e heap]; [done|].
  destruct (heappop_spec e heap) as ([[[i1 neg_i2] j] idx] & heap1 & Hpop & Hperm).
  rewrite Hpop. cbn [mbind option_bind].
  rewrite Hperm in Hok, Hsum. apply Forall_cons in Hok as [He Hok].
  pose proof (entry_ok_range _ _ Hrngs _ _ _ _ He) as [Hi Hin]. simpl in Hi, Hin.
  destruct (push_next_spec rngs heap1 _ _ _ _ He Hok) as (heap2 & Hpush & Hok2 & Hsum2).
  rewrite Hpush. cbn [mbind option_bind].
  destruct (bold_loop_spec (length (concat rngs)) s rngs heap2
              ((if decide (i1 ≠ 0%Z) then [Lit (py_slice s 0 i1)] else []) ++ [Open])
              i1 (- neg_i2) Hrngs Hok2)
    as (res & bs_i & be_i & Hloop & [[Hbs Hbe] Hstrip (sp & Hread & Hsort & Hall)]).
  { rewrite <-Hsum. apply Nat.lt_le_incl, Hsum2. }
  { split; [lia| |].
    - rewrite strip_app. unfold strip at 2. simpl. rewrite app_nil_r.
      destruct (decide (i1 ≠ 0%Z)) as [|Hi0]; [|by apply dec_stable in Hi0 as ->].
      unfold strip. simpl. rewrite app_nil_r.
      destruct (py_slice_inner s 0 i1) as [-> _]; [lia..|]. simpl.
      by rewrite Nat.sub_0_r.
    - exists []. split_and!; [|constructor..].
      rewrite read_pieces_app.
      destruct (decide (i1 ≠ 0%Z)) as [|Hi0]; [|by apply dec_stable in Hi0 as ->].
      rewrite read_lit. simpl.
      destruct (py_slice_inner s 0 i1) as [_ ->]; [lia..|]. simpl.
      by rewrite Nat.sub_0_r. }
  rewrite Hloop. cbn [mbind option_bind].
  destruct (py_slice_inner s bs_i be_i) as [_ Hl1]; [lia..|].
  destruct (sorted_spans_snoc sp (Z.to_nat bs_i) (Z.to_nat be_i) (S (Z.to_nat be_i)))
    as [Hsort' Hall']; [done..|lia|lia|].
  eexists _, (sp ++ [(Z.to_nat bs_i, Z.to_nat be_i)]). split; [done|]. split_and!.
  - rewrite !strip_app, Hstrip. unfold strip at 1. simpl. rewrite app_nil_r.
    rewrite take_py_slice by lia.
    destruct (decide (be_i < _)%Z).
    + unfold strip. simpl. rewrite app_nil_r.
      rewrite take_py_slice by lia. rewrite Nat2Z.id. apply firstn_all.
    + unfold strip. simpl. rewrite app_nil_r.
      apply take_ge. lia.
  - unfold spans_of. rewrite !read_pieces_app, Hread. simpl. rewrite Hl1.
    replace (Z.to_nat bs_i + (Z.to_nat be_i - Z.to_nat bs_i))
      with (Z.to_nat be_i) by lia.
    by destruct (decide (be_i < _)%Z).
  - split; [done|]. eapply Forall_impl; [exact Hall'|]. intros u Hu. simpl in Hu. lia.
Qed.
End AddBoldTagProofs.

(** * Manacher's algorithm *)

Section PalindromeFacts.
Context {A : Type} `{EqDecision A}.
Implicit Types s : list A.

(** A palindrome centred at [i], element by element. *)
Lemma palindrome_at_lookup s i r :
  palindrome_at s i r ↔
  r ≤ i ∧ i + r < length s ∧ ∀ k, k ≤ r → s !! (i + k) = s !! (i - k).
Proof.
  unfold palindrome_at. cbn zeta.
  split; intros (Hri & Hlen & Hpal); (split_and!; [done..|]).
  - intros k Hk.
    assert (length (take (2 * r + 1) (drop (i - r) s)) = 2 * r + 1) as Hl.
    { rewrite length_take, length_drop. lia. }
    assert (reverse (take (2 * r + 1) (drop (i - r) s)) !! (r + k) =
            take (2 * r + 1) (drop (i - r) s) !! (r + k)) as Heq by by rewrite Hpal.
    rewrite reverse_lookup, Hl in Heq by lia.
    rewrite !lookup_take_lt, !lookup_drop in Heq by lia.
    replace (i - r + (2 * r + 1 - S (r + k))) with (i - k) in Heq by lia.
    by replace (i - r + (r + k)) with (i + k) in Heq by lia.
  - set (t := take (2 * r + 1) (drop (i - r) s)).
    assert (length t = 2 * r + 1) as Hl.
    { unfold t. rewrite length_take, length_drop. lia. }
    apply list_eq. intros j. destruct (decide (j < 2 * r + 1)) as [Hj|Hj].
    + rewrite reverse_lookup, Hl by lia. unfold t.
      rewrite !lookup_take_lt, !lookup_drop by lia.
      destruct (decide (j ≤ r)).
      * specialize (Hpal (r - j)).
        replace (i + (r - j)) with (i - r + (2 * r + 1 - S j)) in Hpal by lia.
        replace (i - (r - j)) with (i - r + j) in Hpal by lia. apply Hpal. lia.
      * specialize (Hpal (j - r)).
        replace (i + (j - r)) with (i - r + j) in Hpal by lia.
        replace (i - (j - r)) with (i - r + (2 * r + 1 - S j)) in Hpal by lia.
        symmetry. apply Hpal. lia.
    + rewrite !lookup_ge_None_2; [done|lia|rewrite length_reverse; lia].
Qed.

Lemma palindrome_at_0 s i : i < length s → palindrome_at s i 0.
Proof.
  intros Hi. apply palindrome_at_lookup. split_and!; [lia..|].
  intros k Hk. assert (k = 0) as -> by lia. f_equal. lia.
Qed.

(** A palindrome holds the smaller ones about its centre. *)
Lemma palindrome_at_le s i r r' :
  palindrome_at s i r → r' ≤ r → palindrome_at s i r'.
Proof.
  rewrite !palindrome_at_lookup. intros (? & ? & Hpal) Hle.
  split_and!; [lia..|]. intros k Hk. apply Hpal. lia.
Qed.

(** One more step of the expansion. *)
Lemma palindrome_at_S s i r :
  palindrome_at s i r →
  palindrome_at s i (S r) ↔
  S r ≤ i ∧ i + S r < length s ∧ s !! (i + S r) = s !! (i - S r).
Proof.
  rewrite !palindrome_at_lookup. intros (? & ? & Hpal). split.
  - intros (? & ? & Hpal'). split_and!; [done..|]. by apply Hpal'.
  - intros (? & ? & Hr). split_and!; [done..|]. intros k Hk.
    destruct (decide (k = S r)) as [->|]; [done|]. apply Hpal. lia.
Qed.

(** The radius at which the expansion stops is the largest. *)
Lemma max_radius_stop s i r :
  palindrome_at s i r → ¬ palindrome_at s i (S r) → max_radius s i r.
Proof.
  intros Hr Hstop. split; [done|]. intros r' Hr'.
  destruct (decide (r' ≤ r)); [done|]. destruct Hstop.
  eapply palindrome_at_le; [done|lia].
Qed.

Lemma max_radius_unique s i r1 r2 : max_radius s i r1 → max_radius s i r2 → r1 = r2.
Proof. intros [H1 Hm1] [H2 Hm2]. apply Hm1 in H2. apply Hm2 in H1. lia. Qed.

(** A palindrome within a palindrome has a mirror image about the centre
    of the outer one. *)
Lemma palindrome_at_mirror s c R i rm :
  palindrome_at s c R → c < i → i < c + R →
  palindrome_at s (2 * c - i) rm →
  palindrome_at s i (min rm (c + R - i)).
Proof.
  rewrite !palindrome_at_lookup. intros (HRc & HcR & Hc) Hci HiR (Hrm & Hm & Hmir).
  split_and!; [lia..|]. intros k Hk.
  pose proof (Hc (i + k - c) ltac:(lia)) as H1.
  replace (c + (i + k - c)) with (i + k) in H1 by lia.
  replace (c - (i + k - c)) with (2 * c - i - k) in H1 by lia.
  rewrite H1, <-Hmir by lia.
  destruct (decide (c ≤ i - k)).
  - pose proof (Hc (i - k - c) ltac:(lia)) as H2.
    replace (c + (i - k - c)) with (i - k) in H2 by lia.
    replace (c - (i - k - c)) with (2 * c - i + k) in H2 by lia.
    by rewrite H2.
  - pose proof (Hc (c - (i - k)) ltac:(lia)) as H2.
    replace (c - (c - (i - k))) with (i - k) in H2 by lia.
    replace (c + (c - (i - k))) with (2 * c - i + k) in H2 by lia.
    by rewrite <-H2.
Qed.
End PalindromeFacts.

Section ManacherProofs.
Context {A : Type} `{EqDecision A}.
Implicit Types s : list A.
Implicit Types res : list Z.

Lemma manacher_while_unfold fuel s i res :
  manacher_while fuel s i res =
  r ← py_get res (Z.of_nat i);
  if decide (Z.of_nat i - r - 1 >= 0 ∧ Z.of_nat i + r + 1 < Z.of_nat (length s))%Z then
    a ← py_get s (Z.of_nat i + r + 1);
    b ← py_get s (Z.of_nat i - r - 1);
    if decide (a = b) then
      match fuel with
      | 0 => None
      | S fuel' => manacher_while fuel' s i (<[i := (r + 1)%Z]> res)
      end
    else Some res
  else Some res.
Proof. by destruct fuel. Qed.

(** The expansion ends, at the largest radius, whatever valid radius it
    starts from. *)
Lemma manacher_while_spec fuel s i res r0 :
  res !! i = Some (Z.of_nat r0) → palindrome_at s i r0 →
  length s - (i + r0) ≤ S fuel →
  ∃ r, manacher_while fuel s i res = Some (<[i := Z.of_nat r]> res) ∧
       max_radius s i r.
Proof.
  revert res r0. induction fuel as [|fuel IH]; intros res r0 Hres Hpal Hfuel;
    rewrite manacher_while_unfold, py_get_nat, Hres; cbn [mbind option_bind];
    pose proof (palindrome_at_S s i r0 Hpal) as HS;
    (destruct (decide (_ ∧ _)) as [[Hlo Hhi]|Hcond];
      [|exists r0; rewrite list_insert_id by done; split; [done|];
        apply max_radius_stop; [done|]; rewrite HS; lia]);
    replace (Z.of_nat i + Z.of_nat r0 + 1)%Z with (Z.of_nat (i + S r0)) by lia;
    replace (Z.of_nat i - Z.of_nat r0 - 1)%Z with (Z.of_nat (i - S r0)) by lia;
    rewrite !py_get_nat;
    (destruct (lookup_lt_is_Some_2 s (i + S r0)) as [a Ha]; [lia|]);
    (destruct (lookup_lt_is_Some_2 s (i - S r0)) as [b Hb]; [lia|]);
    rewrite Ha, Hb; cbn [mbind option_bind];
    (destruct (decide (a = b)) as [->|Hab];
      [|exists r0; rewrite list_insert_id by done; split; [done|];
        apply max_radius_stop; [done|]; rewrite HS, Ha, Hb;
        intros (_ & _ & ?); congruence]).
  - lia.
  - destruct (IH (<[i := (Z.of_nat r0 + 1)%Z]> res) (S r0)) as (r & Hr & Hmax).
    + rewrite list_lookup_insert_eq by (by eapply lookup_lt_Some).
      f_equal. lia.
    + apply HS. split_and!; [lia..|]. by rewrite Ha, Hb.
    + lia.
    + exists r. by rewrite Hr, list_insert_insert_eq.
Qed.

(** The main loop: every radius it has left behind is the largest, and
    [curr_centre], [curr_right] bound a palindrome it has found. *)
Lemma manacher_loop_spec s k i res c R :
  i + k = length s → length res = length s →
  (∀ j, j < i → ∃ r, res !! j = Some (Z.of_nat r) ∧ max_radius s j r) →
  (∀ j, i ≤ j < length s → res !! j = Some 0%Z) →
  (c = 0 ∧ R = 0) ∨ (c < i ∧ palindrome_at s c R) →
  ∃ res', manacher_loop s k i res (Z.of_nat c) (Z.of_nat (c + R)) = Some res' ∧
    length res' = length s ∧
    ∀ j, j < length s → ∃ r, res' !! j = Some (Z.of_nat r) ∧ max_radius s j r.
Proof.
  revert i res c R. induction k as [|k IH]; intros i res c R Hik Hlen Hdone Htodo Hc.
  { exists res. split_and!; [done..|]. intros j Hj. apply Hdone. lia. }
  assert (i < length s) as Hi by lia.
  assert (res !! i = Some 0%Z) as Hres0 by (apply Htodo; lia).
  assert (∃ r0, (if decide (Z.of_nat i < Z.of_nat (c + R))%Z then
                   m ← py_get res (Z.shiftl (Z.of_nat c) 1 - Z.of_nat i);
                   Some (<[i := Z.min m (Z.of_nat (c + R) - Z.of_nat i)]> res)
                 else Some res) = Some (<[i := Z.of_nat r0]> res) ∧
                palindrome_at s i r0) as (r0 & Hfirst & Hpal0).
  { destruct (decide (_ < _)%Z) as [Hlt|Hge].
    - destruct Hc as [[-> ->]|[Hci Hpal]]; [lia|].
      pose proof Hpal as (HRc & _)%palindrome_at_lookup.
      replace (Z.shiftl (Z.of_nat c) 1 - Z.of_nat i)%Z with (Z.of_nat (2 * c - i))
        by (rewrite Z.shiftl_mul_pow2 by lia; lia).
      destruct (Hdone (2 * c - i)) as (rm & Hrm & [Hpm _]); [lia|].
      rewrite py_get_nat, Hrm. cbn [mbind option_bind].
      exists (min rm (c + R - i)). split; [do 2 f_equal; lia|].
      apply (palindrome_at_mirror s c R); [done|lia..|done].
    - exists 0. split; [by rewrite list_insert_id|by apply palindrome_at_0]. }
  cbn [manacher_loop]. rewrite Hfirst. cbn [mbind option_bind].
  destruct (manacher_while_spec (length s) s i (<[i := Z.of_nat r0]> res) r0)
    as (r & Hwhile & Hmax); [by rewrite list_lookup_insert_eq by lia|done|lia|].
  rewrite Hwhile, list_insert_insert_eq. cbn [mbind option_bind].
  rewrite py_get_nat, list_lookup_insert_eq by lia. cbn [mbind option_bind].
  assert (∀ j, j < S i →
            ∃ r', <[i := Z.of_nat r]> res !! j = Some (Z.of_nat r') ∧ max_radius s j r')
    as Hdone'.
  { intros j Hj. destruct (decide (j = i)) as [->|Hne].
    - exists r. by rewrite list_lookup_insert_eq by lia.
    - rewrite list_lookup_insert_ne by done. apply Hdone. lia. }
  assert (∀ j, S i ≤ j < length s → <[i := Z.of_nat r]> res !! j = Some 0%Z) as Htodo'.
  { intros j Hj. rewrite list_lookup_insert_ne by lia. apply Htodo. lia. }
  destruct (decide (_ > _)%Z).
  - rewrite <-Nat2Z.inj_add.
    apply IH; [lia|by rewrite length_insert|done..|].
    right. split; [lia|apply Hmax].
  - apply IH; [lia|by rewrite length_insert|done..|].
    destruct Hc as [?|[? ?]]; [by left|right; split; [lia|done]].
Qed.

(** [manacherAlgorithm] returns, for every index, the largest radius of a
    palindrome centred there. *)
Lemma manacherAlgorithm_spec s :
  ∃ res, manacherAlgorithm s = Some res ∧ length res = length s ∧
    ∀ i, i < length s → ∃ r, res !! i = Some (Z.of_nat r) ∧ max_radius s i r.
Proof.
  unfold manacherAlgorithm.
  apply (manacher_loop_spec s (length s) 0 (replicate (length s) 0%Z) 0 0).
  - done.
  - apply length_replicate.
  - intros j Hj. lia.
  - intros j Hj. apply lookup_replicate_2. lia.
  - by left.
Qed.

(** The largest radius is the one brute force finds. *)
Lemma max_radius_brute s i r : max_radius s i r → brute_radius s i = r.
Proof.
  intros [Hpal Hmax]. unfold brute_radius.
  pose proof Hpal as (Hri & _)%palindrome_at_lookup.
  assert (r ∈ filter (palindrome_at s i) (seq 0 (S i))) as Hin.
  { apply list_elem_of_filter. split; [done|]. apply elem_of_seq. lia. }
  apply Nat.le_antisymm; [|by apply max_list_elem_of_le].
  assert (max_list (filter (palindrome_at s i) (seq 0 (S i)))
            ∈ filter (palindrome_at s i) (seq 0 (S i))) as [Hm _]%list_elem_of_filter.
  { apply max_list_elem_of. intros Hnil. rewrite Hnil in Hin.
    by apply elem_of_nil in Hin. }
  by apply Hmax.
Qed.
End ManacherProofs.

(** * The properties of the specification *)

Section ClaimLemmas.
Context {A : Type} `{EqDecision A}.
Implicit Types words : list (list A).
Implicit Types w s : list A.

(** With no empty pattern the pairs [search] reports are those of KMP. *)
Lemma search_pairs_KMP words ac1 ac paths s bms w k :
  built words ac1 ac paths → Forall (λ w, w ≠ []) words →
  length bms = length s → scan_ok paths (out ac) s 0 bms →
  (w, k) ∈ events_from words bms 0 ↔
  w ∈ words ∧ ∃ l', matchStartGenerator w s = Some l' ∧ k ∈ l'.
Proof.
  intros Hb Hne Hlen Hok. rewrite Forall_forall in Hne.
  rewrite elem_of_matchStartGenerator. split.
  - intros (idx & e & Hidx & He & Hsuf & ->)%(scan_event_sound _ _ _ _ _ _ _ _ Hb Hlen Hok).
    assert (w ∈ words) as Hw by by eapply list_elem_of_lookup_2.
    split; [done|]. apply (ends_at_occurs w s _ (Hne w Hw)). eauto.
  - intros (Hw & Hocc). pose proof (Hne w Hw) as Hwne.
    apply (ends_at_occurs w s _ Hwne) in Hocc as (e & He & Hsuf & ->).
    apply list_elem_of_lookup in Hw as [idx Hidx].
    by destruct (scan_event_complete _ _ _ _ _ _ _ _ _ Hb Hlen Hok Hidx Hwne He Hsuf)
      as (_ & _ & _ & ?).
Qed.

Lemma filter_eq_once (l : list nat) (x : nat) :
  NoDup l → x ∈ l → length (filter (λ y, y = x) l) = 1.
Proof.
  induction l as [|y l IH]; [by intros _ ?%elem_of_nil|].
  intros [Hy Hnd]%NoDup_cons Hx. rewrite filter_cons.
  destruct (decide (y = x)) as [->|Hne].
  - rewrite (filter_none (λ y, y = x) l); [done|]. intros z Hz ->. done.
  - apply elem_of_cons in Hx as [->|Hx]; [done|]. by apply IH.
Qed.

(** [searchEndIndices] yields, at every position, the indices of the
    bits set in the bitset of the state reached there. *)
Lemma searchEndIndices_spec words ac1 ac paths s :
  built words ac1 ac paths →
  ∃ ends, searchEndIndices ac s = Some ends ∧ length ends = length s ∧
    ∀ e, e < length s →
      ∃ ids c bm, ends !! e = Some (e, ids) ∧ StronglySorted lt ids ∧
        lsuf paths (take (S e) s) c ∧ out ac !! c = Some bm ∧
        ∀ k, k ∈ ids ↔ Z.testbit bm (Z.of_nat k) = true.
Proof.
  intros Hb.
  destruct (searchEndIndices_loop_spec words ac1 ac paths s [] 0 Hb
              (lsuf_root _ _ (built_trie _ _ _ _ Hb)))
    as (bms & ends & Hlen & Hok & Hloop & Hfst & Hall).
  simpl in Hok, Hloop, Hfst. exists ends. split_and!; [done| |].
  { by rewrite <-(Forall2_length _ _ _ Hall). }
  intros e He. destruct (lookup_lt_is_Some_2 bms e) as [bm Hbm]; [lia|].
  destruct (Forall2_lookup_l _ _ _ _ _ Hall Hbm) as ([e' ids] & Hends & Hmem & Hsort).
  destruct (Hok e bm Hbm) as (c & Hc & Hout). simpl in Hc, Hmem, Hsort.
  assert (e' = e) as ->.
  { assert (ends.*1 !! e = Some e') as Hfe by by rewrite list_lookup_fmap, Hends.
    rewrite Hfst in Hfe. apply lookup_seq in Hfe. lia. }
  by exists ids, c, bm.
Qed.

(** Likewise [searchLengths], on the length bitsets. *)
Lemma searchLengths_spec words ac1 ac paths s :
  built words ac1 ac paths →
  ∃ lens, searchLengths ac s = Some lens ∧ length lens = length s ∧
    ∀ e, e < length s →
      ∃ ls c bm, lens !! e = Some ls ∧ StronglySorted lt ls ∧
        lsuf paths (take (S e) s) c ∧ out_lens ac !! c = Some bm ∧
        ∀ k, k ∈ ls ↔ Z.testbit bm (Z.of_nat k) = true.
Proof.
  intros Hb.
  destruct (searchLengths_loop_spec words ac1 ac paths s [] 0 Hb
              (lsuf_root _ _ (built_trie _ _ _ _ Hb)))
    as (bms & lens & Hlen & Hok & Hloop & Hall).
  simpl in Hok, Hloop. exists lens. split_and!; [done| |].
  { by rewrite <-(Forall2_length _ _ _ Hall). }
  intros e He. destruct (lookup_lt_is_Some_2 bms e) as [bm Hbm]; [lia|].
  destruct (Forall2_lookup_l _ _ _ _ _ Hall Hbm) as (ls & Hls & Hmem & Hsort).
  destruct (Hok e bm Hbm) as (c & Hc & Hout). simpl in Hc.
  by exists ls, c, bm.
Qed.

(** A non-empty pattern given at two indices has its start recorded twice
    wherever it ends. *)
Lemma search_records_twice words ac1 ac paths s bms k1 k2 w e :
  built words ac1 ac paths → length bms = length s →
  scan_ok paths (out ac) s 0 bms →
  k1 ≠ k2 → words !! k1 = Some w → words !! k2 = Some w → w ≠ [] →
  ends_at w s e →
  let start := (Z.of_nat e - Z.of_nat (length w) + 1)%Z in
  [start; start] `sublist_of` (filter (λ ev, ev.1 = w) (events_from words bms 0)).*2.
Proof.
  intros Hb Hlen Hok Hne H1 H2 Hw [He Hsuf] start.
  destruct (scan_event_complete _ _ _ _ _ _ _ _ _ Hb Hlen Hok H1 Hw He Hsuf)
    as (bm & Hbm & Hb1 & _).
  destruct (scan_event_complete _ _ _ _ _ _ _ _ _ Hb Hlen Hok H2 Hw He Hsuf)
    as (bm' & Hbm' & Hb2 & _).
  assert (bm' = bm) as -> by congruence.
  assert ([(w, start); (w, start)] `sublist_of` events_at words bm e) as Hsub.
  { destruct (decide (k1 < k2)).
    - by apply (events_at_pair words bm e k1 k2 w w).
    - apply (events_at_pair words bm e k2 k1 w w); [lia|done..]. }
  pose proof (events_from_position words bms 0 e bm Hbm) as Hpos. simpl in Hpos.
  assert ([(w, start); (w, start)] `sublist_of` events_from words bms 0) as Hsub'
    by by etrans.
  apply (filter_sublist (λ ev, ev.1 = w)) in Hsub'.
  rewrite !filter_cons_True in Hsub' by done.
  by apply (fmap_sublist snd) in Hsub'.
Qed.
End ClaimLemmas.

(** ** Aho-Corasick search against KMP *)

(** C1, as amended: for every list of non-empty patterns and every text,
    [AhoCorasick.search] returns a mapping from patterns to ascending
    lists of start indices, and the pairs (pattern, start index) it
    reports are exactly those found by running KMP for each pattern on the
    text. *)
Theorem search_equals_KMP {A : Type} `{EqDecision A}
    (words : list (list A)) (s : list A) :
  Forall (λ w, w ≠ []) words → search_agrees_with_KMP words s.
Proof.
  intros Hne.
  destruct (AhoCorasick_built words) as (ac1 & ac & paths & _ & Hac & Hb).
  destruct (search_result words ac1 ac paths s Hb)
    as (bms & res & Hlen & Hok & Hs & Hnd & Hget).
  exists ac, res. split_and!; [done..| |].
  - intros w l Hl. rewrite Hget in Hl. cbn zeta in Hl.
    destruct (decide (_ = [])); [done|]. injection Hl as <-.
    apply sorted_filter_starts, events_from_ends.
  - intros w k. rewrite (search_result_elem res _ w k (Hget w)).
    by eapply search_pairs_KMP.
Qed.

(** The patterns and the text of the example. *)
Lemma search_equals_KMP_ahishers :
  search_agrees_with_KMP [str "he"; str "she"; str "hers"; str "his"] (str "ahishers").
Proof. apply search_equals_KMP. by repeat constructor. Defined.

(** There [search] reports "his" at 1, "he" at 4, "she" at 3 and "hers"
    at 4, and nothing else. *)
Lemma search_ahishers :
  let words := [str "he"; str "she"; str "hers"; str "his"] in
  (AhoCorasick words ≫= λ ac, search ac words (str "ahishers")) =
  Some [(str "his", [1%Z]); (str "he", [4%Z]); (str "she", [3%Z]); (str "hers", [4%Z])].
Proof. vm_compute. reflexivity. Qed.

(** C1 fails with an empty pattern: on the pattern "" and the text "a",
    [search] reports the start 1, KMP the start 0. *)
Lemma search_empty_pattern_differs :
  ¬ search_agrees_with_KMP [str ""] (str "a").
Proof.
  intros (ac & res & Hac & Hs & _ & _ & Hpairs).
  vm_compute in Hac. injection Hac as <-.
  vm_compute in Hs. injection Hs as <-.
  destruct (Hpairs (str "") 1%Z) as [Hkmp _].
  destruct Hkmp as (_ & l' & Hl' & Hin).
  - exists [1%Z]. split; [reflexivity|left].
  - vm_compute in Hl'. injection Hl' as <-.
    apply list_elem_of_singleton in Hin. discriminate.
Qed.

(** ** The closure of the bitsets *)

(** C2, as amended: for every list of non-empty patterns and every node
    [j] but the root of the automaton built from it, [out[j]] is the
    bitwise OR of the bits of the patterns that end at [j] and
    [out[failure[j]]], and [out_lens[j]] likewise for the length bits; the
    automaton leaves [buildAutomaton] in this state. *)
Theorem closure_without_empty_pattern {A : Type} `{EqDecision A}
    (words : list (list A)) :
  Forall (λ w, w ≠ []) words → closure_holds words.
Proof.
  intros Hne.
  destruct (AhoCorasick_built words) as (ac1 & ac & paths & _ & Hac & Hb).
  exists ac. split; [done|]. intros j Hj. by eapply built_closure.
Qed.

Lemma closure_without_empty_pattern_example :
  closure_holds [str "he"; str "she"; str "hers"; str "his"].
Proof. apply closure_without_empty_pattern. by repeat constructor. Defined.

(** C2 fails with an empty pattern: for the patterns "" and "a", the
    node of "a" has [out = 2], its failure link is the root, where
    [out = 1], and the bits of the root are not or-ed in. *)
Lemma closure_fails_with_empty_pattern :
  ¬ closure_holds [str ""; str "a"].
Proof.
  intros (ac & Hac & Hclosed).
  vm_compute in Hac. injection Hac as <-.
  destruct (Hclosed 1) as (f & o_f & l_f & Hf & Hof & _ & Ho & _); [simpl; lia|].
  destruct f as [|f]; [|vm_compute in Hf; discriminate].
  vm_compute in Hof. injection Hof as <-.
  vm_compute in Ho. discriminate.
Qed.

(** ** A pattern given twice *)

(** C7, as amended: if a non-empty pattern is given at two distinct
    indices [k1] and [k2], then at every position where it ends
    [searchEndIndices] reports both [k1] and [k2], [search] records the
    start of the match once for each of them, and [searchLengths] reports
    the length of the pattern only once. *)
Theorem duplicate_patterns_reported {A : Type} `{EqDecision A}
    (words : list (list A)) (s : list A) (k1 k2 : nat) (w : list A) :
  k1 ≠ k2 → words !! k1 = Some w → words !! k2 = Some w → w ≠ [] →
  duplicates_reported words s k1 k2 w.
Proof.
  intros Hk H1 H2 Hw.
  destruct (AhoCorasick_built words) as (ac1 & ac & paths & _ & Hac & Hb).
  destruct (searchEndIndices_spec words ac1 ac paths s Hb) as (ends & Hends & _ & Hids).
  destruct (searchLengths_spec words ac1 ac paths s Hb) as (lens & Hlens & _ & Hls).
  destruct (search_result words ac1 ac paths s Hb)
    as (bms & res & Hlen & Hok & Hs & _ & Hget).
  exists ac, ends, lens, res. split_and!; [done..|].
  intros e [He Hsuf]. split_and!.
  - destruct (Hids e He) as (ids & c & bm & Hi & _ & Hc & Hbm & Hmem).
    destruct (lsuf_out_bits _ _ _ _ _ _ _ Hb Hc Hbm) as [_ Hcompl].
    exists ids. split_and!; [done|apply Hmem..]; by eapply Hcompl.
  - pose proof (search_records_twice words ac1 ac paths s bms k1 k2 w e
                  Hb Hlen Hok Hk H1 H2 Hw (conj He Hsuf)) as Hsub.
    cbn zeta in Hsub. eexists. split; [|exact Hsub].
    rewrite Hget. cbn zeta. destruct (decide (_ = [])) as [Hnil|]; [|done].
    rewrite Hnil in Hsub. by apply sublist_nil_r in Hsub.
  - destruct (Hls e He) as (ls & c & bm & Hl & Hsort & Hc & Hbm & Hmem).
    destruct (lsuf_out_lens_bits _ _ _ _ _ _ _ Hb Hc Hbm) as [_ Hcompl].
    exists ls. split; [done|]. apply filter_eq_once; [by apply sorted_lt_NoDup|].
    apply Hmem, Hcompl; [by eapply list_elem_of_lookup_2|done..].
Qed.

Lemma duplicate_patterns_reported_aa :
  duplicates_reported [str "a"; str "a"] (str "aa") 0 1 (str "a").
Proof. by apply duplicate_patterns_reported. Defined.

(** C7 fails for the empty pattern: with the patterns "", "" and "a" and
    the text "a", the empty pattern ends at position 0, where
    [searchEndIndices] reports the index 2 alone. *)
Lemma duplicate_empty_patterns_not_reported :
  ¬ duplicates_reported [str ""; str ""; str "a"] (str "a") 0 1 (str "").
Proof.
  intros (ac & ends & lens & res & Hac & Hends & _ & _ & Hrep).
  vm_compute in Hac. injection Hac as <-.
  vm_compute in Hends. injection Hends as <-.
  destruct (Hrep 0) as [(ids & Hids & Hin & _) _].
  - split; [simpl; lia|apply suffix_nil].
  - injection Hids as <-. apply list_elem_of_singleton in Hin. discriminate.
Qed.

(** ** More than 64 patterns *)

(** C10: for a pattern list of any length the construction succeeds; the
    bitsets are unbounded integers, with bit [i] of [out] set at the node
    of pattern [i] whatever [i] is and no bit beyond the patterns; and
    [search] returns, reporting only matches and every match of a
    non-empty pattern, whatever its index. *)
Theorem no_pattern_count_ceiling {A : Type} `{EqDecision A} (words : list (list A)) :
  ∃ ac, AhoCorasick words = Some ac ∧
    (∀ j o z, out ac !! j = Some o → Z.testbit o z = true →
       ∃ i, z = Z.of_nat i ∧ i < length words) ∧
    (∀ i w, words !! i = Some w → w ≠ [] →
       ∃ j o, walk (goto ac) 0 w = Some j ∧ out ac !! j = Some o ∧
              Z.testbit o (Z.of_nat i) = true) ∧
    ∀ s, ∃ res, search ac words s = Some res ∧
      (∀ w k, (∃ l, dict_get res w = Some l ∧ k ∈ l) →
         w ∈ words ∧ ∃ e, ends_at w s e ∧
           k = (Z.of_nat e - Z.of_nat (length w) + 1)%Z) ∧
      ∀ i w k, words !! i = Some w → w ≠ [] → k < length s → occurs_at w s k →
        ∃ l, dict_get res w = Some l ∧ Z.of_nat k ∈ l.
Proof.
  destruct (AhoCorasick_built words) as (ac1 & ac & paths & _ & Hac & Hb).
  pose proof (built_trie _ _ _ _ Hb) as Hti.
  destruct (built_lengths _ _ _ _ Hb) as (_ & _ & Holen & _).
  exists ac. split_and!; [done| | |].
  - intros j o z Ho Hz.
    destruct (lookup_lt_is_Some_2 paths j) as [q Hq];
      [rewrite <-Holen; by eapply lookup_lt_Some|].
    destruct (built_out _ _ _ _ _ _ _ Hb Hq Ho) as [Hsound _].
    destruct (Hsound z Hz) as (i & w & -> & Hi%lookup_lt_Some & _). eauto.
  - intros i w Hi Hw. pose proof Hb as [Hii _].
    assert (w ∈ paths) as [j Hj]%list_elem_of_lookup.
    { apply (ii_words _ _ _ Hii). by eapply list_elem_of_lookup_2. }
    destruct (lookup_lt_is_Some_2 (out ac) j) as [o Ho];
      [rewrite Holen; by eapply lookup_lt_Some|].
    destruct (built_out _ _ _ _ _ _ _ Hb Hj Ho) as [_ Hcompl].
    exists j, o. split_and!; [|done|by apply (Hcompl i w)].
    by apply (walk_path _ _ w 0 [] Hti (ti_root _ _ Hti)).
  - intros s. destruct (search_result words ac1 ac paths s Hb)
      as (bms & res & Hlen & Hok & Hs & _ & Hget).
    exists res. split_and!; [done| |].
    + intros w k Hk. apply (search_result_elem res _ w k (Hget w)) in Hk.
      destruct (scan_event_sound _ _ _ _ _ _ _ _ Hb Hlen Hok Hk)
        as (idx & e & Hidx & He & Hsuf & ->).
      split; [by eapply list_elem_of_lookup_2|]. by exists e.
    + intros i w k Hi Hw Hk Hocc.
      apply (search_result_elem res _ w _ (Hget w)).
      assert (∃ e, e < length s ∧ w `suffix_of` take (S e) s ∧
                Z.of_nat k = (Z.of_nat e - Z.of_nat (length w) + 1)%Z)
        as (e & He & Hsuf & ->) by (apply ends_at_occurs; eauto).
      by destruct (scan_event_complete _ _ _ _ _ _ _ _ _ Hb Hlen Hok Hi Hw He Hsuf)
        as (_ & _ & _ & ?).
Qed.

(** With sixty-five patterns, the last one, at index 64, is found. *)
Lemma search_pattern_index_64 :
  let words := replicate 64 (str "b") ++ [str "a"] in
  (AhoCorasick words ≫= λ ac, search ac words (str "ba")) =
  Some [(str "b", replicate 64 0%Z); (str "a", [1%Z])].
Proof. vm_compute. reflexivity. Qed.

(** ** KMP, the Z algorithm and brute force *)

(** C3, at the input where the code departs from it: for the pattern "a"
    and the text "a", KMP and brute force find the match at index 0, and
    [ZAlgorithm.matchStartGenerator], whose last loop stops [m + 1]
    indices early, yields nothing. *)
Theorem z_algorithm_misses_match :
  matchStartGenerator (str "a") (str "a") = Some [0%Z] ∧
  brute_force (str "a") (str "a") = [0] ∧
  z_matchStartGenerator (str "a") (str "a") "$"%char = Some [].
Proof. split_and!; vm_compute; reflexivity. Qed.

(** C9: with an empty pattern, [KnuthMorrisPratt.matchStartGenerator]
    yields the indices [0], ..., [len(s) - 1] of [s] in increasing order,
    and nothing else; it does not fail. *)
Theorem kmp_empty_pattern {A : Type} `{EqDecision A} (s : list A) :
  matchStartGenerator [] s = Some (Z.of_nat <$> seq 0 (length s)).
Proof. unfold matchStartGenerator. by rewrite decide_True. Qed.

(** ** addBoldTag *)

(** C4: for every string and every word list, [addBoldTag] returns, and
    deleting the markers it inserted from its result gives the string
    back. *)
Theorem addBoldTag_round_trip {A : Type} `{EqDecision A}
    (s : list A) (words : list (list A)) :
  ∃ ps, addBoldTag_pieces s words = Some ps ∧ strip ps = s.
Proof.
  destruct (addBoldTag_pieces_spec s words) as (ps & sp & Hps & Hstrip & _).
  by exists ps.
Qed.

(** C5: for every string and every word list, the markers in the result
    of [addBoldTag] alternate, and the spans they delimit come at
    increasing positions, each ending at least one character of the
    string before the next begins. *)
Theorem addBoldTag_spans_apart {A : Type} `{EqDecision A}
    (s : list A) (words : list (list A)) :
  ∃ ps sp, addBoldTag_pieces s words = Some ps ∧ spans_of ps = Some sp ∧
    spans_separated (length s) sp.
Proof.
  destruct (addBoldTag_pieces_spec s words) as (ps & sp & Hps & _ & Hsp & Hsep).
  by exists ps, sp.
Qed.

(** The strings of Leetcode's examples. *)
Lemma addBoldTag_examples :
  addBoldTag (str "abcxyz123") [str "abc"; str "123"] = Some (str "<b>abc</b>xyz<b>123</b>") ∧
  addBoldTag (str "aaabbcc") [str "aaa"; str "aab"; str "bc"] = Some (str "<b>aaabbc</b>c").
Proof. split; vm_compute; reflexivity. Qed.

(** ** Manacher's algorithm *)

(** C6: for every sequence [s], [manacherAlgorithm(s)] has an entry for
    every index [i] of [s], the largest radius [r] for which the elements
    from [i - r] to [i + r] form a palindrome, which is the radius brute
    force finds; and [manacherAlgorithm("ebabad")] is [[0, 0, 1, 1, 0, 0]]. *)
Theorem manacher_max_radius {A : Type} `{EqDecision A} (s : list A) :
  (∃ res, manacherAlgorithm s = Some res ∧ length res = length s ∧
     ∀ i, i < length s →
       ∃ r, res !! i = Some (Z.of_nat r) ∧ max_radius s i r ∧ r = brute_radius s i) ∧
  manacherAlgorithm (str "ebabad") = Some [0; 0; 1; 1; 0; 0]%Z.
Proof.
  split; [|vm_compute; reflexivity].
  destruct (manacherAlgorithm_spec s) as (res & Hres & Hlen & Hrad).
  exists res. split_and!; [done..|]. intros i Hi.
  destruct (Hrad i Hi) as (r & Hr & Hmax).
  exists r. split_and!; [done..|]. symmetry. by apply max_radius_brute.
Qed.

(** ** rollingHash *)

(** C8, where the code departs from it: whenever the sequence is at least
    as long as [length], iterating [rollingHash(s, length)] with [func]
    left as [None] yields nothing and ends with [UnboundLocalError]. *)
Theorem rollingHash_default_raises {A : Type} (s : list A) (length : nat) :
  length ≤ Datatypes.length s →
  rollingHash s length default_p_lst default_md None = Raised [] UnboundLocalError.
Proof.
  intros Hlen. unfold rollingHash.
  destruct (decide (Datatypes.length s < length)) as [Hlt|_]; [lia|reflexivity].
Qed.

Lemma rollingHash_default_raises_a :
  rollingHash (str "a") 1 default_p_lst default_md None = Raised [] UnboundLocalError.
Proof. apply rollingHash_default_raises. simpl. lia. Defined.

(** * Further properties of the code *)

(** ** Knuth-Morris-Pratt *)

(** [KnuthMorrisPratt.matchStartGenerator] yields, for every pattern and
    every text, the indices brute-force scanning finds, in increasing
    order. *)
Theorem kmp_equals_brute_force {A : Type} `{EqDecision A} (p s : list A) :
  matchStartGenerator p s = Some (Z.of_nat <$> brute_force p s).
Proof. apply kmp_brute_force. Qed.

Section LPSProofs.
Context {A : Type} `{EqDecision A}.
Implicit Types p : list A.

Lemma max_ps_brute_lps p i k :
  i < length p → max_ps p (S i) (take (S i) p) k → brute_lps p i = k.
Proof.
  intros Hi (Hk & [Hkp Hsuf] & Hmax). unfold brute_lps.
  set (cands := filter (λ k, take k p `suffix_of` take (S i) p) (seq 0 (S i))).
  assert (k ∈ cands) as Hin.
  { apply list_elem_of_filter. split; [done|]. apply elem_of_seq. lia. }
  apply Nat.le_antisymm; [|by apply max_list_elem_of_le].
  assert (max_list cands ∈ cands) as [Hm Hseq%elem_of_seq]%list_elem_of_filter.
  { apply max_list_elem_of. intros Hnil. rewrite Hnil in Hin.
    by apply elem_of_nil in Hin. }
  apply Hmax; [lia|]. split; [lia|done].
Qed.
End LPSProofs.

(** [constructLPS] returns, for a pattern that is not empty, the array
    whose entry [i] is the length of the longest proper prefix of
    [p[:i + 1]] that is also a suffix of it. *)
Theorem constructLPS_longest_prefix_suffix {A : Type} `{EqDecision A} (p : list A) :
  p ≠ [] → constructLPS p = Some (brute_lps p <$> seq 0 (length p)).
Proof.
  intros Hp. destruct (constructLPS_spec p Hp) as (lps & -> & Hlen & Hok).
  f_equal. apply list_eq. intros i. rewrite list_lookup_fmap.
  destruct (decide (i < length p)) as [Hi|Hi].
  - rewrite lookup_seq_lt by done. simpl.
    destruct (Hok i) as (k & -> & Hmax); [lia|].
    f_equal. symmetry. by apply max_ps_brute_lps.
  - rewrite lookup_seq_ge by lia. apply lookup_ge_None_2. lia.
Qed.

(** The pattern of the docstring, whose array is
    [[0, 0, 1, 0, 1, 2, 0, 1, 2, 3, 4, 5, 0]]. *)
Lemma constructLPS_abacabcabacad :
  constructLPS (str "abacabcabacad") =
  Some (brute_lps (str "abacabcabacad") <$> seq 0 (length (str "abacabcabacad"))).
Proof. by apply constructLPS_longest_prefix_suffix. Defined.

(** ** The lists of [search] *)

(** When no pattern is given twice, every list [search] returns ascends
    strictly; no list it returns is empty. *)
Theorem search_lists_strictly_ascending {A : Type} `{EqDecision A}
    (words : list (list A)) (s : list A) :
  NoDup words →
  ∃ ac res, AhoCorasick words = Some ac ∧ search ac words s = Some res ∧
    ∀ w l, dict_get res w = Some l → l ≠ [] ∧ StronglySorted Z.lt l.
Proof.
  intros Hnd.
  destruct (AhoCorasick_built words) as (ac1 & ac & paths & _ & Hac & Hb).
  destruct (search_result words ac1 ac paths s Hb)
    as (bms & res & _ & _ & Hs & _ & Hget).
  exists ac, res. split_and!; [done..|].
  intros w l Hl. rewrite Hget in Hl. cbn zeta in Hl.
  destruct (decide (_ = [])) as [|Hne]; [done|]. injection Hl as <-.
  split; [done|]. by apply starts_strict.
Qed.

Lemma search_lists_strictly_ascending_example :
  ∃ ac res, AhoCorasick [str "a"; str "aa"] = Some ac ∧
    search ac [str "a"; str "aa"] (str "aaaa") = Some res ∧
    ∀ w l, dict_get res w = Some l → l ≠ [] ∧ StronglySorted Z.lt l.
Proof.
  apply search_lists_strictly_ascending.
  apply NoDup_cons. split; [|by apply NoDup_singleton].
  intros Hin%list_elem_of_singleton. discriminate.
Defined.

(** ** The automaton *)

Section AutomatonProofs.
Context {A : Type} `{EqDecision A}.
Implicit Types words paths : list (list A).
Implicit Types ac : automaton A.
Implicit Types q x s w : list A.

Lemma walk_root_path gt paths q c :
  trie_inv gt paths → walk gt 0 q = Some c ↔ paths !! c = Some q.
Proof. intros Hti. apply (walk_path gt paths q 0 [] Hti (ti_root _ _ Hti)). Qed.

Lemma lsuf_state_of gt paths x j :
  trie_inv gt paths → lsuf paths x j ↔ state_of gt x j.
Proof.
  intros Hti. unfold lsuf, state_of, in_trie. split.
  - intros (q & Hq & Hsuf & Hmax). exists q. split_and!; [|done|].
    + by apply (walk_root_path gt paths).
    + intros q' [c Hc] Hq'. apply (walk_root_path gt paths) in Hc; [|done].
      by eapply Hmax.
  - intros (q & Hq & Hsuf & Hmax). exists q. split_and!; [|done|].
    + by apply (walk_root_path gt paths) in Hq.
    + intros j' q' Hj' Hq'. apply Hmax; [|done]. exists j'.
      by apply (walk_root_path gt paths).
Qed.
End AutomatonProofs.

(** The failure link of the root is [-1]; that of any other node is the
    node spelled by the longest proper suffix of its path that the trie
    holds. *)
Theorem failure_links_longest_proper_suffix {A : Type} `{EqDecision A}
    (words : list (list A)) :
  ∃ ac, AhoCorasick words = Some ac ∧ failure ac !! 0 = Some (-1)%Z ∧
    ∀ j q, j ≠ 0 → walk (goto ac) 0 q = Some j →
      ∃ f, failure ac !! j = Some (Z.of_nat f) ∧ state_of (goto ac) (tail q) f.
Proof.
  destruct (AhoCorasick_built words) as (ac1 & ac & paths & _ & Hac & Hb).
  pose proof (built_trie _ _ _ _ Hb) as Hti.
  exists ac. split_and!; [done| |].
  - destruct Hb as [_ [popped Hbi]]. apply Hbi.
  - intros j q Hj Hq. apply (walk_root_path _ paths) in Hq; [|done].
    destruct (trie_inv_nonroot _ _ _ _ Hti Hq Hj) as (p & l & ->).
    destruct (built_node _ _ _ _ _ _ _ Hb Hq) as (f & Hf & Hlsuf & _).
    exists f. split; [done|]. by apply (lsuf_state_of _ paths).
Qed.

(** [_findNext] is total on the states of the automaton: from the state
    for a text [x], reading [l] gives the state for [x] followed by [l]. *)
Theorem findNext_steps_to_state {A : Type} `{EqDecision A} (words : list (list A)) :
  ∃ ac, AhoCorasick words = Some ac ∧ state_of (goto ac) [] 0 ∧
    ∀ x j l, state_of (goto ac) x j →
      ∃ j', _findNext ac (Z.of_nat j) l = Some j' ∧ state_of (goto ac) (x ++ [l]) j'.
Proof.
  destruct (AhoCorasick_built words) as (ac1 & ac & paths & _ & Hac & Hb).
  pose proof (built_trie _ _ _ _ Hb) as Hti.
  exists ac. split_and!; [done| |].
  - apply (lsuf_state_of _ paths); [done|]. by eapply lsuf_root.
  - intros x j l Hj%(lsuf_state_of _ paths); [|done].
    destruct (built_findNext _ _ _ _ _ l _ Hb Hj) as (j' & Hnext & Hj').
    exists j'. split; [done|]. by apply (lsuf_state_of _ paths).
Qed.

(** Every pattern spells a node of the trie, and so does every prefix of
    a node's path. *)
Theorem patterns_in_trie {A : Type} `{EqDecision A} (words : list (list A)) :
  ∃ ac, AhoCorasick words = Some ac ∧
    Forall (in_trie (goto ac)) words ∧
    ∀ q1 q2, in_trie (goto ac) (q1 ++ q2) → in_trie (goto ac) q1.
Proof.
  destruct (AhoCorasick_built words) as (ac1 & ac & paths & _ & Hac & Hb).
  pose proof (built_trie _ _ _ _ Hb) as Hti. pose proof Hb as [Hii _].
  exists ac. split_and!; [done| |].
  - apply Forall_forall. intros w Hw%(ii_words _ _ _ Hii).
    apply list_elem_of_lookup in Hw as [j Hj]. exists j.
    by apply (walk_root_path _ paths).
  - intros q1 q2 [c Hc]. apply (walk_root_path _ paths) in Hc; [|done].
    assert (q1 ∈ paths) as [j Hj]%list_elem_of_lookup.
    { eapply trie_inv_prefix_closed; [done|]. by eapply list_elem_of_lookup_2. }
    exists j. by apply (walk_root_path _ paths).
Qed.

(** ** The scan consumers *)

(** With no empty pattern, [searchEndIndices] yields one pair for every
    position of the text, in order; the second component lists, in
    strictly increasing order, exactly the indices of the patterns that
    end at that position. *)
Theorem searchEndIndices_exact {A : Type} `{EqDecision A}
    (words : list (list A)) (s : list A) :
  Forall (λ w, w ≠ []) words →
  ∃ ac ends, AhoCorasick words = Some ac ∧ searchEndIndices ac s = Some ends ∧
    length ends = length s ∧
    ∀ e, e < length s →
      ∃ ids, ends !! e = Some (e, ids) ∧ StronglySorted lt ids ∧
        ∀ k, k ∈ ids ↔ ∃ w, words !! k = Some w ∧ ends_at w s e.
Proof.
  intros Hne. rewrite Forall_forall in Hne.
  destruct (AhoCorasick_built words) as (ac1 & ac & paths & _ & Hac & Hb).
  destruct (searchEndIndices_spec words ac1 ac paths s Hb) as (ends & Hends & Hlen & Hids).
  exists ac, ends. split_and!; [done..|]. intros e He.
  destruct (Hids e He) as (ids & c & bm & Hi & Hsort & Hc & Hbm & Hmem).
  destruct (lsuf_out_bits _ _ _ _ _ _ _ Hb Hc Hbm) as [Hsound Hcompl].
  exists ids. split_and!; [done..|]. intros k. rewrite Hmem. split.
  - intros (k' & w & Hk & Hw & Hsuf)%Hsound.
    apply Nat2Z.inj in Hk as <-. by exists w.
  - intros (w & Hw & _ & Hsuf). apply (Hcompl k w); [done| |done].
    apply Hne. by eapply list_elem_of_lookup_2.
Qed.

Lemma searchEndIndices_exact_example :
  ∃ ac ends, AhoCorasick [str "he"; str "she"] = Some ac ∧
    searchEndIndices ac (str "she") = Some ends ∧
    length ends = length (str "she") ∧
    ∀ e, e < length (str "she") →
      ∃ ids, ends !! e = Some (e, ids) ∧ StronglySorted lt ids ∧
        ∀ k, k ∈ ids ↔ ∃ w, [str "he"; str "she"] !! k = Some w ∧ ends_at w (str "she") e.
Proof. apply searchEndIndices_exact. by repeat constructor. Defined.

(** With no empty pattern, [searchLengths] yields one list for every
    position of the text; it holds, in strictly increasing order and each
    once, exactly the lengths of the patterns that end at that position. *)
Theorem searchLengths_exact {A : Type} `{EqDecision A}
    (words : list (list A)) (s : list A) :
  Forall (λ w, w ≠ []) words →
  ∃ ac lens, AhoCorasick words = Some ac ∧ searchLengths ac s = Some lens ∧
    length lens = length s ∧
    ∀ e, e < length s →
      ∃ ls, lens !! e = Some ls ∧ StronglySorted lt ls ∧
        ∀ n, n ∈ ls ↔ ∃ w, w ∈ words ∧ length w = n ∧ ends_at w s e.
Proof.
  intros Hne. rewrite Forall_forall in Hne.
  destruct (AhoCorasick_built words) as (ac1 & ac & paths & _ & Hac & Hb).
  destruct (searchLengths_spec words ac1 ac paths s Hb) as (lens & Hlens & Hlen & Hls).
  exists ac, lens. split_and!; [done..|]. intros e He.
  destruct (Hls e He) as (ls & c & bm & Hl & Hsort & Hc & Hbm & Hmem).
  destruct (lsuf_out_lens_bits _ _ _ _ _ _ _ Hb Hc Hbm) as [Hsound Hcompl].
  exists ls. split_and!; [done..|]. intros n. rewrite Hmem. split.
  - intros (w & Hn & Hw & Hsuf)%Hsound.
    apply Nat2Z.inj in Hn as ->. by exists w.
  - intros (w & Hw & <- & _ & Hsuf). apply (Hcompl w); [done|by apply Hne|done].
Qed.

Lemma searchLengths_exact_example :
  ∃ ac lens, AhoCorasick [str "he"; str "she"] = Some ac ∧
    searchLengths ac (str "she") = Some lens ∧
    length lens = length (str "she") ∧
    ∀ e, e < length (str "she") →
      ∃ ls, lens !! e = Some ls ∧ StronglySorted lt ls ∧
        ∀ n, n ∈ ls ↔ ∃ w, w ∈ [str "he"; str "she"] ∧ length w = n ∧
                          ends_at w (str "she") e.
Proof. apply searchLengths_exact. by repeat constructor. Defined.

Lemma events_from_no_words {A : Type} (bms : list Z) (i : nat) :
  events_from (@nil (list A)) bms i = [].
Proof. revert i. induction bms as [|bm bms IH]; intros i; [done|apply IH]. Qed.

(** From an empty pattern list the automaton is the root alone, and it
    matches nothing: [search] returns the empty mapping and
    [searchEndIndices] an empty list at every position. *)
Theorem empty_pattern_list_matches_nothing {A : Type} `{EqDecision A} (s : list A) :
  ∃ ac : automaton A, AhoCorasick [] = Some ac ∧ length (goto ac) = 1 ∧
    search ac [] s = Some [] ∧
    searchEndIndices ac s = Some ((λ e, (e, [])) <$> seq 0 (length s)).
Proof.
  destruct (AhoCorasick_built (@nil (list A))) as (ac1 & ac & paths & _ & Hac & Hb).
  destruct (search_result [] ac1 ac paths s Hb) as (bms & res & _ & _ & Hs & _ & Hget).
  destruct (searchEndIndices_spec [] ac1 ac paths s Hb) as (ends & Hends & Hlen & Hids).
  exists ac. split_and!; [done| | |].
  - pose proof Hac as Hac'. vm_compute in Hac'. by injection Hac' as <-.
  - rewrite Hs. f_equal. destruct res as [|[w l] res]; [done|].
    specialize (Hget w). simpl in Hget. rewrite decide_True in Hget by done.
    by rewrite events_from_no_words in Hget.
  - rewrite Hends. f_equal. apply list_eq. intros e. rewrite list_lookup_fmap.
    destruct (decide (e < length s)) as [He|He].
    + rewrite lookup_seq_lt by done. simpl.
      destruct (Hids e He) as (ids & c & bm & -> & _ & Hc & Hbm & Hmem).
      destruct (lsuf_out_bits _ _ _ _ _ _ _ Hb Hc Hbm) as [Hsound _].
      do 2 f_equal. destruct ids as [|k ids]; [done|].
      destruct (Hsound (Z.of_nat k)) as (i & w & _ & Hi & _); [apply Hmem; left|done].
    + rewrite lookup_seq_ge by lia. apply lookup_ge_None_2. lia.
Qed.

(** ** addBoldTag without a match *)

(** When none of the words occurs in the string, [addBoldTag] returns the
    string as it is, with no marker. *)
Theorem addBoldTag_without_match {A : Type} `{EqDecision A}
    (s : list A) (words : list (list A)) :
  Forall (λ w, w ≠ [] ∧ brute_force w s = []) words →
  addBoldTag_pieces s words = Some [Lit s].
Proof.
  intros Hnone. rewrite Forall_forall in Hnone. unfold addBoldTag_pieces.
  destruct (decide (Z.of_nat (length s) = 0%Z)); [done|].
  destruct (AhoCorasick_built words) as (ac1 & ac & paths & _ & Hac & Hb).
  rewrite Hac. cbn [mbind option_bind].
  destruct (search_result words ac1 ac paths s Hb)
    as (bms & res & Hlen & Hok & Hs & _ & Hget).
  rewrite Hs. cbn [mbind option_bind].
  destruct res as [|[w l] res]; [done|]. exfalso.
  assert (dict_get ((w, l) :: res) w = Some l) as Hl by (simpl; by rewrite decide_True).
  pose proof (Hget w) as Hw. rewrite Hl in Hw. cbn zeta in Hw.
  destruct (decide (_ = [])) as [|Hne]; [done|]. injection Hw as Hw.
  destruct l as [|k l']; [by rewrite <-Hw in Hne|].
  assert ((w, k) ∈ events_from words bms 0) as Hev.
  { apply (search_result_elem _ _ w k (Hget w)). exists (k :: l').
    split; [done|left]. }
  destruct (scan_event_sound _ _ _ _ _ _ _ _ Hb Hlen Hok Hev)
    as (idx & e & Hidx & He & Hsuf & _).
  destruct (Hnone w) as [Hwne Hbrute]; [by eapply list_elem_of_lookup_2|].
  apply suffix_take_occurs in Hsuf as [(Hle & Hocc & _)|?]; [|done..].
  assert (e - (length w - 1) ∈ brute_force w s) as Hin.
  { apply list_elem_of_filter. split; [done|]. apply elem_of_seq. lia. }
  rewrite Hbrute in Hin. by apply elem_of_nil in Hin.
Qed.

Lemma addBoldTag_without_match_example :
  addBoldTag_pieces (str "abc") [str "x"; str "cb"] = Some [Lit (str "abc")].
Proof. apply addBoldTag_without_match. by repeat constructor. Defined.

(** ** rollingHash with a function given *)

Section RollingHashProofs.
Context {A : Type}.
Implicit Types s : list A.
Implicit Types func : A → Z.

Lemma horner_snoc p vs v : horner p (vs ++ [v]) = (horner p vs * p + v)%Z.
Proof. unfold horner. by rewrite foldl_app. Qed.

(** One round of the first loop, on hashes that stand for the values
    read so far. *)
Lemma hash_push_spec p_lst md vs val :
  md ≠ 0%Z →
  hash_push ((λ p, horner p vs `mod` md)%Z <$> p_lst) p_lst md val =
  inr ((λ p, horner p (vs ++ [val]) `mod` md)%Z <$> p_lst).
Proof.
  intros Hmd. induction p_lst as [|p p_lst IH]; [done|].
  cbn [fmap list_fmap hash_push]. rewrite decide_False by done.
  fold (fmap (M := list) (λ p, horner p vs `mod` md)%Z p_lst).
  rewrite IH. do 2 f_equal. rewrite horner_snoc.
  rewrite <-(Z.add_mod_idemp_l (horner p vs `mod` md * p)) by done.
  by rewrite Z.mul_mod_idemp_l, Z.add_mod_idemp_l.
Qed.

Lemma fill_loop_spec func k s vs p_lst md :
  md ≠ 0%Z → k ≤ length s →
  fill_loop func k s ((λ p, horner p vs `mod` md)%Z <$> p_lst) p_lst md vs =
  inr (Some (drop k s,
             (λ p, horner p (vs ++ (func <$> take k s)) `mod` md)%Z <$> p_lst,
             vs ++ (func <$> take k s))).
Proof.
  intros Hmd. revert s vs. induction k as [|k IH]; intros s vs Hk.
  { simpl. by rewrite app_nil_r. }
  destruct s as [|x s]; [simpl in Hk; lia|].
  cbn [fill_loop]. rewrite hash_push_spec by done.
  rewrite IH by (simpl in Hk; lia). simpl. by rewrite <-!(assoc_L (++)).
Qed.

Lemma yielded_roll_loop func rest hsh mults p_lst md qu ys :
  ∃ ys', yielded (roll_loop func rest hsh mults p_lst md qu ys) = ys ++ ys'.
Proof.
  revert hsh qu ys. induction rest as [|x rest IH]; intros hsh qu ys.
  { exists []. simpl. by rewrite app_nil_r. }
  cbn [roll_loop]. destruct (hash_roll _ _ _ _ _ _) as [e|[hsh' qu']].
  - exists []. simpl. by rewrite app_nil_r.
  - destruct (IH hsh' qu' (ys ++ [hsh'])) as [ys' ->].
    exists (hsh' :: ys'). by rewrite <-(assoc_L (++)).
Qed.
End RollingHashProofs.

Lemma replicate_horner_nil (p_lst : list Z) (md : Z) :
  replicate (length p_lst) 0%Z = (λ p, horner p [] `mod` md)%Z <$> p_lst.
Proof. induction p_lst as [|p p_lst IH]; [done|]. simpl. by rewrite IH. Qed.

(** With a function given and a modulus that is not zero, the first tuple
    [rollingHash] yields holds, for every prime [p], the polynomial hash
    of the first [length] values at [p], reduced modulo [md]. *)
Theorem rollingHash_first_tuple {A : Type} (s : list A) (length : nat)
    (p_lst : list Z) (md : Z) (func : A → Z) :
  md ≠ 0%Z → length ≤ Datatypes.length s →
  head (yielded (rollingHash s length p_lst md (Some func))) =
  Some ((λ p, horner p (func <$> take length s) `mod` md)%Z <$> p_lst).
Proof.
  intros Hmd Hlen. unfold rollingHash.
  rewrite decide_False by lia.
  rewrite (replicate_horner_nil p_lst md).
  rewrite fill_loop_spec by done. simpl.
  rewrite decide_False by (by intros [? _]).
  destruct (yielded_roll_loop func (drop length s)
              ((λ p, horner p (func <$> take length s) `mod` md)%Z <$> p_lst)
              ((λ p, p ^ Z.of_nat length `mod` md)%Z <$> p_lst) p_lst md
              (func <$> take length s)
              [(λ p, horner p (func <$> take length s) `mod` md)%Z <$> p_lst])
    as [ys' ->].
  done.
Qed.

Lemma rollingHash_first_tuple_example :
  head (yielded (rollingHash [1; 2; 3]%Z 2 default_p_lst default_md (Some id))) =
  Some ((λ p, horner p (id <$> take 2 [1; 2; 3]%Z) `mod` default_md)%Z <$> default_p_lst).
Proof. apply rollingHash_first_tuple; [done|simpl; lia]. Defined.

Section RollingHashLoops.
Context {A : Type}.
Implicit Types func : A → Z.

Lemma roll_loop_no_prime func rest md qu ys :
  ∃ ys', roll_loop func rest [] [] [] md qu ys = Returned (ys ++ ys') ∧
    length ys' = length rest ∧ Forall (λ y, length y = 0) ys'.
Proof.
  revert qu ys. induction rest as [|x rest IH]; intros qu ys.
  { exists []. by rewrite app_nil_r. }
  cbn [roll_loop hash_roll].
  destruct (IH (qu ++ [func x]) (ys ++ [[]])) as (ys' & -> & Hlen & Hall).
  exists ([] :: ys'). rewrite <-(assoc_L (++)). split_and!; [done|simpl; lia|].
  by constructor.
Qed.

Lemma roll_loop_one_prime func rest h m p md qu ys :
  md ≠ 0%Z →
  ∃ ys', roll_loop func rest [h] [m] [p] md qu ys = Returned (ys ++ ys') ∧
    length ys' = length rest ∧ Forall (λ y, length y = 1) ys'.
Proof.
  intros Hmd. revert h qu ys. induction rest as [|x rest IH]; intros h qu ys.
  { exists []. by rewrite app_nil_r. }
  cbn [roll_loop]. destruct (qu ++ [func x]) as [|v qu'] eqn:Hqu.
  { by apply app_eq_nil in Hqu as [_ ?]. }
  cbn [hash_roll]. rewrite decide_False by done.
  destruct (IH (((h - m * v) * p + func x) `mod` md)%Z qu'
              (ys ++ [[(((h - m * v) * p + func x) `mod` md)%Z]]))
    as (ys' & -> & Hlen & Hall).
  eexists (_ :: ys'). rewrite <-(assoc_L (++)). split_and!; [done|simpl; lia|].
  by constructor.
Qed.

(** With two primes every round takes two elements off the queue and
    puts one on: the loop ends with [IndexError] when the queue runs out
    before the text does. *)
Lemma roll_loop_two_primes func rest h1 h2 m1 m2 p1 p2 md qu ys :
  md ≠ 0%Z →
  ∃ ys',
    (length rest ≤ length qu →
       roll_loop func rest [h1; h2] [m1; m2] [p1; p2] md qu ys = Returned (ys ++ ys') ∧
       length ys' = length rest) ∧
    (length qu < length rest →
       roll_loop func rest [h1; h2] [m1; m2] [p1; p2] md qu ys
         = Raised (ys ++ ys') IndexError ∧
       length ys' = length qu).
Proof.
  intros Hmd. revert h1 h2 qu ys.
  induction rest as [|x rest IH]; intros h1 h2 qu ys.
  { exists []. rewrite app_nil_r. split; [done|simpl; lia]. }
  cbn [roll_loop]. destruct qu as [|v1 qu1].
  { exists []. rewrite app_nil_r. split; [simpl; lia|]. intros _.
    cbn [app hash_roll]. by rewrite decide_False by done. }
  cbn [app]. destruct (qu1 ++ [func x]) as [|v2 qu2] eqn:Hqu.
  { by apply app_eq_nil in Hqu as [_ ?]. }
  assert (length qu2 = length qu1) as Hlen.
  { apply (f_equal length) in Hqu. rewrite length_app in Hqu. simpl in Hqu. lia. }
  cbn [hash_roll]. rewrite !decide_False by done.
  destruct (IH (((h1 - m1 * v1) * p1 + func x) `mod` md)%Z
               (((h2 - m2 * v2) * p2 + func x) `mod` md)%Z qu2
               (ys ++ [[(((h1 - m1 * v1) * p1 + func x) `mod` md)%Z;
                        (((h2 - m2 * v2) * p2 + func x) `mod` md)%Z]]))
    as (ys' & Hret & Hraise).
  rewrite <-(assoc_L (++)) in Hret, Hraise.
  eexists (_ :: ys'). split; intros Hcmp; simpl in Hcmp.
  - destruct Hret as [-> ?]; [lia|]. split; [done|simpl; lia].
  - destruct Hraise as [-> ?]; [lia|]. split; [done|simpl; lia].
Qed.
End RollingHashLoops.

(** With a function given, at most one prime and a modulus that is not
    zero, [rollingHash] ends without an exception and yields
    [len(s) - length + 1] tuples, one hash each per prime. *)
Theorem rollingHash_one_prime_returns {A : Type} (s : list A) (length : nat)
    (p_lst : list Z) (md : Z) (func : A → Z) :
  Datatypes.length p_lst ≤ 1 → md ≠ 0%Z → length ≤ Datatypes.length s →
  ∃ ys, rollingHash s length p_lst md (Some func) = Returned ys ∧
    Datatypes.length ys = Datatypes.length s - length + 1 ∧
    Forall (λ y, Datatypes.length y = Datatypes.length p_lst) ys.
Proof.
  intros Hp Hmd Hlen. unfold rollingHash. rewrite decide_False by lia.
  rewrite (replicate_horner_nil p_lst md).
  rewrite fill_loop_spec by done. cbn [app].
  rewrite decide_False by (by intros [? _]).
  destruct p_lst as [|p [|p' p_lst]]; [| |simpl in Hp; lia]; cbn [fmap list_fmap].
  - destruct (roll_loop_no_prime func (drop length s) md (func <$> take length s) [[]])
      as (ys' & -> & Hl & Hall).
    eexists. split_and!; [done| |by constructor].
    rewrite length_app, Hl, length_drop. simpl. lia.
  - destruct (roll_loop_one_prime func (drop length s)
                (horner p (func <$> take length s) `mod` md)%Z
                (p ^ Z.of_nat length `mod` md)%Z p md (func <$> take length s)
                [[(horner p (func <$> take length s) `mod` md)%Z]] Hmd)
      as (ys' & -> & Hl & Hall).
    eexists. split_and!; [done| |by constructor].
    rewrite length_app, Hl, length_drop. simpl. lia.
Qed.

Lemma rollingHash_one_prime_returns_example :
  ∃ ys, rollingHash [1; 2; 3; 4; 5]%Z 2 [37%Z] default_md (Some id) = Returned ys ∧
    Datatypes.length ys = Datatypes.length [1; 2; 3; 4; 5]%Z - 2 + 1 ∧
    Forall (λ y, Datatypes.length y = Datatypes.length [37%Z]) ys.
Proof. apply rollingHash_one_prime_returns; [simpl; lia|done|simpl; lia]. Defined.

(** With a function given, two primes (as in the default) and a modulus
    that is not zero, [rollingHash] ends without an exception only on a
    sequence of at most [2 * length] elements; on a longer one it ends
    with [IndexError], from [popleft] on the empty queue, after
    [length + 1] tuples. *)
Theorem rollingHash_two_primes_outcome {A : Type} (s : list A) (length : nat)
    (p1 p2 md : Z) (func : A → Z) :
  md ≠ 0%Z → length ≤ Datatypes.length s →
  ∃ ys,
    (Datatypes.length s ≤ 2 * length →
       rollingHash s length [p1; p2] md (Some func) = Returned ys ∧
       Datatypes.length ys = Datatypes.length s - length + 1) ∧
    (2 * length < Datatypes.length s →
       rollingHash s length [p1; p2] md (Some func) = Raised ys IndexError ∧
       Datatypes.length ys = length + 1).
Proof.
  intros Hmd Hlen. unfold rollingHash. rewrite decide_False by lia.
  change (replicate (Datatypes.length [p1; p2]) 0%Z)
    with ((λ p, horner p [] `mod` md)%Z <$> [p1; p2]).
  rewrite fill_loop_spec by done. cbn [app fmap list_fmap].
  rewrite decide_False by (by intros [? _]).
  destruct (roll_loop_two_primes func (drop length s)
              (horner p1 (func <$> take length s) `mod` md)%Z
              (horner p2 (func <$> take length s) `mod` md)%Z
              (p1 ^ Z.of_nat length `mod` md)%Z (p2 ^ Z.of_nat length `mod` md)%Z
              p1 p2 md (func <$> take length s)
              [[(horner p1 (func <$> take length s) `mod` md)%Z;
                (horner p2 (func <$> take length s) `mod` md)%Z]] Hmd)
    as (ys' & Hret & Hraise).
  rewrite length_drop, length_fmap, length_take in Hret, Hraise.
  eexists. split; intros Hcmp.
  - destruct Hret as [-> Hl]; [lia|]. split; [done|]. rewrite length_app, Hl. simpl. lia.
  - destruct Hraise as [-> Hl]; [lia|]. split; [done|]. rewrite length_app, Hl. simpl. lia.
Qed.

Lemma rollingHash_two_primes_outcome_example :
  ∃ ys,
    (Datatypes.length [1; 2; 3]%Z ≤ 2 * 1 →
       rollingHash [1; 2; 3]%Z 1 [37; 53]%Z default_md (Some id) = Returned ys ∧
       Datatypes.length ys = Datatypes.length [1; 2; 3]%Z - 1 + 1) ∧
    (2 * 1 < Datatypes.length [1; 2; 3]%Z →
       rollingHash [1; 2; 3]%Z 1 [37; 53]%Z default_md (Some id) = Raised ys IndexError ∧
       Datatypes.length ys = 1 + 1).
Proof. apply rollingHash_two_primes_outcome; [done|simpl; lia]. Defined.

(** ** wordBreak *)

Section WordBreakProofs.
Context {A : Type} `{EqDecision A}.
Implicit Types s w x : list A.
Implicit Types wordDict : list (list A).

Lemma segmentable_nil wordDict : segmentable wordDict [].
Proof. by exists []. Qed.

Lemma segmentable_snoc wordDict x w :
  segmentable wordDict x → w ∈ wordDict → segmentable wordDict (x ++ w).
Proof.
  intros (ws & <- & Hws) Hw. exists (ws ++ [w]). split.
  - rewrite concat_app. simpl. by rewrite app_nil_r.
  - apply Forall_app_2; [done|by apply Forall_singleton].
Qed.

(** A text that is segmentable and not empty ends with a word that is not
    empty, after a text that is segmentable. *)
Lemma segmentable_last wordDict x :
  segmentable wordDict x → x ≠ [] →
  ∃ x' w, x = x' ++ w ∧ w ∈ wordDict ∧ w ≠ [] ∧ segmentable wordDict x'.
Proof.
  intros (ws & <- & Hws). induction ws as [|w ws IH] using rev_ind; [done|].
  apply Forall_app in Hws as [Hws [Hw _]%Forall_cons].
  rewrite concat_app. simpl. rewrite app_nil_r. intros Hne.
  destruct (decide (w = [])) as [->|Hwne].
  - rewrite app_nil_r in Hne |- *. by apply IH.
  - exists (concat ws), w. split_and!; [done..|]. by exists ws.
Qed.

(** The inner loop at position [i]: [arr[i]] becomes true exactly when
    one of the lengths is [i + 1], or is some [j] from [1] to [i] with
    [arr[i - j]] true. *)
Lemma wb_inner_spec (arr : list bool) i lengths :
  i < length arr → arr !! i = Some false →
  Forall (λ j, j ≤ i + 1) lengths →
  ∃ b : bool, wb_inner arr i lengths = Some (<[i := b]> arr) ∧
    (b = true ↔ ∃ j, j ∈ lengths ∧
                   (j = i + 1 ∨ (0 < j ≤ i ∧ arr !! (i - j) = Some true))).
Proof.
  intros Hi Hfalse. induction lengths as [|j lengths IH]; intros Hall.
  { exists false. rewrite list_insert_id by done. split; [done|].
    split; [done|]. by intros (j & ?%elem_of_nil & _). }
  apply Forall_cons in Hall as [Hj Hall]. cbn [wb_inner].
  destruct (decide (j = i + 1)) as [->|Hne].
  { unfold py_set. rewrite decide_True by done. cbn [mbind option_bind].
    rewrite py_get_nat, list_lookup_insert_eq by done. cbn [mbind option_bind].
    exists true. split; [done|]. split; [|done]. intros _. exists (i + 1).
    split; [left|by left]. }
  rewrite decide_False by lia.
  replace (Z.of_nat i - Z.of_nat j)%Z with (Z.of_nat (i - j)) by lia.
  rewrite py_get_nat.
  destruct (lookup_lt_is_Some_2 arr (i - j)) as [a Ha]; [lia|].
  rewrite Ha. cbn [mbind option_bind]. destruct a.
  - assert (0 < j) as Hj0.
    { destruct j; [|lia]. rewrite Nat.sub_0_r in Ha. congruence. }
    unfold py_set. rewrite decide_True by done. cbn [mbind option_bind].
    rewrite py_get_nat, list_lookup_insert_eq by done. cbn [mbind option_bind].
    exists true. split; [done|]. split; [|done]. intros _. exists j.
    split; [left|right]. split; [lia|done].
  - cbn [mbind option_bind]. rewrite py_get_nat, Hfalse. cbn [mbind option_bind].
    destruct (IH Hall) as (b & -> & Hb). exists b. split; [done|].
    rewrite Hb. split.
    + intros (j' & Hj' & Hcase). exists j'. split; [by right|done].
    + intros (j' & [->|Hj']%elem_of_cons & Hcase); [|by exists j'].
      destruct Hcase as [?|[_ ?]]; [lia|congruence].
Qed.

(** One position of the table: with the lengths of the words that end at
    position [i], and the entries before [i] right, the entry the inner
    loop computes for [i] is right. *)
Lemma wb_entry_spec wordDict s (arr : list bool) i (ls : list nat) (b : bool) :
  i < length s →
  (∀ k, k < i → ∃ b', arr !! k = Some b' ∧
                       (b' = true ↔ segmentable wordDict (take (S k) s))) →
  (∀ n, n ∈ ls → ∃ w, w ∈ wordDict ∧ length w = n ∧ w `suffix_of` take (S i) s) →
  (∀ w, w ∈ wordDict → w ≠ [] → w `suffix_of` take (S i) s → length w ∈ ls) →
  (b = true ↔ ∃ j, j ∈ ls ∧ (j = i + 1 ∨ (0 < j ≤ i ∧ arr !! (i - j) = Some true))) →
  b = true ↔ segmentable wordDict (take (S i) s).
Proof.
  intros Hi Hdone Hsound Hcompl ->.
  assert (length (take (S i) s) = S i) as Hlen by (rewrite length_take; lia).
  split.
  - intros (j & Hj & Hcase). destruct (Hsound j Hj) as (w & Hw & <- & [x Hx]).
    assert (length x = S i - length w) as Hlx.
    { apply (f_equal length) in Hx. rewrite Hlen, length_app in Hx. lia. }
    rewrite Hx. apply segmentable_snoc; [|done].
    destruct Hcase as [Hall|[Hjw Harr]].
    + destruct x; [apply segmentable_nil|simpl in Hlx; lia].
    + destruct (Hdone (i - length w)) as (b' & Hb' & Hseg); [lia|].
      assert (b' = true) as -> by congruence.
      assert (x = take (S (i - length w)) s) as ->; [|by apply Hseg].
      apply (f_equal (take (length x))) in Hx.
      rewrite take_app_length, take_take in Hx. rewrite <-Hx. f_equal. lia.
  - intros Hseg.
    destruct (segmentable_last wordDict _ Hseg) as (x & w & Hx & Hw & Hwne & Hsegx).
    { intros Hnil. by rewrite Hnil in Hlen. }
    assert (w `suffix_of` take (S i) s) as Hsuf by by exists x.
    assert (length x + length w = S i) as Hlx.
    { apply (f_equal length) in Hx. rewrite Hlen, length_app in Hx. lia. }
    assert (0 < length w) by (destruct w; [done|simpl; lia]).
    exists (length w). split; [by apply Hcompl|].
    destruct (decide (length w = i + 1)) as [|Hne]; [by left|right].
    split; [lia|].
    destruct (Hdone (i - length w)) as (b' & Hb' & Hb); [lia|].
    rewrite Hb'. f_equal. apply Hb.
    assert (x = take (S (i - length w)) s) as <-; [|done].
    apply (f_equal (take (length x))) in Hx.
    rewrite take_app_length, take_take in Hx. rewrite <-Hx. f_equal. lia.
Qed.

Lemma wb_loop_spec wordDict s lens m i (arr : list bool) :
  length lens = length s →
  (∀ e, e < length s → ∃ ls, lens !! e = Some ls ∧
     (∀ n, n ∈ ls → ∃ w, w ∈ wordDict ∧ length w = n ∧ w `suffix_of` take (S e) s) ∧
     (∀ w, w ∈ wordDict → w ≠ [] → w `suffix_of` take (S e) s → length w ∈ ls)) →
  i + m = length s → length arr = length s →
  (∀ k, k < i → ∃ b', arr !! k = Some b' ∧
                       (b' = true ↔ segmentable wordDict (take (S k) s))) →
  (∀ k, i ≤ k < length s → arr !! k = Some false) →
  ∃ arr', wb_loop arr i (drop i lens) = Some arr' ∧ length arr' = length s ∧
    ∀ k, k < length s → ∃ b', arr' !! k = Some b' ∧
                              (b' = true ↔ segmentable wordDict (take (S k) s)).
Proof.
  intros Hlens Hlen. revert i arr.
  induction m as [|m IH]; intros i arr Him Harr Hdone Htodo.
  { rewrite drop_ge by lia. exists arr. split_and!; [done..|].
    intros k Hk. apply Hdone. lia. }
  destruct (Hlen i) as (ls & Hls & Hsound & Hcompl); [lia|].
  rewrite (drop_S _ _ _ Hls). cbn [wb_loop].
  destruct (wb_inner_spec arr i ls) as (b & -> & Hb); [lia|apply Htodo; lia| |].
  { apply Forall_forall. intros n (w & _ & <- & Hsuf%suffix_length)%Hsound.
    rewrite length_take in Hsuf. lia. }
  cbn [mbind option_bind]. apply IH; [lia|by rewrite length_insert| |].
  - intros k Hk. destruct (decide (k = i)) as [->|Hne].
    + exists b. rewrite list_lookup_insert_eq by lia. split; [done|].
      eapply wb_entry_spec; [lia|done..].
    + rewrite list_lookup_insert_ne by done. apply Hdone. lia.
  - intros k Hk. rewrite list_lookup_insert_ne by lia. apply Htodo. lia.
Qed.
End WordBreakProofs.

(** On a string that is not empty, [wordBreak] returns whether the string
    is a concatenation of words of the dictionary (an empty word in the
    dictionary changes nothing). *)
Theorem wordBreak_segmentable {A : Type} `{EqDecision A}
    (s : list A) (wordDict : list (list A)) :
  s ≠ [] →
  ∃ b : bool, wordBreak s wordDict = Some b ∧ (b = true ↔ segmentable wordDict s).
Proof.
  intros Hs. assert (0 < length s) as Hn by (destruct s; [done|simpl; lia]).
  destruct (AhoCorasick_built wordDict) as (ac1 & ac & paths & _ & Hac & Hb).
  destruct (searchLengths_spec wordDict ac1 ac paths s Hb) as (lens & Hlens & Hlen & Hls).
  destruct (wb_loop_spec wordDict s lens (length s) 0 (replicate (length s) false))
    as (arr & Hloop & Harr & Hall); [done| |done|apply length_replicate| | |].
  - intros e He. destruct (Hls e He) as (ls & c & bm & Hl & _ & Hc & Hbm & Hmem).
    destruct (lsuf_out_lens_bits _ _ _ _ _ _ _ Hb Hc Hbm) as [Hsound Hcompl].
    exists ls. split_and!; [done| |].
    + intros n (w & Hn' & Hw & Hsuf)%Hmem%Hsound.
      apply Nat2Z.inj in Hn' as ->. by exists w.
    + intros w Hw Hwne Hsuf. by apply Hmem, Hcompl.
  - intros k Hk. lia.
  - intros k Hk. apply lookup_replicate_2. lia.
  - destruct (Hall (length s - 1)) as (b & Hb' & Hseg); [lia|].
    exists b. split.
    + unfold wordBreak. rewrite Hac. cbn [mbind option_bind].
      rewrite Hlens. cbn [mbind option_bind].
      change (drop 0 lens) with lens in Hloop. rewrite Hloop. cbn [mbind option_bind].
      unfold py_get. rewrite Harr.
      destruct (Z.ltb_spec (-1) 0) as [_|]; [|lia].
      destruct (Z.ltb_spec (-1) (- Z.of_nat (length s))) as [|_]; [lia|].
      by replace (Z.to_nat (Z.of_nat (length s) + -1)) with (length s - 1) by lia.
    + rewrite Hseg. replace (S (length s - 1)) with (length s) by lia.
      by rewrite firstn_all.
Qed.

Lemma wordBreak_segmentable_leetcode :
  ∃ b : bool, wordBreak (str "leetcode") [str "leet"; str "code"] = Some b ∧
    (b = true ↔ segmentable [str "leet"; str "code"] (str "leetcode")).
Proof. by apply wordBreak_segmentable. Defined.

(** On the empty string [wordBreak] fails: [arr] is empty and [arr[-1]]
    raises [IndexError], whatever the dictionary. *)
Theorem wordBreak_empty_string_fails {A : Type} `{EqDecision A}
    (wordDict : list (list A)) :
  wordBreak [] wordDict = None.
Proof.
  destruct (AhoCorasick_built wordDict) as (ac1 & ac & paths & _ & Hac & _).
  unfold wordBreak. rewrite Hac. reflexivity.
Qed.
(** ** wordBreak2 *)

Section WordBreak2Proofs.
Implicit Types s w t : list ascii.
Implicit Types wordDict : list (list ascii).
Implicit Types dp : list (list (list ascii)).

Lemma sentence_snoc (ws : list (list ascii)) w :
  ws ≠ [] → sentence (ws ++ [w]) = join2 (sentence ws) w.
Proof. destruct ws as [|w0 ws]; [done|]. intros _. simpl. by rewrite foldl_app. Qed.

Lemma py_index_nat n k : k < n → py_index n (Z.of_nat k) = Some k.
Proof.
  intros Hk. unfold py_index. destruct (Z.ltb_spec (Z.of_nat k) 0); [lia|].
  rewrite Nat2Z.id. by rewrite decide_True.
Qed.

(** A concatenation of words that are not empty is empty only if there is
    no word. *)
Lemma concat_nonempty (ws : list (list ascii)) :
  Forall (λ w, w ≠ []) ws → concat ws = [] → ws = [].
Proof.
  destruct ws as [|w ws]; [done|]. intros [Hw _]%Forall_cons. simpl.
  by intros [? _]%app_eq_nil.
Qed.

(** One word at position [i]: what it adds to [dp[i]]. *)
Lemma wb2_word_spec wordDict dp i j w cur :
  i < length dp → dp !! i = Some cur →
  wordDict !! j = Some w → 0 < length w ≤ i + 1 →
  ∃ new, wb2_word wordDict dp i j = Some (<[i := cur ++ new]> dp) ∧
    ∀ t, t ∈ new ↔
      (length w = i + 1 ∧ t = w) ∨
      (length w ≤ i ∧ ∃ src t', dp !! (i - length w) = Some src ∧ t' ∈ src ∧
                                t = join2 t' w).
Proof.
  intros Hi Hcur Hw Hlen. unfold wb2_word. rewrite Hw. cbn [mbind option_bind].
  destruct (decide (length w = i + 1)) as [Heq|Hne].
  { rewrite Hcur. cbn [mbind option_bind]. unfold py_set. rewrite decide_True by done.
    exists [w]. split; [done|]. intros t. rewrite list_elem_of_singleton. split.
    - intros ->. by left.
    - intros [[_ ->]|[? _]]; [done|lia]. }
  replace (Z.of_nat i - Z.of_nat (length w))%Z with (Z.of_nat (i - length w)) by lia.
  rewrite py_index_nat by lia. cbn [mbind option_bind].
  destruct (lookup_lt_is_Some_2 dp (i - length w)) as [src Hsrc]; [lia|].
  rewrite Hsrc. cbn [mbind option_bind].
  exists ((λ s2, join2 s2 w) <$> src). split.
  - destruct src as [|t0 src].
    + simpl. by rewrite app_nil_r, list_insert_id.
    + rewrite decide_False by lia. rewrite Hcur. cbn [mbind option_bind].
      unfold py_set. by rewrite decide_True.
  - intros t. rewrite list_elem_of_fmap. split.
    + intros (t' & -> & Ht'). right. split; [lia|]. by exists src, t'.
    + intros [[? _]|(_ & src' & t' & Hsrc' & Ht' & ->)]; [lia|].
      assert (src' = src) as -> by congruence. by exists t'.
Qed.

(** The words that end at position [i]: what they add to [dp[i]]. *)
Lemma wb2_inner_spec wordDict dp i inds cur :
  i < length dp → dp !! i = Some cur →
  Forall (λ j, ∃ w, wordDict !! j = Some w ∧ 0 < length w ≤ i + 1) inds →
  ∃ cur', wb2_inner wordDict dp i inds = Some (<[i := cur']> dp) ∧
    ∀ t, t ∈ cur' ↔
      t ∈ cur ∨ ∃ j w, j ∈ inds ∧ wordDict !! j = Some w ∧
        ((length w = i + 1 ∧ t = w) ∨
         (length w ≤ i ∧ ∃ src t', dp !! (i - length w) = Some src ∧ t' ∈ src ∧
                                   t = join2 t' w)).
Proof.
  intros Hi. revert dp cur Hi.
  induction inds as [|j inds IH]; intros dp cur Hi Hcur Hall.
  { exists cur. rewrite list_insert_id by done. split; [done|]. intros t.
    split; [by left|]. by intros [?|(j & w & ?%elem_of_nil & _)]. }
  apply Forall_cons in Hall as [(w & Hw & Hlen) Hall].
  destruct (wb2_word_spec wordDict dp i j w cur Hi Hcur Hw Hlen) as (new & Hword & Hnew).
  cbn [wb2_inner]. rewrite Hword. cbn [mbind option_bind].
  destruct (IH (<[i := cur ++ new]> dp) (cur ++ new)) as (cur' & Hinner & Hcur').
  { by rewrite length_insert. }
  { by apply list_lookup_insert_eq. }
  { done. }
  rewrite list_insert_insert_eq in Hinner.
  exists cur'. split; [done|]. intros t. rewrite Hcur', elem_of_app, Hnew.
  split.
  - intros [[?|Hcase]|(j' & w' & Hj' & Hw' & Hcase)]; [by left| |].
    + right. exists j, w. split; [left|done].
    + right. exists j', w'. split; [by right|]. split; [done|].
      destruct Hcase as [?|(Hle & src & t' & Hsrc & ?)]; [by left|right].
      split; [done|]. exists src, t'. split; [|done].
      rewrite <-Hsrc. symmetry. apply list_lookup_insert_ne.
      eapply Forall_forall in Hall; [|exact Hj'].
      destruct Hall as (w'' & Hw'' & ?). assert (w'' = w') as -> by congruence. lia.
  - intros [?|(j' & w' & [->|Hj']%elem_of_cons & Hw' & Hcase)]; [by left; left| |].
    + assert (w' = w) as -> by congruence. by left; right.
    + right. exists j', w'. split; [done|]. split; [done|].
      destruct Hcase as [?|(Hle & src & t' & Hsrc & ?)]; [by left|right].
      split; [done|]. exists src, t'. split; [|done].
      rewrite <-Hsrc. apply list_lookup_insert_ne.
      eapply Forall_forall in Hall; [|exact Hj'].
      destruct Hall as (w'' & Hw'' & ?). assert (w'' = w') as -> by congruence. lia.
Qed.

(** One position of the table: with the indices of the words that end at
    position [i], and the entries before [i] right, the entry the inner
    loop computes for [i] is right. *)
Lemma wb2_entry_spec wordDict s dp i (ids : list nat) (cur' : list (list ascii)) :
  Forall (λ w, w ≠ []) wordDict → i < length s →
  (∀ k, k < i → ∃ l, dp !! k = Some l ∧
                     ∀ t, t ∈ l ↔ sentence_of wordDict (take (S k) s) t) →
  (∀ k, k ∈ ids ↔ ∃ w, wordDict !! k = Some w ∧ w `suffix_of` take (S i) s) →
  (∀ t, t ∈ cur' ↔
     ∃ j w, j ∈ ids ∧ wordDict !! j = Some w ∧
       ((length w = i + 1 ∧ t = w) ∨
        (length w ≤ i ∧ ∃ src t', dp !! (i - length w) = Some src ∧ t' ∈ src ∧
                                  t = join2 t' w))) →
  ∀ t, t ∈ cur' ↔ sentence_of wordDict (take (S i) s) t.
Proof.
  intros Hne Hi Hdone Hids Hcur t. rewrite Forall_forall in Hne.
  assert (length (take (S i) s) = S i) as Hlen by (rewrite length_take; lia).
  assert (∀ x w, take (S i) s = x ++ w → 0 < length w → length w ≤ i →
                 x = take (S (i - length w)) s) as Hpre.
  { intros x w Hx ? ?.
    assert (length x = S (i - length w)) as Hlx.
    { apply (f_equal length) in Hx. rewrite Hlen, length_app in Hx. lia. }
    apply (f_equal (take (length x))) in Hx.
    rewrite take_app_length, take_take in Hx. rewrite <-Hx. f_equal. lia. }
  rewrite Hcur. split.
  - intros (j & w & Hj & Hw & Hcase).
    apply Hids in Hj as (w' & Hw' & [x Hx]). assert (w' = w) as -> by congruence.
    assert (w ∈ wordDict) as Hin by by eapply list_elem_of_lookup_2.
    assert (0 < length w).
    { pose proof (Hne w Hin). destruct w; [done|simpl; lia]. }
    destruct Hcase as [[Hall ->]|(Hle & src & t' & Hsrc & Ht' & ->)].
    + exists [w]. split_and!; [by apply Forall_singleton| |done].
      simpl. rewrite app_nil_r. apply (f_equal length) in Hx as Hlx.
      rewrite Hlen, length_app in Hlx. destruct x; [done|simpl in Hlx; lia].
    + destruct (Hdone (i - length w)) as (l & Hl & Hsent); [lia|].
      assert (l = src) as -> by congruence.
      apply Hsent in Ht' as (ws & Hws & Hcat & ->).
      assert (ws ≠ []) as Hwsne.
      { intros ->. simpl in Hcat. apply (f_equal length) in Hcat.
        rewrite length_take in Hcat. change (length (@nil ascii)) with 0 in Hcat. lia. }
      exists (ws ++ [w]). split_and!.
      * apply Forall_app_2; [done|by apply Forall_singleton].
      * rewrite concat_app, Hcat. simpl. rewrite app_nil_r, Hx. f_equal.
        symmetry. by apply Hpre.
      * by rewrite sentence_snoc.
  - intros (ws & Hws & Hcat & ->).
    destruct ws as [|w ws _] using rev_ind.
    { simpl in Hcat. by rewrite <-Hcat in Hlen. }
    apply Forall_app in Hws as [Hws [Hw _]%Forall_cons].
    rewrite concat_app in Hcat. simpl in Hcat. rewrite app_nil_r in Hcat.
    assert (0 < length w).
    { pose proof (Hne w Hw). destruct w; [done|simpl; lia]. }
    assert (w `suffix_of` take (S i) s) as Hsuf by by exists (concat ws).
    pose proof Hw as [j Hj]%list_elem_of_lookup.
    exists j, w. split; [apply Hids; by exists w|]. split; [done|].
    apply (f_equal length) in Hcat as Hlcat. rewrite Hlen, length_app in Hlcat.
    destruct (decide (ws = [])) as [->|Hwsne].
    + left. simpl in Hlcat. split; [lia|done].
    + right.
      assert (concat ws ≠ []) as Hcne.
      { intros Hnil. apply Hwsne, concat_nonempty; [|done].
        apply Forall_forall. intros w' Hw'. apply Hne.
        rewrite Forall_forall in Hws. by apply Hws. }
      assert (0 < length (concat ws)) by (destruct (concat ws); [done|simpl; lia]).
      split; [lia|].
      destruct (Hdone (i - length w)) as (l & Hl & Hsent); [lia|].
      exists l, (sentence ws). split_and!; [done| |by apply sentence_snoc].
      apply Hsent. exists ws. split_and!; [done| |done].
      apply Hpre; [done|lia..].
Qed.

Lemma wb2_loop_spec wordDict s (ends : list (nat * list nat)) m i dp :
  Forall (λ w, w ≠ []) wordDict → length ends = length s →
  (∀ e, e < length s → ∃ ids, ends !! e = Some (e, ids) ∧
     ∀ k, k ∈ ids ↔ ∃ w, wordDict !! k = Some w ∧ w `suffix_of` take (S e) s) →
  i + m = length s → length dp = length s →
  (∀ k, k < i → ∃ l, dp !! k = Some l ∧
                     ∀ t, t ∈ l ↔ sentence_of wordDict (take (S k) s) t) →
  (∀ k, i ≤ k < length s → dp !! k = Some []) →
  ∃ dp', wb2_loop wordDict dp (drop i ends) = Some dp' ∧ length dp' = length s ∧
    ∀ k, k < length s → ∃ l, dp' !! k = Some l ∧
                             ∀ t, t ∈ l ↔ sentence_of wordDict (take (S k) s) t.
Proof.
  intros Hne Hends Hids. revert i dp.
  induction m as [|m IH]; intros i dp Him Hdp Hdone Htodo.
  { rewrite drop_ge by lia. exists dp. split_and!; [done..|].
    intros k Hk. apply Hdone. lia. }
  destruct (Hids i) as (ids & Hi & Hmem); [lia|].
  rewrite (drop_S _ _ _ Hi). cbn [wb2_loop].
  destruct (wb2_inner_spec wordDict dp i ids []) as (cur' & -> & Hcur');
    [lia|apply Htodo; lia| |].
  { apply Forall_forall. intros k (w & Hw & Hsuf)%Hmem. exists w. split; [done|].
    rewrite Forall_forall in Hne.
    pose proof (Hne w (list_elem_of_lookup_2 _ _ _ Hw)).
    apply suffix_length in Hsuf. rewrite length_take in Hsuf.
    assert (0 < length w) by (destruct w; [done|simpl; lia]). lia. }
  cbn [mbind option_bind]. apply IH; [lia|by rewrite length_insert| |].
  - intros k Hk. destruct (decide (k = i)) as [->|Hki].
    + exists cur'. rewrite list_lookup_insert_eq by lia. split; [done|].
      eapply wb2_entry_spec; [done|lia|done..|].
      intros t. rewrite Hcur'. split; [|by right].
      by intros [?%elem_of_nil|?].
    + rewrite list_lookup_insert_ne by done. apply Hdone. lia.
  - intros k Hk. rewrite list_lookup_insert_ne by lia. apply Htodo. lia.
Qed.
End WordBreak2Proofs.

(** With no empty word in the dictionary and a string that is not empty,
    [wordBreak2] returns the sentences that spell the string: the ways of
    writing it as words of the dictionary, a space between one word and
    the next. *)
Theorem wordBreak2_sentences (s : list ascii) (wordDict : list (list ascii)) :
  s ≠ [] → Forall (λ w, w ≠ []) wordDict →
  ∃ res, wordBreak2 s wordDict = Some res ∧
    ∀ t, t ∈ res ↔ sentence_of wordDict s t.
Proof.
  intros Hs Hne. assert (0 < length s) as Hn by (destruct s; [done|simpl; lia]).
  destruct (AhoCorasick_built wordDict) as (ac1 & ac & paths & _ & Hac & Hb).
  destruct (searchEndIndices_spec wordDict ac1 ac paths s Hb) as (ends & Hends & Hlen & Hids).
  destruct (wb2_loop_spec wordDict s ends (length s) 0 (replicate (length s) []))
    as (dp & Hloop & Hdp & Hall); [done|done| |done|apply length_replicate| | |].
  - intros e He. destruct (Hids e He) as (ids & c & bm & Hi & _ & Hc & Hbm & Hmem).
    destruct (lsuf_out_bits _ _ _ _ _ _ _ Hb Hc Hbm) as [Hsound Hcompl].
    exists ids. split; [done|]. intros k. rewrite Hmem. split.
    + intros (k' & w & Hk & Hw & Hsuf)%Hsound. apply Nat2Z.inj in Hk as <-.
      by exists w.
    + intros (w & Hw & Hsuf). apply (Hcompl k w Hw); [|done].
      rewrite Forall_forall in Hne. apply Hne. by eapply list_elem_of_lookup_2.
  - intros k Hk. lia.
  - intros k Hk. apply lookup_replicate_2. lia.
  - destruct (Hall (length s - 1)) as (l & Hl & Hsent); [lia|].
    exists l. split.
    + unfold wordBreak2. rewrite Hac. cbn [mbind option_bind].
      rewrite Hends. cbn [mbind option_bind].
      change (drop 0 ends) with ends in Hloop. rewrite Hloop. cbn [mbind option_bind].
      unfold py_get. rewrite Hdp.
      destruct (Z.ltb_spec (-1) 0) as [_|]; [|lia].
      destruct (Z.ltb_spec (-1) (- Z.of_nat (length s))) as [|_]; [lia|].
      by replace (Z.to_nat (Z.of_nat (length s) + -1)) with (length s - 1) by lia.
    + intros t. rewrite Hsent. replace (S (length s - 1)) with (length s) by lia.
      by rewrite firstn_all.
Qed.

Lemma wordBreak2_sentences_catsanddog :
  str "catsanddog" ≠ [] ∧
  Forall (λ w, w ≠ []) (str <$> ["cat"; "cats"; "and"; "sand"; "dog"]%string) ∧
  ∃ res, wordBreak2 (str "catsanddog")
           (str <$> ["cat"; "cats"; "and"; "sand"; "dog"]%string) = Some res ∧
    ∀ t, t ∈ res ↔
         sentence_of (str <$> ["cat"; "cats"; "and"; "sand"; "dog"]%string)
           (str "catsanddog") t.
Proof.
  split; [done|]. split; [by repeat constructor|].
  apply wordBreak2_sentences; [done|by repeat constructor].
Defined.

(** On the empty string [wordBreak2] fails: [dp] is empty and [dp[-1]]
    raises [IndexError], whatever the dictionary. *)
Theorem wordBreak2_empty_string_fails (wordDict : list (list ascii)) :
  wordBreak2 [] wordDict = None.
Proof.
  destruct (AhoCorasick_built wordDict) as (ac1 & ac & paths & _ & Hac & _).
  unfold wordBreak2. rewrite Hac. reflexivity.
Qed.

(** * The Z algorithm *)

Section LcpFacts.
Context {A : Type} `{EqDecision A}.
Implicit Types x y s : list A.

(** What determines the longest common prefix. *)
Lemma lcp_unique x y z :
  z ≤ length x → z ≤ length y →
  (∀ k, k < z → x !! k = y !! k) →
  (z < length x → z < length y → x !! z ≠ y !! z) →
  lcp x y = z.
Proof.
  revert y z. induction x as [|a x IH]; intros y z Hx Hy Hsame Hdiff.
  { simpl in Hx. by assert (z = 0) as -> by lia. }
  destruct y as [|b y]; [simpl in Hy; by assert (z = 0) as -> by lia|].
  simpl. destruct z as [|z].
  - rewrite decide_False; [done|]. intros ->.
    by apply Hdiff; simpl; [lia..|].
  - pose proof (Hsame 0 ltac:(lia)) as H0. simpl in H0. injection H0 as ->.
    rewrite decide_True by done. f_equal. apply IH; [simpl in *; lia..| |].
    + intros k Hk. apply (Hsame (S k)). lia.
    + intros ? ?. apply Hdiff; simpl; lia.
Qed.

Lemma lcp_spec x y :
  lcp x y ≤ length x ∧ lcp x y ≤ length y ∧
  (∀ k, k < lcp x y → x !! k = y !! k) ∧
  (lcp x y < length x → lcp x y < length y → x !! lcp x y ≠ y !! lcp x y).
Proof.
  revert y. induction x as [|a x IH]; intros y.
  { simpl. split_and!; [lia..| |]; intros; lia. }
  destruct y as [|b y]; [simpl; split_and!; [lia..| |]; intros; lia|].
  simpl. destruct (decide (a = b)) as [->|Hne].
  - destruct (IH y) as (H1 & H2 & H3 & H4). split_and!; [lia..| |].
    + intros [|k] Hk; [done|]. apply H3. lia.
    + intros ? ?. apply H4; lia.
  - split_and!; [lia..| |]; [intros; lia|]. intros _ _. simpl. congruence.
Qed.

(** The entry of the Z array at [i], element by element. *)
Lemma z_entry_unique s i z :
  i + z ≤ length s →
  (∀ k, k < z → s !! (i + k) = s !! k) →
  (i + z < length s → s !! (i + z) ≠ s !! z) →
  z_entry s i = z.
Proof.
  intros Hlen Hsame Hdiff. unfold z_entry.
  apply lcp_unique; [lia|rewrite length_drop; lia| |].
  - intros k Hk. rewrite lookup_drop. symmetry. by apply Hsame.
  - rewrite length_drop, lookup_drop. intros _ ? Heq.
    destruct Hdiff; [lia|done].
Qed.

Lemma z_entry_spec s i :
  i ≤ length s →
  i + z_entry s i ≤ length s ∧
  (∀ k, k < z_entry s i → s !! (i + k) = s !! k) ∧
  (i + z_entry s i < length s → s !! (i + z_entry s i) ≠ s !! z_entry s i).
Proof.
  intros Hi. unfold z_entry.
  destruct (lcp_spec s (drop i s)) as (H1 & H2 & H3 & H4).
  rewrite length_drop in H2, H4. split_and!; [lia| |].
  - intros k Hk. rewrite <-lookup_drop. symmetry. by apply H3.
  - intros Hlt Heq. rewrite <-lookup_drop in Heq. destruct H4; [lia..|done].
Qed.
End LcpFacts.

Section ZArrayProofs.
Context {A : Type} `{EqDecision A}.
Implicit Types s : list A.

Lemma z_extend_spec s lft k rgt :
  lft ≤ rgt → rgt + k = length s → z_box s lft rgt →
  ∃ rgt', z_extend s lft k rgt = Some rgt' ∧ rgt ≤ rgt' ≤ length s ∧
    z_box s lft rgt' ∧ (rgt' < length s → s !! rgt' ≠ s !! (rgt' - lft)).
Proof.
  revert rgt. induction k as [|k IH]; intros rgt Hle Hlen Hbox.
  { exists (length s). simpl. split_and!; [done|lia..| |lia].
    intros j Hj. apply Hbox. lia. }
  cbn [z_extend].
  destruct (lookup_lt_is_Some_2 s rgt) as [a Ha]; [lia|].
  destruct (lookup_lt_is_Some_2 s (rgt - lft)) as [b Hb]; [lia|].
  replace (Z.of_nat rgt - Z.of_nat lft)%Z with (Z.of_nat (rgt - lft)) by lia.
  rewrite py_get_nat, Ha, Hb. cbn [mbind option_bind].
  destruct (decide (a ≠ b)) as [Hne|Heq%dec_stable].
  - exists rgt. split_and!; [done|lia..|done|]. intros _. rewrite Ha, Hb. congruence.
  - destruct (IH (S rgt)) as (rgt' & Hext & Hrgt & Hbox' & Hstop); [lia..| |].
    { intros j Hj. destruct (decide (j = rgt)) as [->|]; [|apply Hbox; lia].
      by rewrite Ha, Hb, Heq. }
    exists rgt'. split_and!; [done|lia..|done|done].
Qed.

Lemma z_entry_box s i rgt :
  i ≤ rgt ≤ length s → z_box s i rgt →
  (rgt < length s → s !! rgt ≠ s !! (rgt - i)) →
  z_entry s i = rgt - i.
Proof.
  unfold z_box. intros Hrgt Hbox Hstop. apply z_entry_unique; [lia| |].
  - intros k Hk. rewrite Hbox by lia. f_equal. lia.
  - replace (i + (rgt - i)) with rgt by lia. done.
Qed.

(** The main loop of [constructZArray]. *)
Lemma z_loop_spec s k i (res : list nat) lft rgt :
  i + k = length s → 1 ≤ i → length res = length s →
  (∀ j, 1 ≤ j < i → res !! j = Some (z_entry s j)) →
  (∀ j, j = 0 ∨ i ≤ j → j < length s → res !! j = Some 0) →
  (lft = 0 ∧ rgt = 1) ∨ (1 ≤ lft < i ∧ lft ≤ rgt ≤ length s ∧ z_box s lft rgt) →
  ∃ res', z_loop s k i res lft rgt = Some res' ∧ length res' = length s ∧
    ∀ j, 1 ≤ j < length s → res' !! j = Some (z_entry s j).
Proof.
  revert i res lft rgt.
  induction k as [|k IH]; intros i res lft rgt Hik Hi Hlen Hdone Htodo Hbox.
  { exists res. split_and!; [done..|]. intros j Hj. apply Hdone. lia. }
  cbn [z_loop].
  replace (Z.of_nat i - Z.of_nat lft)%Z with (Z.of_nat (i - lft)) by lia.
  rewrite py_get_nat.
  assert (∀ z, (∀ j, 1 ≤ j < S i → <[i := z]> res !! j = Some (z_entry s j)) ↔
               z = z_entry s i) as Hset.
  { intros z. split.
    - intros Hz. specialize (Hz i ltac:(lia)).
      rewrite list_lookup_insert_eq in Hz by lia. congruence.
    - intros -> j Hj. destruct (decide (j = i)) as [->|];
        [by rewrite list_lookup_insert_eq by lia|].
      rewrite list_lookup_insert_ne by done. apply Hdone. lia. }
  assert (∀ z j, j = 0 ∨ S i ≤ j → j < length s → <[i := z]> res !! j = Some 0)
    as Htodo'.
  { intros z j Hj Hjn. rewrite list_lookup_insert_ne by lia. apply Htodo; [lia|done]. }
  (* extending from [i], given that the window up to [start] is right *)
  assert (∀ start, i ≤ start ≤ length s → z_box s i start →
            ∃ res', (rgt' ← z_extend s i (length s - start) start;
                     z_loop s k (S i) (<[i := rgt' - i]> res) i rgt') = Some res' ∧
                    length res' = length s ∧
                    ∀ j, 1 ≤ j < length s → res' !! j = Some (z_entry s j))
    as Hextend.
  { intros start Hstart Hpre.
    destruct (z_extend_spec s i (length s - start) start)
      as (rgt' & -> & Hrgt' & Hbox' & Hstop); [lia..|done|].
    cbn [mbind option_bind].
    apply IH; [lia..|by rewrite length_insert| |by apply Htodo'|].
    - apply Hset. symmetry. apply z_entry_box; [lia|done..].
    - right. split_and!; [lia..|done]. }
  destruct Hbox as [[-> ->]|(Hlft & Hrgt & Hbox)].
  - rewrite Nat.sub_0_r, (Htodo i) by lia. cbn [mbind option_bind].
    rewrite decide_False by lia. rewrite Nat.max_r by lia.
    apply Hextend; [lia|]. intros j Hj. lia.
  - unfold z_box in Hbox.
    rewrite (Hdone (i - lft)) by lia. cbn [mbind option_bind].
    destruct (z_entry_spec s (i - lft)) as (Hzlen & Hzsame & Hzdiff); [lia|].
    set (z := z_entry s (i - lft)) in *.
    destruct (decide (Z.of_nat z < Z.of_nat rgt - Z.of_nat i)%Z) as [Hin|Hout].
    + apply IH; [lia..|by rewrite length_insert| |by apply Htodo'|].
      * apply Hset. symmetry. apply z_entry_unique; [lia| |].
        -- intros j Hj. rewrite Hbox by lia. rewrite <-(Hzsame j) by done. f_equal. lia.
        -- intros _. rewrite Hbox by lia.
           replace (i + z - lft) with (i - lft + z) by lia. apply Hzdiff. lia.
      * right. split_and!; [lia..|done].
    + apply Hextend; [lia|]. intros j Hj.
      destruct (decide (rgt ≤ i)); [lia|].
      rewrite Hbox by lia. rewrite <-(Hzsame (j - i)) by lia. f_equal. lia.
Qed.
End ZArrayProofs.

(** [constructZArray] returns, for a sequence that is not empty, its Z
    array: entry [i] is the length of the longest common prefix of the
    sequence and its suffix from [i] (and so its length, at [0]). *)
Theorem constructZArray_longest_common_prefix {A : Type} `{EqDecision A} (s : list A) :
  s ≠ [] → constructZArray s = Some (z_entry s <$> seq 0 (length s)).
Proof.
  intros Hs. assert (0 < length s) as Hn by (destruct s; [done|simpl; lia]).
  unfold constructZArray.
  destruct (z_loop_spec s (length s - 1) 1 (replicate (length s) 0) 0 1)
    as (res & -> & Hlen & Hres); [lia|done|apply length_replicate| | |by left|].
  - intros j Hj. lia.
  - intros j _ Hj. by apply lookup_replicate_2.
  - cbn [mbind option_bind]. rewrite decide_False by lia. f_equal.
    apply list_eq. intros j. rewrite list_lookup_fmap.
    destruct (decide (j < length s)) as [Hj|Hj].
    + rewrite lookup_seq_lt by done. simpl. destruct j as [|j].
      * rewrite list_lookup_insert_eq by lia. f_equal. symmetry.
        apply z_entry_unique; [lia|done|lia].
      * rewrite list_lookup_insert_ne by done. apply Hres. lia.
    + rewrite lookup_seq_ge by lia. apply lookup_ge_None_2.
      rewrite length_insert. lia.
Qed.

(** The string of the docstring, whose Z array is
    [[13, 0, 1, 0, 2, 0, 0, 5, 0, 1, 0, 1, 0]]. *)
Lemma constructZArray_abacabcabacad :
  constructZArray (str "abacabcabacad") =
  Some (z_entry (str "abacabcabacad") <$> seq 0 (length (str "abacabcabacad"))).
Proof. by apply constructZArray_longest_common_prefix. Defined.

Section ZMatchProofs.
Context {A : Type} `{EqDecision A}.
Implicit Types p s : list A.

Lemma z_yield_spec (z_arr : list nat) m (Q : nat → Prop) `{!∀ e, Decision (Q e)}
    start cnt :
  (∀ j, j < cnt → ∃ z, z_arr !! (m + 1 + (start + j)) = Some z ∧
                        (z = m ↔ Q (start + j))) →
  z_yield z_arr m (seq (m + 1 + start) cnt) =
  Some (Z.of_nat <$> filter Q (seq start cnt)).
Proof.
  revert start. induction cnt as [|cnt IH]; intros start Hz; [done|].
  cbn [seq z_yield].
  destruct (Hz 0) as (z & Hz0 & Hiff); [lia|]. rewrite Nat.add_0_r in Hz0, Hiff.
  rewrite Hz0. cbn [mbind option_bind].
  replace (S (m + 1 + start)) with (m + 1 + S start) by lia.
  rewrite IH; [|intros j Hj; destruct (Hz (S j)) as (z' & ? & ?); [lia|];
                exists z'; by replace (S start + j) with (start + S j) by lia].
  cbn [mbind option_bind]. rewrite filter_cons. f_equal.
  destruct (decide (z = m)) as [Hzm|Hzm], (decide (Q start)) as [HQ|HQ];
    [|by apply Hiff in Hzm|by apply Hiff in HQ|done].
  rewrite fmap_cons. f_equal. lia.
Qed.

(** The sequence [p + [wild] + s] that the Z array is built of. *)
Lemma joined_lookup p s (wild : A) :
  (∀ k, k < length p → (p ++ wild :: s) !! k = p !! k) ∧
  (p ++ wild :: s) !! length p = Some wild ∧
  (∀ t, (p ++ wild :: s) !! (length p + 1 + t) = s !! t).
Proof.
  split_and!.
  - intros k Hk. by apply lookup_app_l.
  - by rewrite list_lookup_middle.
  - intros t. rewrite lookup_app_r by lia.
    by replace (length p + 1 + t - length p) with (S t) by lia.
Qed.

(** Past the separator, the Z array holds [len(p)] exactly where [p]
    occurs, when the separator is not in [s]. *)
Lemma z_entry_occurs p s (wild : A) j :
  wild ∉ s → j < length s →
  z_entry (p ++ wild :: s) (length p + 1 + j) = length p ↔ occurs_at p s j.
Proof.
  intros Hwild Hj. destruct (joined_lookup p s wild) as (Hp & Hw & Hs).
  assert (length (p ++ wild :: s) = length p + 1 + length s) as Hlen.
  { rewrite length_app. simpl. lia. }
  split.
  - intros Hz.
    destruct (z_entry_spec (p ++ wild :: s) (length p + 1 + j)) as (Hzl & Hsame & _);
      [lia|]. rewrite Hz in Hzl, Hsame.
    unfold occurs_at. apply list_eq. intros k.
    destruct (decide (k < length p)) as [Hk|Hk].
    + rewrite lookup_take_lt, lookup_drop by done.
      rewrite <-(Hp k), <-(Hsame k) by done.
      replace (length p + 1 + j + k) with (length p + 1 + (j + k)) by lia. by rewrite Hs.
    + rewrite lookup_take_ge by lia. symmetry. apply lookup_ge_None_2. lia.
  - intros Hocc.
    assert (∀ k, k < length p → s !! (j + k) = p !! k) as Hsame.
    { intros k Hk. unfold occurs_at in Hocc.
      transitivity (take (length p) (drop j s) !! k); [|by rewrite Hocc].
      by rewrite lookup_take_lt, lookup_drop by done. }
    assert (j + length p ≤ length s) as Hfits.
    { destruct p as [|a p]; [simpl; lia|]. by apply occurs_at_length. }
    apply z_entry_unique; [lia| |].
    + intros k Hk. rewrite (Hp k) by done. rewrite <-(Hsame k) by done.
      replace (length p + 1 + j + k) with (length p + 1 + (j + k)) by lia. apply Hs.
    + intros Hlt. rewrite Hw.
      replace (length p + 1 + j + length p) with (length p + 1 + (j + length p)) by lia.
      rewrite Hs. intros Hin%list_elem_of_lookup_2. done.
Qed.
End ZMatchProofs.

(** What [ZAlgorithm.matchStartGenerator] yields, when the separator does
    not occur in the text: the indices at which the pattern occurs, in
    increasing order, among the first [len(s) - len(p) - 1] indices of the
    text only. *)
Theorem z_matchStartGenerator_exact {A : Type} `{EqDecision A}
    (p s : list A) (wild : A) :
  wild ∉ s →
  z_matchStartGenerator p s wild =
  Some (Z.of_nat <$> filter (occurs_at p s) (seq 0 (length s - (length p + 1)))).
Proof.
  intros Hwild. unfold z_matchStartGenerator.
  rewrite constructZArray_longest_common_prefix by (by destruct p).
  cbn [mbind option_bind].
  assert (length (p ++ wild :: s) = length p + 1 + length s) as Hlen.
  { rewrite length_app. simpl. lia. }
  rewrite Hlen.
  replace (length p + 1 + length s - length p - 1 - (length p + 1))
    with (length s - (length p + 1)) by lia.
  pose proof (z_yield_spec (z_entry (p ++ wild :: s) <$> seq 0 (length p + 1 + length s))
                (length p) (occurs_at p s) 0 (length s - (length p + 1))) as Hyield.
  rewrite Nat.add_0_r in Hyield. apply Hyield.
  intros j Hj. eexists. split.
  - rewrite list_lookup_fmap, lookup_seq_lt by lia. done.
  - simpl. apply z_entry_occurs; [done|lia].
Qed.

Lemma z_matchStartGenerator_exact_bb :
  z_matchStartGenerator (str "bb") (str "casbababbbbbabbceab") "$"%char =
  Some (Z.of_nat <$> filter (occurs_at (str "bb") (str "casbababbbbbabbceab"))
                            (seq 0 (length (str "casbababbbbbabbceab") - (length (str "bb") + 1)))).
Proof.
  apply z_matchStartGenerator_exact.
  intros Hin. repeat (apply elem_of_cons in Hin as [Hin|Hin]; [discriminate|]).
  by apply elem_of_nil in Hin.
Defined.
(** * The longest palindromic substrings *)

(** ** The text with separators *)

Lemma fill_odd_spec (s : list ascii) (i : nat) (s2 : list ascii) :
  2 * (i + length s) < length s2 →
  ∃ s2', fill_odd s i s2 = Some s2' ∧ length s2' = length s2 ∧
    (∀ j, j < length s → s2' !! (2 * (i + j) + 1) = s !! j) ∧
    (∀ k, (∀ j, j < length s → k ≠ 2 * (i + j) + 1) → s2' !! k = s2 !! k).
Proof.
  revert i s2. induction s as [|l s IH]; intros i s2 Hlen.
  { exists s2. split_and!; [done..| |done]. simpl. intros j ?. lia. }
  simpl in Hlen. cbn [fill_odd]. rewrite Z.shiftl_mul_pow2 by lia.
  replace (Z.to_nat (Z.of_nat i * 2 ^ 1 + 1)) with (2 * i + 1) by lia.
  unfold py_set. rewrite decide_True by lia. cbn [mbind option_bind].
  destruct (IH (S i) (<[2 * i + 1 := l]> s2)) as (s2' & Hfill & Hl & Hodd & Hrest).
  { rewrite length_insert. lia. }
  rewrite length_insert in Hl.
  exists s2'. split_and!; [done..| |].
  - intros [|j] Hj.
    + rewrite Hrest by (intros j' _; lia).
      replace (2 * (i + 0) + 1) with (2 * i + 1) by lia.
      apply list_lookup_insert_eq. lia.
    + replace (2 * (i + S j) + 1) with (2 * (S i + j) + 1) by lia.
      apply Hodd. simpl in Hj. lia.
  - intros k Hk. rewrite Hrest.
    + apply list_lookup_insert_ne. specialize (Hk 0 ltac:(simpl; lia)). lia.
    + intros j Hj. specialize (Hk (S j) ltac:(simpl; lia)). lia.
Qed.

(** [s2] has the characters of [s] at its odd indices and ["#"] at the
    even ones. *)
Lemma hashed_spec (s : list ascii) :
  ∃ s2, hashed s = Some s2 ∧ length s2 = 2 * length s + 1 ∧
    (∀ j, j < length s → s2 !! (2 * j + 1) = s !! j) ∧
    (∀ j, j ≤ length s → s2 !! (2 * j) = Some "#"%char).
Proof.
  unfold hashed. rewrite Z.shiftl_mul_pow2 by lia.
  replace (Z.to_nat (Z.of_nat (length s) * 2 ^ 1 + 1)) with (2 * length s + 1) by lia.
  destruct (fill_odd_spec s 0 (replicate (2 * length s + 1) "#"%char))
    as (s2 & Hfill & Hl & Hodd & Hrest).
  { rewrite length_replicate. lia. }
  rewrite length_replicate in Hl.
  exists s2. split_and!; [done..|].
  intros j Hj. rewrite Hrest by (intros; lia).
  apply lookup_replicate_2. lia.
Qed.

(** ** Palindromes of the text and of the text with separators *)

Section Separated.
Context {A : Type} `{EqDecision A}.
Variables (s s2 : list A) (h : A).
Hypothesis s2_length : length s2 = 2 * length s + 1.
Hypothesis s2_odd : ∀ j, j < length s → s2 !! (2 * j + 1) = s !! j.
Hypothesis s2_even : ∀ j, j ≤ length s → s2 !! (2 * j) = Some h.

(** A palindromic window, element by element. *)
Lemma pal_window_lookup (t : list A) j L :
  pal_window t j L ↔
  j + L ≤ length t ∧ ∀ k, k < L → t !! (j + k) = t !! (j + L - 1 - k).
Proof.
  unfold pal_window.
  assert (j + L ≤ length t → length (take L (drop j t)) = L) as Hl.
  { intros ?. rewrite length_take, length_drop. lia. }
  split; intros (Hlen & Hpal); (split; [done|]); specialize (Hl Hlen).
  - intros k Hk.
    assert (reverse (take L (drop j t)) !! (L - 1 - k) =
            take L (drop j t) !! (L - 1 - k)) as Heq by by rewrite Hpal.
    rewrite reverse_lookup, Hl in Heq by lia.
    rewrite !lookup_take_lt, !lookup_drop in Heq by lia.
    replace (j + (L - S (L - 1 - k))) with (j + k) in Heq by lia.
    by replace (j + (L - 1 - k)) with (j + L - 1 - k) in Heq by lia.
  - apply list_eq. intros k. destruct (decide (k < L)) as [Hk|Hk].
    + rewrite reverse_lookup, Hl by lia.
      rewrite !lookup_take_lt, !lookup_drop by lia.
      specialize (Hpal k Hk). rewrite Hpal. f_equal. lia.
    + rewrite !lookup_ge_None_2; [done|lia|rewrite length_reverse; lia].
Qed.

(** A palindrome of the text is one of the text with separators, of a
    radius that is its length, and conversely. *)
Lemma separated_palindrome j L :
  palindrome_at s2 (2 * j + L) L ↔ pal_window s j L.
Proof.
  rewrite palindrome_at_lookup, pal_window_lookup, s2_length. split.
  - intros (_ & Hlen & Hpal). split; [lia|]. intros k Hk.
    rewrite <-!s2_odd by lia.
    destruct (decide (2 * k + 1 ≤ L)).
    + specialize (Hpal (L - (2 * k + 1)) ltac:(lia)).
      replace (2 * j + L + (L - (2 * k + 1))) with (2 * (j + L - 1 - k) + 1) in Hpal by lia.
      by replace (2 * j + L - (L - (2 * k + 1))) with (2 * (j + k) + 1) in Hpal by lia.
    + specialize (Hpal (2 * k + 1 - L) ltac:(lia)).
      replace (2 * j + L + (2 * k + 1 - L)) with (2 * (j + k) + 1) in Hpal by lia.
      by replace (2 * j + L - (2 * k + 1 - L)) with (2 * (j + L - 1 - k) + 1) in Hpal by lia.
  - intros (Hlen & Hpal). split_and!; [lia..|]. intros k Hk.
    destruct (Nat.Even_or_Odd (L + k)) as [[m Hm]|[m Hm]].
    + replace (2 * j + L + k) with (2 * (j + m)) by lia.
      replace (2 * j + L - k) with (2 * (j + m - k)) by lia.
      rewrite !s2_even by lia. done.
    + replace (2 * j + L + k) with (2 * (j + m) + 1) by lia.
      replace (2 * j + L - k) with (2 * (j + m - k) + 1) by lia.
      rewrite !s2_odd by lia.
      specialize (Hpal (m - k) ltac:(lia)).
      replace (j + (m - k)) with (j + m - k) in Hpal by lia.
      replace (j + L - 1 - (m - k)) with (j + m) in Hpal by lia. done.
Qed.

(** The longest palindrome about a centre ends at separators. *)
Lemma separated_radius c r :
  max_radius s2 c r → ∃ j, c = 2 * j + r ∧ pal_window s j r.
Proof.
  intros [Hpal Hmax].
  destruct (Nat.Even_or_Odd (c + r)) as [[m Hm]|[m Hm]].
  - pose proof Hpal as (Hrc & _ & _)%palindrome_at_lookup.
    exists (m - r). assert (c = 2 * (m - r) + r) as Hc by lia.
    split; [done|]. apply separated_palindrome. by rewrite <-Hc.
  - exfalso. pose proof Hpal as (Hrc & Hlen & _)%palindrome_at_lookup.
    rewrite s2_length in Hlen.
    assert (palindrome_at s2 c (S r)) as Hmore.
    { apply palindrome_at_S; [done|]. rewrite s2_length. split_and!; [lia..|].
      replace (c + S r) with (2 * (m + 1)) by lia.
      replace (c - S r) with (2 * (m - r)) by lia.
      rewrite !s2_even by lia. done. }
    apply Hmax in Hmore. lia.
Qed.
End Separated.

(** ** The largest entry and where it stands *)

Lemma longest_loop_spec (arr : list Z) (i : nat) (mx : Z) (acc : list nat) :
  let r := longest_loop arr i mx acc in
  (mx ≤ r.1)%Z ∧ Forall (λ x, x ≤ r.1)%Z arr ∧ (r.1 = mx ∨ r.1 ∈ arr) ∧
  r.2 = (if decide (r.1 = mx) then acc else []) ++
        filter (λ k, arr !! (k - i) = Some r.1) (seq i (length arr)).
Proof.
  cbn zeta. revert i mx acc. induction arr as [|num arr IH]; intros i mx acc.
  { simpl. rewrite decide_True by done. split_and!; [done|constructor|by left|].
    by rewrite app_nil_r. }
  assert (∀ v : Z,
    filter (λ k, (num :: arr) !! (k - i) = Some v) (seq (S i) (length arr)) =
    filter (λ k, arr !! (k - S i) = Some v) (seq (S i) (length arr))) as Htail.
  { intros v. apply filter_seq_ext. intros e He.
    by replace (e - i) with (S (e - S i)) by lia. }
  cbn [longest_loop length seq]. rewrite filter_cons, Nat.sub_diag. cbn [lookup list_lookup].
  destruct (decide (num < mx)%Z) as [Hlt|Hge].
  - destruct (IH (S i) mx acc) as (Hle & Hall & Hin & Hacc).
    split_and!; [done|constructor; [lia|done]|destruct Hin; [by left|right; by right]|].
    rewrite Hacc, Htail. rewrite (decide_False (P := Some num = _)); [done|].
    intros [= ?]. lia.
  - destruct (decide (num > mx)%Z) as [Hgt|Hle'].
    + destruct (IH (S i) num [i]) as (Hle & Hall & Hin & Hacc).
      split_and!; [lia|constructor; [lia|done]| |].
      * right. destruct Hin as [->|?]; [left|by right].
      * rewrite Hacc, Htail. rewrite (decide_False (P := _ = mx)) by lia.
        destruct (decide (_ = num)) as [Heq|Hne].
        -- by rewrite decide_True by by rewrite Heq.
        -- rewrite decide_False; [done|]. by intros [= ?].
    + assert (num = mx) as -> by lia.
      destruct (IH (S i) mx (acc ++ [i])) as (Hle & Hall & Hin & Hacc).
      split_and!; [done|constructor; [lia|done]|destruct Hin; [by left|right; by right]|].
      rewrite Hacc, Htail.
      destruct (decide (_ = mx)) as [Heq|Hne].
      * rewrite decide_True by by rewrite Heq. by rewrite <-(assoc_L (++)).
      * rewrite decide_False; [done|]. by intros [= ?].
Qed.

(** ** Filtering two ranges that correspond *)

Lemma filter_seq_sorted (P : nat → Prop) `{!∀ e, Decision (P e)} i n :
  StronglySorted lt (filter P (seq i n)).
Proof.
  revert i. induction n as [|n IH]; intros i; [constructor|].
  cbn [seq]. rewrite filter_cons. destruct (decide (P i)); [|done].
  constructor; [done|]. apply Forall_forall.
  intros k [_ Hk%elem_of_seq]%list_elem_of_filter. lia.
Qed.

Lemma filter_seq_image (P Q : nat → Prop)
    `{!∀ e, Decision (P e), !∀ e, Decision (Q e)} (φ : nat → nat) M N :
  (∀ a b, a < b → φ a < φ b) →
  (∀ c, c < M → P c → ∃ j, j < N ∧ c = φ j ∧ Q j) →
  (∀ j, j < N → Q j → φ j < M ∧ P (φ j)) →
  filter P (seq 0 M) = φ <$> filter Q (seq 0 N).
Proof.
  intros Hmono HPQ HQP.
  assert (StronglySorted lt (φ <$> filter Q (seq 0 N))) as Hsorted.
  { eapply StronglySorted_fmap; [|apply filter_seq_sorted]. done. }
  apply (StronglySorted_unique_strong lt); [|apply filter_seq_sorted|done|].
  { intros x1 x2 _ _ ? ?. lia. }
  apply NoDup_Permutation.
  - apply sorted_lt_NoDup, filter_seq_sorted.
  - by apply sorted_lt_NoDup.
  - intros c. rewrite list_elem_of_filter, elem_of_seq, list_elem_of_fmap. split.
    + intros [Hc ?]. destruct (HPQ c) as (j & ? & -> & ?); [lia|done|].
      exists j. split; [done|]. apply list_elem_of_filter. split; [done|].
      apply elem_of_seq. lia.
    + intros (j & -> & [? ?%elem_of_seq]%list_elem_of_filter).
      destruct (HQP j); [lia|done|]. split; [done|lia].
Qed.

(** ** The function *)

Lemma longestPalindromicSubstrings_spec (s : list ascii) :
  ∃ L, longest_pal s L ∧ longestPalindromicSubstrings s = Some (pal_windows s L).
Proof.
  unfold longestPalindromicSubstrings. destruct (decide (s = [])) as [->|Hne].
  { exists 0. split; [|done]. split.
    - exists 0. by split.
    - intros j L' [Hl _]. simpl in Hl. lia. }
  destruct (hashed_spec s) as (s2 & -> & Hlen & Hodd & Heven).
  cbn [mbind option_bind].
  destruct (manacherAlgorithm_spec s2) as (arr & -> & Hlarr & Harr).
  cbn [mbind option_bind]. rewrite Hlen in Hlarr, Harr.
  pose proof (longest_loop_spec arr 0 (-1) []) as Hloop. cbn zeta in Hloop.
  destruct (longest_loop arr 0 (-1) []) as [mx_len mx_i]. simpl in Hloop.
  destruct Hloop as (_ & Hall & Hin & Hmx). rewrite Forall_forall in Hall.
  assert (∃ c0 L, c0 < 2 * length s + 1 ∧ mx_len = Z.of_nat L ∧ max_radius s2 c0 L)
    as (c0 & L & Hc0 & -> & Hmax0).
  { destruct Hin as [->|Hin].
    - destruct (Harr 0) as (r & Hr%list_elem_of_lookup_2 & _); [lia|].
      apply Hall in Hr. lia.
    - apply list_elem_of_lookup in Hin as [c0 Hin].
      pose proof (lookup_lt_Some _ _ _ Hin) as Hlt. rewrite Hlarr in Hlt.
      destruct (Harr c0 Hlt) as (r & Hr & Hmax). exists c0, r.
      split_and!; [done|congruence|done]. }
  rewrite decide_False in Hmx by lia. cbn [app] in Hmx.
  assert (∀ j L', pal_window s j L' → L' ≤ L) as Hlongest.
  { intros j L' Hw. pose proof Hw as [Hjl _].
    apply (separated_palindrome s s2 _ Hlen Hodd Heven) in Hw.
    destruct (Harr (2 * j + L')) as (r & Hr%list_elem_of_lookup_2 & [_ Hmax]); [lia|].
    apply Hmax in Hw. apply Hall in Hr. lia. }
  exists L. split.
  { split; [|done].
    destruct (separated_radius s s2 _ Hlen Hodd Heven c0 L Hmax0) as (j & _ & ?).
    by exists j. }
  f_equal. unfold pal_windows. rewrite Hmx, Hlarr.
  rewrite (filter_seq_image _ (λ j, pal_window s j L) (λ j, 2 * j + L) _
             (S (length s - L))).
  - rewrite <-list_fmap_compose. apply Forall_fmap_ext_1, Forall_forall.
    intros j [[Hjl _] _]%list_elem_of_filter. cbv beta zeta delta [compose].
    replace (Z.of_nat (2 * j + L) - Z.of_nat L)%Z with (2 * Z.of_nat j)%Z by lia.
    rewrite Z.shiftr_div_pow2 by lia.
    change (2 ^ 1)%Z with 2%Z.
    rewrite (Z.mul_comm 2), Z.div_mul by lia.
    destruct (py_slice_inner s (Z.of_nat j) (Z.of_nat j + Z.of_nat L)) as [-> _]; [lia..|].
    rewrite Nat2Z.id. f_equal. lia.
  - intros a b ?. lia.
  - intros c Hc Hcl. rewrite Nat.sub_0_r in Hcl.
    destruct (Harr c Hc) as (r & Hr & Hmax).
    assert (r = L) as -> by (apply Nat2Z.inj; congruence).
    destruct (separated_radius s s2 _ Hlen Hodd Heven c L Hmax) as (j & -> & Hw).
    exists j. pose proof Hw as [? _]. split_and!; [lia|done..].
  - intros j Hj Hw. pose proof Hw as [Hjl _]. split; [lia|].
    rewrite Nat.sub_0_r.
    destruct (Harr (2 * j + L)) as (r & Hr & [Hpal Hmax]); [lia|].
    apply (separated_palindrome s s2 _ Hlen Hodd Heven) in Hw.
    apply Hmax in Hw.
    pose proof (list_elem_of_lookup_2 _ _ _ Hr) as Hr'%Hall.
    rewrite Hr. f_equal. lia.
Qed.

(** The first element a filter keeps of a range. *)
Lemma filter_seq_head (P : nat → Prop) `{!∀ e, Decision (P e)} i n j0 :
  i ≤ j0 < i + n → P j0 →
  ∃ j l, filter P (seq i n) = j :: l ∧ P j ∧ ∀ j', P j' → i ≤ j' → j ≤ j'.
Proof.
  revert i. induction n as [|n IH]; intros i Hj0 HP; [lia|].
  cbn [seq]. rewrite filter_cons. destruct (decide (P i)) as [Hi|Hi].
  { exists i, (filter P (seq (S i) n)). split_and!; [done..|]. intros; lia. }
  assert (j0 ≠ i) by by intros ->.
  destruct (IH (S i)) as (j & l & Hf & Hj & Hmin); [lia|done|].
  exists j, l. split_and!; [done..|]. intros j' Hj' Hle.
  apply Hmin; [done|]. assert (j' ≠ i) by by intros ->. lia.
Qed.

(** [longestPalindromicSubstrings] returns the palindromes within [s] of
    the greatest length there is, from left to right. *)
Theorem longestPalindromicSubstrings_exact (s : list ascii) :
  ∃ L, longest_pal s L ∧ longestPalindromicSubstrings s = Some (pal_windows s L).
Proof. apply longestPalindromicSubstrings_spec. Qed.

(** [longestPalindrome] returns the leftmost of the longest palindromes
    within [s]. *)
Theorem longestPalindrome_leftmost (s : list ascii) :
  ∃ L j, longest_pal s L ∧ pal_window s j L ∧
    (∀ j', pal_window s j' L → j ≤ j') ∧
    longestPalindrome s = Some (take L (drop j s)).
Proof.
  destruct (longestPalindromicSubstrings_spec s) as (L & Hlong & Hres).
  pose proof Hlong as [[j0 Hj0] _]. pose proof Hj0 as [Hjl _].
  destruct (filter_seq_head (λ j, pal_window s j L) 0 (S (length s - L)) j0)
    as (j & l & Hf & Hj & Hmin); [lia|done|].
  exists L, j. split_and!; [done..| |].
  - intros j' Hj'. apply Hmin; [done|lia].
  - unfold longestPalindrome. rewrite Hres. cbn [mbind option_bind].
    unfold pal_windows. by rewrite Hf.
Qed.


(** * What addBoldTag puts in bold *)

(** ** Ranges of one pattern *)

Section RangeCover.

Lemma covered_app rs1 rs2 x : covered (rs1 ++ rs2) x ↔ covered rs1 x ∨ covered rs2 x.
Proof.
  unfold covered. setoid_rewrite elem_of_app. naive_solver.
Qed.

Lemma covered_singleton a b x : covered [(a, b)] x ↔ (a ≤ x < b)%Z.
Proof.
  unfold covered. split.
  - by intros ([a' b'] & [= -> ->]%list_elem_of_singleton & ?).
  - intros ?. exists (a, b). split; [left|done].
Qed.

Lemma covered_nil x : ¬ covered [] x.
Proof. by intros (r & ?%elem_of_nil & _). Qed.

(** Adding a start: the ranges cover what they covered and the new
    occurrence; they stay sorted by their starts. *)
Lemma add_start_cover (len : Z) (rs : list (Z * Z)) (j : Z) :
  (0 ≤ len)%Z →
  Forall (λ r, r.1 ≤ j ∧ r.2 ≤ j + len)%Z rs →
  StronglySorted (λ r r', r.1 ≤ r'.1)%Z rs →
  (∀ x, covered (add_start len rs j) x ↔ covered rs x ∨ (j ≤ x < j + len)%Z) ∧
  Forall (λ r, r.1 ≤ j ∧ r.2 ≤ j + len)%Z (add_start len rs j) ∧
  StronglySorted (λ r r', r.1 ≤ r'.1)%Z (add_start len rs j).
Proof.
  intros Hlen Hall Hsort. unfold add_start.
  assert (Forall (λ r, r.1 ≤ j ∧ r.2 ≤ j + len)%Z (rs ++ [(j, (j + len)%Z)])) as Happ.
  { apply Forall_app_2; [done|]. apply Forall_singleton. simpl. lia. }
  assert (StronglySorted (λ r r', r.1 ≤ r'.1)%Z (rs ++ [(j, (j + len)%Z)])) as Hsapp.
  { apply StronglySorted_app_2; [|done|repeat constructor].
    intros r r' Hr ->%list_elem_of_singleton. rewrite Forall_forall in Hall.
    apply Hall in Hr. simpl. lia. }
  assert (∀ x, covered (rs ++ [(j, (j + len)%Z)]) x ↔
               covered rs x ∨ (j ≤ x < j + len)%Z) as Hcapp.
  { intros x. by rewrite covered_app, covered_singleton. }
  destruct (list.last rs) as [[a b]|] eqn:Hlast; [|done].
  destruct (decide (j > b)%Z); [done|].
  apply last_Some in Hlast as [rs' ->].
  rewrite length_app, Nat.add_sub, insert_app_r_alt, Nat.sub_diag by done.
  cbn [insert list_insert].
  apply Forall_app in Hall as [Hall' [[Ha Hb] _]%Forall_cons]. simpl in Ha, Hb.
  apply StronglySorted_app in Hsort as (Hcross & Hs' & _).
  split_and!.
  - intros x. rewrite !covered_app, !covered_singleton.
    split.
    + intros [?|?]; [by left; left|].
      destruct (decide (x < b)%Z); [left; right; lia|right; lia].
    + intros [[?|?]|?]; [by left|right; lia..].
  - apply Forall_app_2; [done|]. apply Forall_singleton. simpl. lia.
  - apply StronglySorted_app_2; [|done|repeat constructor].
    intros r r' Hr ->%list_elem_of_singleton. simpl.
    apply (Hcross r (a, b)); [done|left].
Qed.

Lemma add_starts_cover (len : Z) (starts : list Z) (rs : list (Z * Z)) :
  (0 ≤ len)%Z → StronglySorted Z.le starts →
  Forall (λ r, Forall (λ j, r.1 ≤ j ∧ r.2 ≤ j + len)%Z starts) rs →
  StronglySorted (λ r r', r.1 ≤ r'.1)%Z rs →
  (∀ x, covered (foldl (add_start len) rs starts) x ↔
        covered rs x ∨ ∃ j, j ∈ starts ∧ (j ≤ x < j + len)%Z) ∧
  StronglySorted (λ r r', r.1 ≤ r'.1)%Z (foldl (add_start len) rs starts).
Proof.
  intros Hlen. revert rs. induction starts as [|j starts IH]; intros rs Hs Hall Hsort.
  { split; [|done]. intros x. split; [by left|].
    by intros [?|(j & ?%elem_of_nil & _)]. }
  apply StronglySorted_cons in Hs as [Hjs Hs]. cbn [foldl].
  destruct (add_start_cover len rs j) as (Hcov & Hall' & Hsort'); [done| |done|].
  { eapply Forall_impl; [done|]. by intros r [? _]%Forall_cons. }
  destruct (IH (add_start len rs j)) as [Hcov' Hsort'']; [done| |done|].
  { eapply Forall_impl; [done|]. intros r Hr. simpl in Hr.
    eapply Forall_impl; [exact Hjs|]. intros j' Hj'. simpl in Hj'. lia. }
  split; [|done]. intros x. rewrite Hcov', Hcov. split.
  - intros [[?|?]|(j' & ? & ?)]; [by left|right; exists j; split; [left|done]|].
    right. exists j'. split; [by right|done].
  - intros [?|(j' & [->|?]%elem_of_cons & ?)]; [by left; left|by left; right|].
    right. by exists j'.
Qed.
End RangeCover.

(** ** The heap brings the ranges in by their starts *)

Section HeapOrder.
Variable rngs : list (list (Z * Z)).
Hypothesis rngs_sorted : Forall (StronglySorted (λ r r', r.1 ≤ r'.1)%Z) rngs.

Lemma heap_min_start h m :
  heap_min h = Some m → ∀ e, e ∈ h → (m.1.1.1 ≤ e.1.1.1)%Z.
Proof.
  revert m. induction h as [|e0 h IH]; intros m Hm e He; [by apply elem_of_nil in He|].
  simpl in Hm. destruct (heap_min h) as [m'|] eqn:Hmin.
  - assert (entry_ltb m' e0 = true → (m'.1.1.1 ≤ e0.1.1.1)%Z) as Hlt.
    { destruct m' as [[[a1 b1] c1] d1], e0 as [[[a2 b2] c2] d2]. simpl.
      destruct (Z.eqb_spec a1 a2); [lia|]. intros ?%Z.ltb_lt. lia. }
    assert (entry_ltb m' e0 = false → (e0.1.1.1 ≤ m'.1.1.1)%Z) as Hge.
    { destruct m' as [[[a1 b1] c1] d1], e0 as [[[a2 b2] c2] d2]. simpl.
      destruct (Z.eqb_spec a1 a2); [lia|]. intros ?%Z.ltb_ge. lia. }
    injection Hm as <-. apply elem_of_cons in He as [->|He].
    + destruct (entry_ltb m' e0); [by apply Hlt|lia].
    + specialize (IH m' eq_refl e He).
      destruct (entry_ltb m' e0); [done|]. specialize (Hge eq_refl). lia.
  - injection Hm as <-. destruct h as [|e1 h]; [|by destruct (heap_min_cons e1 h); congruence].
    by apply list_elem_of_singleton in He as ->.
Qed.

Lemma elem_of_pending heap r :
  r ∈ pending rngs heap ↔
  ∃ e : entry, e ∈ heap ∧ r ∈ drop (Z.to_nat e.1.2) (default [] (rngs !! Z.to_nat e.2)).
Proof.
  unfold pending. induction heap as [|e heap IH].
  { simpl. split; [by intros ?%elem_of_nil|by intros (e & ?%elem_of_nil & _)]. }
  rewrite fmap_cons. cbn [concat]. rewrite elem_of_app, IH. split.
  - intros [?|(e' & ? & ?)]; [exists e; split; [left|done]|].
    exists e'. split; [by right|done].
  - intros (e' & [->|?]%elem_of_cons & ?); [by left|right; by exists e'].
Qed.

(** The ranges an element of the heap stands for start no earlier than
    its own. *)
Lemma pending_entry_start (e : entry) r :
  entry_ok rngs e →
  r ∈ drop (Z.to_nat e.1.2) (default [] (rngs !! Z.to_nat e.2)) →
  (e.1.1.1 ≤ r.1)%Z.
Proof.
  destruct e as [[[i1 neg_i2] j] idx]. intros (Hj & Hidx & rs & Hrs & Hrj). simpl.
  rewrite Hrs. simpl. rewrite (drop_S _ _ _ Hrj).
  intros [->|Hr]%elem_of_cons; [done|].
  eapply Forall_lookup_1 in Hrs; [|exact rngs_sorted].
  rewrite <-(take_drop (Z.to_nat j) rs), (drop_S _ _ _ Hrj) in Hrs.
  apply StronglySorted_app in Hrs as (_ & _ & [Hall _]%StronglySorted_cons).
  rewrite Forall_forall in Hall. by apply (Hall r).
Qed.

(** What is popped starts no later than any range still to come. *)
Lemma heappop_start_min e h m h1 r :
  Forall (entry_ok rngs) (e :: h) → heappop (e :: h) = Some (m, h1) →
  r ∈ pending rngs (e :: h) → (m.1.1.1 ≤ r.1)%Z.
Proof.
  intros Hok Hpop (e' & He' & Hr)%elem_of_pending.
  unfold heappop in Hpop. destruct (heap_min (e :: h)) as [m'|] eqn:Hmin; [|done].
  injection Hpop as <- _. rewrite Forall_forall in Hok.
  pose proof (heap_min_start _ _ Hmin e' He').
  pose proof (pending_entry_start e' r (Hok e' He') Hr). lia.
Qed.

(** The ranges to come before a pop: the one popped, and those to come
    after the push that follows. *)
Lemma push_next_pending heap i1 neg_i2 j idx heap' r :
  entry_ok rngs (i1, neg_i2, j, idx) →
  push_next rngs heap j idx = Some heap' →
  r ∈ pending rngs ((i1, neg_i2, j, idx) :: heap) ↔
  r = (i1, (- neg_i2)%Z) ∨ r ∈ pending rngs heap'.
Proof.
  intros (Hj & Hidx & rs & Hrs & Hrj). unfold push_next.
  rewrite <-(Z2Nat.id idx), py_get_nat, Hrs by done. cbn [mbind option_bind].
  rewrite Z2Nat.id by done.
  assert (r ∈ pending rngs ((i1, neg_i2, j, idx) :: heap) ↔
          r = (i1, (- neg_i2)%Z) ∨ r ∈ drop (S (Z.to_nat j)) rs ∨ r ∈ pending rngs heap)
    as ->.
  { unfold pending at 1. rewrite fmap_cons. cbn [concat fst snd].
    rewrite Hrs. change (default [] (Some rs)) with rs.
    rewrite (drop_S _ _ _ Hrj), elem_of_app, elem_of_cons.
    fold (pending rngs heap). tauto. }
  destruct (decide (j + 1 < Z.of_nat (length rs))%Z) as [Hlt|Hge].
  - destruct (lookup_lt_is_Some_2 rs (Z.to_nat (j + 1))) as [[a b] Hab]; [lia|].
    rewrite <-(Z2Nat.id (j + 1)), py_get_nat, Hab by lia.
    cbn [mbind option_bind]. intros [= <-].
    unfold heappush, pending at 2. rewrite fmap_cons. cbn [concat fst snd].
    rewrite Z2Nat.id, Hrs by lia. change (default [] (Some rs)) with rs.
    replace (Z.to_nat (j + 1)) with (S (Z.to_nat j)) by lia.
    rewrite elem_of_app. fold (pending rngs heap). tauto.
  - intros [= <-]. rewrite drop_ge by lia. rewrite elem_of_nil. tauto.
Qed.
End HeapOrder.

(** ** The loop covers what the ranges cover *)

Section LoopCover.
Context {A : Type} `{EqDecision A}.
Implicit Types s : list A.
Implicit Types res : list (piece A).

Lemma in_spans_snoc sp a b x : in_spans (sp ++ [(a, b)]) x ↔ in_spans sp x ∨ a ≤ x < b.
Proof.
  unfold in_spans. split.
  - intros (u & [?| ->%list_elem_of_singleton]%elem_of_app & ?); [left; by exists u|by right].
  - intros [(u & ? & ?)|?]; [exists u; split; [apply elem_of_app; by left|done]|].
    exists (a, b). split; [apply elem_of_app; right; left|done].
Qed.

Lemma spans_next s res bs_i be_i i1 :
  bold_inv s res bs_i be_i → (be_i < i1)%Z → (i1 ≤ Z.of_nat (length s))%Z →
  ts_spans (read_pieces (res ++ [Lit (py_slice s bs_i be_i); Close;
                                 Lit (py_slice s be_i i1); Open])) =
  ts_spans (read_pieces res) ++ [(Z.to_nat bs_i, Z.to_nat be_i)].
Proof.
  intros [[Hb Hbn] _ (sp & Hread & _)] Hlt Hi.
  destruct (py_slice_inner s bs_i be_i) as [_ Hl1]; [lia..|].
  rewrite read_pieces_app, Hread. simpl. rewrite Hl1.
  by replace (Z.to_nat bs_i + (Z.to_nat be_i - Z.to_nat bs_i))
    with (Z.to_nat be_i) by lia.
Qed.

(** What the loop leaves in bold: what was in bold or to come when it
    started. *)
Lemma bold_loop_cover fuel s rngs heap res bs_i be_i res' bs_i' be_i' :
  Forall (Forall (range_ok (length s))) rngs →
  Forall (StronglySorted (λ r r', r.1 ≤ r'.1)%Z) rngs →
  Forall (entry_ok rngs) heap →
  bold_inv s res bs_i be_i →
  (∀ r, r ∈ pending rngs heap → (bs_i ≤ r.1)%Z) →
  bold_loop fuel s rngs heap res bs_i be_i = Some (res', bs_i', be_i') →
  ∀ x : nat,
    (in_spans (ts_spans (read_pieces res)) x ∨ (bs_i ≤ Z.of_nat x < be_i)%Z ∨
     covered (pending rngs heap) (Z.of_nat x)) ↔
    (in_spans (ts_spans (read_pieces res')) x ∨ (bs_i' ≤ Z.of_nat x < be_i')%Z).
Proof.
  intros Hrngs Hsorted. revert heap res bs_i be_i.
  induction fuel as [|fuel IH]; intros heap res bs_i be_i Hheap Hinv Hstart Hloop x.
  { destruct heap as [|e heap]; [|done]. injection Hloop as <- <- <-.
    pose proof (covered_nil (Z.of_nat x)). unfold pending. simpl. tauto. }
  destruct heap as [|e heap].
  { injection Hloop as <- <- <-.
    pose proof (covered_nil (Z.of_nat x)). unfold pending. simpl. tauto. }
  destruct (heappop_spec e heap) as ([[[i1 neg_i2] j] idx] & heap1 & Hpop & Hperm).
  pose proof (λ r, heappop_start_min rngs Hsorted e heap _ heap1 r Hheap Hpop) as Hmin.
  simpl in Hmin.
  cbn [bold_loop] in Hloop. rewrite Hpop in Hloop. cbn [mbind option_bind] in Hloop.
  assert (∀ r, r ∈ pending rngs (e :: heap) ↔
               r ∈ pending rngs ((i1, neg_i2, j, idx) :: heap1)) as Hpp.
  { intros r. rewrite !elem_of_pending. by setoid_rewrite Hperm. }
  rewrite Hperm in Hheap. apply Forall_cons in Hheap as [He Hheap].
  pose proof (entry_ok_range _ _ Hrngs _ _ _ _ He) as [Hi Hin]. simpl in Hi, Hin.
  destruct (push_next_spec rngs heap1 _ _ _ _ He Hheap) as (heap2 & Hpush & Hheap2 & _).
  pose proof (λ r, push_next_pending rngs heap1 i1 neg_i2 j idx heap2 r He Hpush) as Hnext.
  pose proof (bv_bounds _ _ _ _ Hinv) as [Hb Hbn].
  assert ((bs_i ≤ i1)%Z) as Hbs.
  { apply (Hstart (i1, (- neg_i2)%Z)), Hpp, Hnext. by left. }
  assert (∀ r, r ∈ pending rngs heap2 → (i1 ≤ r.1)%Z ∧ (r.2 ≤ Z.of_nat (length s))%Z)
    as Hlater.
  { intros r Hr. split; [apply Hmin, Hpp, Hnext; by right|].
    apply elem_of_pending in Hr as ([[[a b] j'] idx'] & He' & Hr).
    eapply Forall_forall in He'; [|exact Hheap2].
    destruct He' as (_ & _ & rs & Hrs & _). simpl in Hr. rewrite Hrs in Hr.
    apply subseteq_drop in Hr.
    eapply Forall_lookup_1 in Hrs; [|exact Hrngs].
    rewrite Forall_forall in Hrs. by apply Hrs in Hr as [_ ?]. }
  assert (covered (pending rngs (e :: heap)) (Z.of_nat x) ↔
          (i1 ≤ Z.of_nat x < - neg_i2)%Z ∨ covered (pending rngs heap2) (Z.of_nat x))
    as Hcov.
  { unfold covered. split.
    - intros (r & Hr%Hpp%Hnext & Hx). destruct Hr as [-> |Hr]; [by left|right; eauto].
    - intros [Hx|(r & Hr & Hx)].
      + exists (i1, (- neg_i2)%Z). split; [apply Hpp, Hnext; by left|done].
      + exists r. split; [apply Hpp, Hnext; by right|done]. }
  assert (∀ lo, (lo ≤ i1)%Z →
            covered (pending rngs heap2) (Z.of_nat x) → (lo ≤ Z.of_nat x < Z.of_nat (length s))%Z)
    as Hinside.
  { intros lo Hlo (r & [? ?]%Hlater & ?). lia. }
  rewrite Hcov. destruct (decide (i1 ≤ be_i)%Z).
  - destruct (decide (_ = _)) as [Hend|_].
    + injection Hloop as <- <- <-. specialize (Hinside bs_i Hbs). intuition lia.
    + rewrite Hpush in Hloop. cbn [mbind option_bind] in Hloop.
      rewrite <-(IH heap2 res bs_i (Z.max be_i (- neg_i2)) Hheap2
                   ltac:(eapply bold_inv_extend; [done|lia..])
                   ltac:(intros r [? _]%Hlater; lia) Hloop x).
      intuition lia.
  - assert (bold_inv s (res ++ [Lit (py_slice s bs_i be_i); Close;
                                Lit (py_slice s be_i i1); Open]) i1 (- neg_i2))
      as Hinv' by (apply bold_inv_next; [done|lia|done]).
    pose proof (spans_next s res bs_i be_i i1 Hinv ltac:(lia) ltac:(lia)) as Hsp.
    destruct (decide (_ = _)) as [Hend|_].
    + injection Hloop as <- <- <-. rewrite Hsp, in_spans_snoc.
      specialize (Hinside i1 ltac:(lia)). intuition lia.
    + rewrite Hpush in Hloop. cbn [mbind option_bind] in Hloop.
      rewrite <-(IH heap2 _ i1 (- neg_i2)%Z Hheap2 Hinv' ltac:(intros r [? _]%Hlater; lia) Hloop x).
      rewrite Hsp, in_spans_snoc. intuition lia.
Qed.
End LoopCover.

(** ** The first heap and the ranges *)

(** The first heap stands for every range of every pattern found. *)
Lemma init_heap_pending (pre rest : list (list (Z * Z))) h r :
  init_heap rest (length pre) = Some h →
  r ∈ pending (pre ++ rest) h ↔ r ∈ concat rest.
Proof.
  revert pre h. induction rest as [|r0 rest IH]; intros pre h Hh.
  { injection Hh as <-. done. }
  cbn [init_heap] in Hh. destruct (r0 !! 0) as [[a b]|]; [|done].
  cbn [mbind option_bind] in Hh.
  destruct (init_heap rest (S (length pre))) as [h'|] eqn:Hh'; [|done].
  injection Hh as <-.
  specialize (IH (pre ++ [r0]) h'). rewrite length_app, Nat.add_1_r in IH.
  specialize (IH Hh'). rewrite <-(assoc_L (++)) in IH. cbn [app] in IH.
  unfold pending. rewrite fmap_cons. cbn [concat fst snd].
  fold (pending (pre ++ r0 :: rest) h').
  rewrite Nat2Z.id, lookup_app_r, Nat.sub_diag by done.
  rewrite !elem_of_app, IH. done.
Qed.

Section WordRanges.
Context {A : Type} `{EqDecision A}.

(** The ranges of the patterns found cover their occurrences, and those
    of one pattern are sorted by their starts. *)
Lemma word_ranges_cover (start_dict : list (list A * list Z)) :
  Forall (λ kv, StronglySorted Z.le kv.2) start_dict →
  Forall (StronglySorted (λ r r', r.1 ≤ r'.1)%Z) (word_ranges start_dict) ∧
  ∀ x, covered (concat (word_ranges start_dict)) x ↔
       ∃ w l j, (w, l) ∈ start_dict ∧ j ∈ l ∧ (j ≤ x < j + Z.of_nat (length w))%Z.
Proof.
  induction start_dict as [|[w l] d IH]; intros Hs.
  { split; [constructor|]. intros x. split; [by intros ?%covered_nil|].
    by intros (w & l & j & ?%elem_of_nil & _). }
  apply Forall_cons in Hs as [Hl Hs]. simpl in Hl. destruct (IH Hs) as [Hsort Hcov].
  destruct (add_starts_cover (Z.of_nat (length w)) l []) as [Hc Hso];
    [lia|done|constructor|constructor|].
  unfold word_ranges. rewrite fmap_cons. fold (word_ranges d). cbn [fst snd concat].
  split; [by constructor|].
  intros x. rewrite covered_app, Hc, Hcov. split.
  - intros [[?%covered_nil|(j & ? & ?)]|(w' & l' & j & ? & ?)]; [done| |].
    + exists w, l, j. split; [left|done].
    + exists w', l', j. split; [by right|done].
  - intros (w' & l' & j & [[= -> ->]|?]%elem_of_cons & ?); [left; right; by exists j|].
    right. by exists w', l', j.
Qed.
End WordRanges.

(** ** The whole function *)

Section BoldCover.
Context {A : Type} `{EqDecision A}.
Implicit Types s w : list A.
Implicit Types words : list (list A).

(** What [search] records, as occurrences that cover a position. *)
Lemma search_covers words ac1 ac paths s res x :
  built words ac1 ac paths → search ac words s = Some res →
  (∃ w l j, (w, l) ∈ res ∧ j ∈ l ∧ (j ≤ Z.of_nat x < j + Z.of_nat (length w))%Z) ↔
  in_match words s x.
Proof.
  intros Hb Hsearch.
  destruct (search_result words ac1 ac paths s Hb)
    as (bms & res' & Hlen & Hok & Hsearch' & Hnd & Hget).
  assert (res' = res) as -> by congruence.
  assert (∀ w k, (∃ l, (w, l) ∈ res ∧ k ∈ l) ↔ (w, k) ∈ events_from words bms 0) as Hev.
  { intros w k. rewrite <-(search_result_elem res _ w k (Hget w)). split.
    - intros (l & Hl & Hk). exists l. split; [by apply dict_get_elem|done].
    - intros (l & Hl%dict_get_Some_elem & Hk). by exists l. }
  split.
  - intros (w & l & j & Hl & Hj & Hx).
    assert ((w, j) ∈ events_from words bms 0) as He by (apply Hev; eauto).
    destruct (scan_event_sound _ _ _ _ _ _ _ _ Hb Hlen Hok He)
      as (idx & e & Hidx & He' & Hsuf & Hk).
    assert (w ≠ []) as Hne by (intros ->; simpl in Hx; lia).
    destruct (proj1 (ends_at_occurs w s j Hne)) as (i & -> & Hi & Hocc); [by exists e|].
    exists w, i. split; [by eapply list_elem_of_lookup_2|]. split; [done|lia].
  - intros (w & j & Hw & Hocc & Hx).
    assert (w ≠ []) as Hne by (intros ->; simpl in Hx; lia).
    pose proof (occurs_at_length _ _ _ Hne Hocc) as Hjl.
    assert (0 < length w) by (destruct w; [done|simpl; lia]).
    destruct (proj2 (ends_at_occurs w s (Z.of_nat j) Hne)) as (e & He & Hsuf & Hk).
    { exists j. split_and!; [done|lia|done]. }
    apply list_elem_of_lookup in Hw as [idx Hidx].
    destruct (scan_event_complete _ _ _ _ _ _ _ _ _ Hb Hlen Hok Hidx Hne He Hsuf)
      as (_ & _ & _ & Hin).
    rewrite <-Hk in Hin. apply Hev in Hin as (l & Hl & Hjin).
    exists w, l, (Z.of_nat j). split; [done|]. split; [done|lia].
Qed.

(** [addBoldTag] puts in bold the characters that lie in an occurrence
    of a pattern, and no other. *)
Theorem addBoldTag_bold_is_matched s words :
  ∃ ps sp, addBoldTag_pieces s words = Some ps ∧ spans_of ps = Some sp ∧
    ∀ x, in_spans sp x ↔ in_match words s x.
Proof.
  assert (∀ x, ¬ in_spans [] x) as Hnone by (by intros x (u & ?%elem_of_nil & _)).
  unfold addBoldTag_pieces.
  destruct (decide (Z.of_nat (length s) = 0%Z)) as [Hn0|Hn].
  { exists [Lit s], []. split_and!; [done..|]. intros x. split; [by intros ?%Hnone|].
    intros (w & j & _ & Hocc & Hx).
    assert (w ≠ []) as Hne by (intros ->; simpl in Hx; lia).
    pose proof (occurs_at_length _ _ _ Hne Hocc). lia. }
  destruct (AhoCorasick_built words) as (ac1 & ac & paths & _ & Hac & Hb).
  rewrite Hac. cbn [mbind option_bind].
  destruct (search_result words ac1 ac paths s Hb) as (_ & start_dict & _ & _ & Hs & _).
  rewrite Hs. cbn [mbind option_bind].
  pose proof (search_starts_ok _ _ _ _ _ _ Hb Hs) as Hstarts.
  pose proof (λ x, search_covers _ _ _ _ _ _ x Hb Hs) as Hmatch.
  destruct start_dict as [|kv start_dict].
  { exists [Lit s], []. split_and!; [done..|]. intros x. rewrite <-Hmatch. split.
    - by intros ?%Hnone.
    - by intros (w & l & j & ?%elem_of_nil & _). }
  destruct (word_ranges_ok s _ Hstarts) as [Hrngs Hne].
  destruct (word_ranges_cover (kv :: start_dict)) as [Hsorted Hcover].
  { eapply Forall_impl; [exact Hstarts|]. by intros ? (_ & ? & _). }
  set (rngs := word_ranges (kv :: start_dict)) in *.
  destruct (init_heap_spec [] rngs Hne) as (heap & Hheap & Hok & Hlen & Hsum).
  pose proof (λ r, init_heap_pending [] rngs heap r Hheap) as Hpend.
  change (length (@nil (list (Z * Z)))) with 0 in Hheap.
  change ([] ++ rngs) with rngs in Hok, Hsum, Hpend.
  rewrite Hheap. cbn [mbind option_bind].
  destruct heap as [|e heap]; [done|].
  destruct (heappop_spec e heap) as ([[[i1 neg_i2] j] idx] & heap1 & Hpop & Hperm).
  pose proof (λ r, heappop_start_min rngs Hsorted e heap _ heap1 r Hok Hpop) as Hmin.
  simpl in Hmin.
  assert (∀ r, r ∈ pending rngs (e :: heap) ↔
               r ∈ pending rngs ((i1, neg_i2, j, idx) :: heap1)) as Hpp.
  { intros r. rewrite !elem_of_pending. by setoid_rewrite Hperm. }
  rewrite Hpop. cbn [mbind option_bind].
  rewrite Hperm in Hok, Hsum. apply Forall_cons in Hok as [He Hok].
  pose proof (entry_ok_range _ _ Hrngs _ _ _ _ He) as [Hi Hin]. simpl in Hi, Hin.
  destruct (push_next_spec rngs heap1 _ _ _ _ He Hok) as (heap2 & Hpush & Hok2 & Hsum2).
  pose proof (λ r, push_next_pending rngs heap1 i1 neg_i2 j idx heap2 r He Hpush) as Hnext.
  rewrite Hpush. cbn [mbind option_bind].
  set (res0 := (if decide (i1 ≠ 0%Z) then [Lit (py_slice s 0 i1)] else []) ++ [Open]).
  assert (read_pieces res0 = TagState (Z.to_nat i1) (Some (Z.to_nat i1)) [] true) as Hread0.
  { unfold res0. rewrite read_pieces_app.
    destruct (decide (i1 ≠ 0%Z)) as [|Hi0]; [|by apply dec_stable in Hi0 as ->].
    rewrite read_lit. simpl.
    destruct (py_slice_inner s 0 i1) as [_ ->]; [lia..|]. simpl.
    by rewrite Nat.sub_0_r. }
  assert (bold_inv s res0 i1 (- neg_i2)) as Hinv0.
  { split; [lia| |].
    - unfold res0. rewrite strip_app. unfold strip at 2. simpl. rewrite app_nil_r.
      destruct (decide (i1 ≠ 0%Z)) as [|Hi0]; [|by apply dec_stable in Hi0 as ->].
      unfold strip. simpl. rewrite app_nil_r.
      destruct (py_slice_inner s 0 i1) as [-> _]; [lia..|]. simpl.
      by rewrite Nat.sub_0_r.
    - exists []. split_and!; [done|constructor..]. }
  destruct (bold_loop_spec (length (concat rngs)) s rngs heap2 res0
              i1 (- neg_i2) Hrngs Hok2)
    as (res & bs_i & be_i & Hloop & Hinv); [|done|].
  { rewrite <-Hsum. apply Nat.lt_le_incl, Hsum2. }
  pose proof (λ x, bold_loop_cover _ s rngs heap2 res0 i1 (- neg_i2) res bs_i be_i
                     Hrngs Hsorted Hok2 Hinv0
                     ltac:(intros r Hr; apply Hmin, Hpp, Hnext; by right) Hloop x) as Hcov.
  destruct Hinv as [[Hbs Hbe] _ (sp & Hread & _)].
  rewrite Hloop. cbn [mbind option_bind].
  destruct (py_slice_inner s bs_i be_i) as [_ Hl1]; [lia..|].
  eexists _, (sp ++ [(Z.to_nat bs_i, Z.to_nat be_i)]). split; [done|]. split.
  { unfold spans_of. rewrite !read_pieces_app, Hread. simpl. rewrite Hl1.
    replace (Z.to_nat bs_i + (Z.to_nat be_i - Z.to_nat bs_i))
      with (Z.to_nat be_i) by lia.
    by destruct (decide (be_i < _)%Z). }
  intros x. rewrite <-Hmatch, <-Hcover.
  specialize (Hcov x). rewrite Hread, Hread0 in Hcov. cbn [ts_spans] in Hcov.
  rewrite in_spans_snoc.
  assert (covered (concat rngs) (Z.of_nat x) ↔
          (i1 ≤ Z.of_nat x < - neg_i2)%Z ∨ covered (pending rngs heap2) (Z.of_nat x))
    as ->.
  { unfold covered. split.
    - intros (r & Hr%Hpend%Hpp%Hnext & Hx). destruct Hr as [-> |Hr]; [by left|right; eauto].
    - intros [Hx|(r & Hr & Hx)].
      + exists (i1, (- neg_i2)%Z). split; [apply Hpend, Hpp, Hnext; by left|done].
      + exists r. split; [apply Hpend, Hpp, Hnext; by right|done]. }
  assert (Z.to_nat bs_i ≤ x < Z.to_nat be_i ↔ (bs_i ≤ Z.of_nat x < be_i)%Z) as -> by lia.
  pose proof (Hnone x). tauto.
Qed.
End BoldCover.
